(** * A DNS wire codec and forwarding resolver (app/main.go), embedded in Rocq

    The Go program is translated function by function.

    - Integers are [Z]; the wrap-around of byte, uint16 and uint32 is written
      out where the program converts or shifts.  An [int] is an unbounded
      [Z]: the offsets the program computes stay far below 2^63.
    - A byte buffer the program reads is a [slice], with its length and its
      capacity; a buffer it builds with make is a [list Z].
    - A Go string is a [string]; it goes to and from bytes one character per
      byte.
    - A call returns, panics with a run-time bounds error, or does not
      finish: parseLabels is recursive, and is given fuel.
    - The sockets are a script: handleConnection takes the datagram it
      receives and the upstream's answers, and yields what it writes.
      The calls to fmt are left out. *)

From Stdlib Require Import ZArith Lia List String Ascii Bool.
From stdpp Require Import base list list_numbers relations.
Import ListNotations.

Local Open Scope Z_scope.

(** ** Outcomes of a Go call *)

Inductive outcome (A : Type) : Type :=
| Ret (a : A)   (* the call returns [a] *)
| Panic         (* run-time panic: index or slice bounds out of range *)
| Diverge.      (* the recursion does not finish within the given fuel *)

Arguments Ret {A} a.
Arguments Panic {A}.
Arguments Diverge {A}.

Definition bind {A B : Type} (m : outcome A) (k : A -> outcome B) : outcome B :=
  match m with
  | Ret a => k a
  | Panic => Panic
  | Diverge => Diverge
  end.

Notation "'let*' x ':=' m 'in' k" := (bind m (fun x => k))
  (at level 10, x pattern, m at level 100, k at level 200).

(** ** Machine integers *)

Definition byte (n : Z) : Z := n mod 256.          (* conversion byte(n)   *)
Definition uint16 (n : Z) : Z := n mod 65536.      (* conversion uint16(n) *)
Definition uint32 (n : Z) : Z := n mod 4294967296. (* conversion uint32(n) *)

Definition is_byte (b : Z) : Prop := 0 <= b < 256.
Definition is_uint16 (n : Z) : Prop := 0 <= n < 65536.
Definition is_uint32 (n : Z) : Prop := 0 <= n < 4294967296.

(** [x << k] on a value of type byte. *)
Definition shl8 (x k : Z) : Z := byte (Z.shiftl x k).

(** ** Slices

    A Go slice is a window of [len] elements on a backing array; [arr] holds
    the array from the first element of the slice up to its capacity.  An
    index expression is checked against the length, a slice expression
    against the capacity. *)

Record slice : Type := { arr : list Z; len : nat }.

Definition cap (s : slice) : nat := length (arr s).

(** A slice without spare capacity, as returned by make([]byte, n). *)
Definition full (l : list Z) : slice := {| arr := l; len := length l |}.

(** The visible elements s[0:len(s)]. *)
Definition contents (s : slice) : list Z := take (len s) (arr s).

(** s[i] *)
Definition index (s : slice) (i : Z) : outcome Z :=
  if (0 <=? i) && (i <? Z.of_nat (len s)) then
    match arr s !! Z.to_nat i with
    | Some b => Ret b
    | None => Panic
    end
  else Panic.

(** The elements of s[lo:hi]. *)
Definition subslice (s : slice) (lo hi : Z) : outcome (list Z) :=
  if (0 <=? lo) && (lo <=? hi) && (hi <=? Z.of_nat (cap s)) then
    Ret (take (Z.to_nat (hi - lo)) (drop (Z.to_nat lo) (arr s)))
  else Panic.

(** ** Writes to a local buffer obtained from make([]byte, n)
    (length and capacity coincide). *)

Definition make (n : Z) : list Z := replicate (Z.to_nat n) 0.

(** buf[i] = v *)
Definition store (buf : list Z) (i v : Z) : outcome (list Z) :=
  if (0 <=? i) && (i <? Z.of_nat (length buf)) then Ret (<[Z.to_nat i := v]> buf)
  else Panic.

(** copy(buf[lo:], src): copies min(len(buf) - lo, len(src)) elements. *)
Definition copy_from (buf : list Z) (lo : Z) (src : list Z) : outcome (list Z) :=
  if (0 <=? lo) && (lo <=? Z.of_nat (length buf)) then
    Ret (list_inserts (Z.to_nat lo) src buf)
  else Panic.

(** ** encoding/binary, BigEndian *)

(** binary.BigEndian.Uint16(b) *)
Definition Uint16 (b : list Z) : outcome Z :=
  match b with
  | b0 :: b1 :: _ => Ret (Z.lor b1 (uint16 (Z.shiftl b0 8)))
  | _ => Panic
  end.

(** binary.BigEndian.Uint32(b) *)
Definition Uint32 (b : list Z) : outcome Z :=
  match b with
  | b0 :: b1 :: b2 :: b3 :: _ =>
      Ret (Z.lor (Z.lor (Z.lor b3 (uint32 (Z.shiftl b2 8)))
                        (uint32 (Z.shiftl b1 16)))
                 (uint32 (Z.shiftl b0 24)))
  | _ => Panic
  end.

(** binary.BigEndian.PutUint16(buf[lo:hi], v) *)
Definition PutUint16 (buf : list Z) (lo hi v : Z) : outcome (list Z) :=
  if (0 <=? lo) && (lo <=? hi) && (hi <=? Z.of_nat (length buf)) then
    if 2 <=? hi - lo then
      Ret (<[Z.to_nat lo := byte (Z.shiftr v 8)]>
             (<[Z.to_nat (lo + 1) := byte v]> buf))
    else Panic
  else Panic.

(** binary.BigEndian.PutUint32(buf[lo:hi], v) *)
Definition PutUint32 (buf : list Z) (lo hi v : Z) : outcome (list Z) :=
  if (0 <=? lo) && (lo <=? hi) && (hi <=? Z.of_nat (length buf)) then
    if 4 <=? hi - lo then
      Ret (<[Z.to_nat lo := byte (Z.shiftr v 24)]>
             (<[Z.to_nat (lo + 1) := byte (Z.shiftr v 16)]>
                (<[Z.to_nat (lo + 2) := byte (Z.shiftr v 8)]>
                   (<[Z.to_nat (lo + 3) := byte v]> buf))))
    else Panic
  else Panic.

(** ** Data model

    The fields keep their Go names, except that Question and Answer share
    the names Name, Type and Class, and that Message names its fields after
    their types: these carry the initial of their structure. *)

Record Header : Type := {
  ID : Z;                     (* uint16 *)
  QR : Z;                     (* byte, 1 bit *)
  OpCode : Z;                 (* byte, 4 bits *)
  AuthorativeAnswer : Z;      (* byte, 1 bit *)
  Truncation : Z;             (* byte, 1 bit *)
  RecursionDesired : Z;       (* byte, 1 bit *)
  RecursionAvailable : Z;     (* byte, 1 bit *)
  Reserved : Z;               (* byte, 3 bits *)
  ResponseCode : Z;           (* byte, 4 bits *)
  QuestionCount : Z;          (* uint16 *)
  AnswerRecordCount : Z;      (* uint16 *)
  AuthorativeRecordCount : Z; (* uint16 *)
  AdditionalRecordCount : Z   (* uint16 *)
}.

Record Question : Type := {
  QName : string;
  QType : Z;   (* uint16 *)
  QClass : Z   (* uint16 *)
}.

Record Answer : Type := {
  AName : string;
  AType : Z;      (* uint16 *)
  AClass : Z;     (* uint16 *)
  TTL : Z;        (* uint32 *)
  RDLength : Z;   (* uint16 *)
  RData : list Z  (* []byte *)
}.

Record Message : Type := {
  MHeader : Header;
  MQuestion : list Question;
  MAnswer : list Answer;
  Authority : Z;
  Additional : Z
}.

(** ** Header codec *)

(** func (h *Header) ToBytes() []byte *)
Definition Header_ToBytes (h : Header) : outcome (list Z) :=
  let buf := make 12 in
  let* buf := PutUint16 buf 0 2 (uint16 (ID h)) in
  let* buf := store buf 2
    (Z.lor (Z.lor (Z.lor (Z.lor (shl8 (QR h) 7) (shl8 (OpCode h) 3))
                         (shl8 (AuthorativeAnswer h) 2))
                  (shl8 (Truncation h) 1))
           (RecursionDesired h)) in
  let* buf := store buf 3
    (Z.lor (Z.lor (shl8 (RecursionAvailable h) 7) (shl8 (Reserved h) 4))
           (ResponseCode h)) in
  let* buf := PutUint16 buf 4 6 (QuestionCount h) in
  let* buf := PutUint16 buf 6 8 (AnswerRecordCount h) in
  let* buf := PutUint16 buf 8 10 (AuthorativeRecordCount h) in
  let* buf := PutUint16 buf 10 12 (AdditionalRecordCount h) in
  Ret buf.

(** binary.BigEndian.Uint16(buf[lo:hi]) *)
Definition Uint16_at (buf : slice) (lo hi : Z) : outcome Z :=
  let* b := subslice buf lo hi in Uint16 b.

(** binary.BigEndian.Uint32(buf[lo:hi]) *)
Definition Uint32_at (buf : slice) (lo hi : Z) : outcome Z :=
  let* b := subslice buf lo hi in Uint32 b.

(** func parseHeader(buf []byte) *Header *)
Definition parseHeader (buf : slice) : outcome Header :=
  let* id := Uint16_at buf 0 2 in
  let* b2 := index buf 2 in
  let qr := Z.shiftr b2 7 in
  let* b2 := index buf 2 in
  let opcode := Z.land (Z.shiftr b2 3) 15 in
  let* b2 := index buf 2 in
  let aa := Z.land (Z.shiftr b2 2) 1 in
  let* b2 := index buf 2 in
  let tc := Z.land (Z.shiftr b2 1) 1 in
  let* b2 := index buf 2 in
  let rd := Z.land b2 1 in
  let* b3 := index buf 3 in
  let ra := Z.shiftr b3 7 in
  let* b3 := index buf 3 in
  let reserved := Z.land (Z.shiftr b3 4) 7 in
  let* b3 := index buf 3 in
  let rcode := Z.land b3 15 in
  let* qdcount := Uint16_at buf 4 6 in
  let* ancount := Uint16_at buf 6 8 in
  let* nscount := Uint16_at buf 8 10 in
  let* arcount := Uint16_at buf 10 12 in
  Ret {| ID := id; QR := qr; OpCode := opcode; AuthorativeAnswer := aa;
         Truncation := tc; RecursionDesired := rd; RecursionAvailable := ra;
         Reserved := reserved; ResponseCode := rcode;
         QuestionCount := qdcount; AnswerRecordCount := ancount;
         AuthorativeRecordCount := nscount; AdditionalRecordCount := arcount |}.

(** ** Strings *)

Definition byte_of_ascii (c : ascii) : Z := Z.of_N (N_of_ascii c).
Definition ascii_of_byte (b : Z) : ascii := ascii_of_N (Z.to_N b).

(** The bytes of a Go string, as copy(dst, s) reads them. *)
Fixpoint bytes_of_string (s : string) : list Z :=
  match s with
  | EmptyString => []
  | String c r => byte_of_ascii c :: bytes_of_string r
  end.

(** The conversion string(b) of a byte slice. *)
Fixpoint string_of_bytes (b : list Z) : string :=
  match b with
  | [] => EmptyString
  | x :: r => String (ascii_of_byte x) (string_of_bytes r)
  end.

(** len(s) of a string *)
Definition strlen (s : string) : Z := Z.of_nat (String.length s).

Definition dot : ascii := "."%char.

(** strings.Split(s, "."): the substrings between the dots; never empty. *)
Fixpoint Split (s : string) : list string :=
  match s with
  | EmptyString => [EmptyString]
  | String c r =>
      if Ascii.eqb c dot then EmptyString :: Split r
      else match Split r with
           | l :: ls => String c l :: ls
           | [] => [String c EmptyString]
           end
  end.

(** strings.Join(labels, ".") *)
Definition Join (labels : list string) : string := String.concat "." labels.

(** ** Question and answer encoders *)

(** The first loop of both encoders: bufsize += len(label) + 1. *)
Definition labels_size (labels : list string) : Z :=
  fold_left (fun bufsize label => bufsize + (strlen label + 1)) labels 0.

(** One round of the second loop: the length byte, then the label. *)
Definition put_label (st : outcome (list Z * Z)) (label : string)
  : outcome (list Z * Z) :=
  let* (buf, copied) := st in
  let* buf := store buf copied (byte (strlen label)) in
  let copied := copied + 1 in
  let* buf := copy_from buf copied (bytes_of_string label) in
  Ret (buf, copied + strlen label).

Definition put_labels (buf : list Z) (labels : list string)
  : outcome (list Z * Z) :=
  fold_left put_label labels (Ret (buf, 0)).

(** func (q *Question) ToBytes() []byte *)
Definition Question_ToBytes (q : Question) : outcome (list Z) :=
  let labels := Split (QName q) in
  let bufsize := labels_size labels + 5 in
  let buf := make bufsize in
  let* (buf, copied) := put_labels buf labels in
  let* buf := store buf copied 0 in
  let copied := copied + 1 in
  let* buf := PutUint16 buf copied (copied + 2) (QType q) in
  let* buf := PutUint16 buf (copied + 2) (copied + 4) (QClass q) in
  Ret buf.

(** func (a *Answer) ToBytes() []byte *)
Definition Answer_ToBytes (a : Answer) : outcome (list Z) :=
  let labels := Split (AName a) in
  let bufsize := labels_size labels + (Z.of_nat (length (RData a)) + 11) in
  let buf := make bufsize in
  let* (buf, copied) := put_labels buf labels in
  let* buf := store buf copied 0 in
  let copied := copied + 1 in
  let* buf := PutUint16 buf copied (copied + 2) (AType a) in
  let* buf := PutUint16 buf (copied + 2) (copied + 4) (AClass a) in
  let* buf := PutUint32 buf (copied + 4) (copied + 8) (TTL a) in
  let* buf := PutUint16 buf (copied + 8) (copied + 10) (RDLength a) in
  let* buf := copy_from buf (copied + 10) (RData a) in
  Ret buf.

(** ** Name decoder *)

(** The loop of parseLabels, entered at cursor [i] with the labels read so
    far; [fuel] bounds the number of loop rounds and recursive calls.

    func parseLabels(buf []byte, start int) ([]string, int) *)
Fixpoint parseLabels_loop (fuel : nat) (buf : slice) (i : Z)
    (labels : list string) : outcome (list string * Z) :=
  match fuel with
  | O => Diverge
  | S fuel =>
      let* b := index buf i in
      if b =? 0 then Ret (labels, i + 1)
      else
        let labelLength := b in
        if 192 <=? labelLength then
          let* w := Uint16_at buf i (i + 2) in
          let offset := Z.land w 16383 in
          let* (labels_, _) := parseLabels_loop fuel buf offset [] in
          Ret (labels ++ labels_, i + 2)
        else
          let* l := subslice buf (i + 1) (i + 1 + labelLength) in
          parseLabels_loop fuel buf (i + (labelLength + 1))
            (labels ++ [string_of_bytes l])
  end.

Definition parseLabels (fuel : nat) (buf : slice) (start : Z)
  : outcome (list string * Z) :=
  parseLabels_loop fuel buf start [].

(** ** Record decoders *)

(** func parseQuestion(buf []byte, start int) ( *Question, int) *)
Definition parseQuestion (fuel : nat) (buf : slice) (start : Z)
  : outcome (Question * Z) :=
  let* (labels, i) := parseLabels fuel buf start in
  let name := Join labels in
  let* type := Uint16_at buf i (i + 2) in
  let* class := Uint16_at buf (i + 2) (i + 4) in
  Ret ({| QName := name; QType := type; QClass := class |}, i + 4).

(** func parseAnswer(buf []byte, ansStart int) *Answer *)
Definition parseAnswer (fuel : nat) (buf : slice) (ansStart : Z)
  : outcome Answer :=
  let* (labels, i) := parseLabels fuel buf ansStart in
  let name := Join labels in
  let* type := Uint16_at buf i (i + 2) in
  let* class := Uint16_at buf (i + 2) (i + 4) in
  let* ttl := Uint32_at buf (i + 4) (i + 8) in
  let* rdlength := Uint16_at buf (i + 8) (i + 10) in
  let* rdata := subslice buf (i + 10) (i + 10 + rdlength) in
  Ret {| AName := name; AType := type; AClass := class; TTL := ttl;
         RDLength := rdlength; RData := rdata |}.

(** ** Message decoder *)

(** A Go error value; the nil error is [None]. *)
Definition error : Type := string.

(** for i := 0; i < int(header.QuestionCount); i++ { ... } *)
Fixpoint parseQuestions (fuel : nat) (request : slice) (n : nat)
    (nextStart : Z) (questions : list Question)
  : outcome (list Question * Z) :=
  match n with
  | O => Ret (questions, nextStart)
  | S n =>
      let* (question, nextStart) := parseQuestion fuel request nextStart in
      parseQuestions fuel request n nextStart (questions ++ [question])
  end.

(** for i := 0; i < answerCount; i++ { ... }: nextStart is not advanced. *)
Fixpoint parseAnswers (fuel : nat) (request : slice) (n : nat)
    (nextStart : Z) (answers : list Answer) : outcome (list Answer) :=
  match n with
  | O => Ret answers
  | S n =>
      let* answer := parseAnswer fuel request nextStart in
      parseAnswers fuel request n nextStart (answers ++ [answer])
  end.

(** func parseRequest(request []byte) ( *Message, error) *)
Definition parseRequest (fuel : nat) (request : slice)
  : outcome (Message * option error) :=
  let* header := parseHeader request in
  let* (questions, nextStart) :=
    parseQuestions fuel request (Z.to_nat (QuestionCount header)) 12 [] in
  let answerCount := AnswerRecordCount header in
  let* answers :=
    parseAnswers fuel request (Z.to_nat answerCount) nextStart [] in
  Ret ({| MHeader := header; MQuestion := questions; MAnswer := answers;
          Authority := 0; Additional := 0 |}, None).

(** ** Forwarding resolver *)

(** One exchange on the upstream connection: the fate of udpConn.Write and of
    the udpConn.Read that follows it. *)
Inductive exchange : Type :=
| WriteError (e : error)
| ReadError (e : error)
| Reply (datagram : list Z).

(** func queryDNS(msg *Message, udpConn *net.UDPConn) ([]byte, error)
    Returns the bytes handed to udpConn.Write together with the result. *)
Definition queryDNS (msg : Message) (udpConn : list Z -> exchange)
  : outcome (list Z * (error + slice)) :=
  let buf := make (1024 * 10) in
  let copied := 0 in
  let* hb := Header_ToBytes (MHeader msg) in
  let* buf := copy_from buf copied hb in
  let copied := copied + 12 in
  let* q := match MQuestion msg with q :: _ => Ret q | [] => Panic end in
  let* qb := Question_ToBytes q in
  let* buf := copy_from buf copied qb in
  let copied := copied + Z.of_nat (length qb) in
  let* out := subslice (full buf) 0 copied in
  match udpConn out with
  | WriteError e => Ret (out, inl e)
  | ReadError e => Ret (out, inl e)
  | Reply datagram =>
      (* Read fills the front of buf; the reply is buf[:n] *)
      let buf := list_inserts 0 datagram buf in
      let n := Nat.min (length datagram) (length buf) in
      Ret (out, inr {| arr := buf; len := n |})
  end.

Definition set_counts (h : Header) (qdcount ancount : Z) : Header :=
  {| ID := ID h; QR := QR h; OpCode := OpCode h;
     AuthorativeAnswer := AuthorativeAnswer h; Truncation := Truncation h;
     RecursionDesired := RecursionDesired h;
     RecursionAvailable := RecursionAvailable h; Reserved := Reserved h;
     ResponseCode := ResponseCode h;
     QuestionCount := qdcount; AnswerRecordCount := ancount;
     AuthorativeRecordCount := AuthorativeRecordCount h;
     AdditionalRecordCount := AdditionalRecordCount h |}.

Definition set_QR (h : Header) (v : Z) : Header :=
  {| ID := ID h; QR := v; OpCode := OpCode h;
     AuthorativeAnswer := AuthorativeAnswer h; Truncation := Truncation h;
     RecursionDesired := RecursionDesired h;
     RecursionAvailable := RecursionAvailable h; Reserved := Reserved h;
     ResponseCode := ResponseCode h;
     QuestionCount := QuestionCount h;
     AnswerRecordCount := AnswerRecordCount h;
     AuthorativeRecordCount := AuthorativeRecordCount h;
     AdditionalRecordCount := AdditionalRecordCount h |}.

Definition set_ResponseCode (h : Header) (v : Z) : Header :=
  {| ID := ID h; QR := QR h; OpCode := OpCode h;
     AuthorativeAnswer := AuthorativeAnswer h; Truncation := Truncation h;
     RecursionDesired := RecursionDesired h;
     RecursionAvailable := RecursionAvailable h; Reserved := Reserved h;
     ResponseCode := v;
     QuestionCount := QuestionCount h;
     AnswerRecordCount := AnswerRecordCount h;
     AuthorativeRecordCount := AuthorativeRecordCount h;
     AdditionalRecordCount := AdditionalRecordCount h |}.

(** How handleConnection ends when it does not panic. *)
Inductive reaction : Type :=
| RecvFailed            (* "Error receiving data"       *)
| ParseRequestFailed    (* "Error parsing request"      *)
| PortFailed            (* "Error parsing port"         *)
| DialFailed            (* "Error connecting to DNS server" *)
| QueryFailed           (* "Error querying DNS"         *)
| ParseResponseFailed   (* "Error parsing response"     *)
| Responded (response : list Z). (* conn.WriteToUDP(response, source) *)

(** The state the forwarding loop leaves behind: the header it mutated
    through the shared pointer, and the two accumulators. *)
Definition merged : Type := (Header * list Question * list Answer)%type.

(** for _, question := range msg.Question { ... }
    [k] counts the exchanges made so far on the upstream connection; the
    first component of the result lists what was handed to udpConn.Write. *)
Fixpoint forward (fuel : nat) (upstream : nat -> list Z -> exchange) (k : nat)
    (pending : list Question) (header : Header)
    (questions : list Question) (answers : list Answer)
  : list (list Z) * outcome (reaction + merged) :=
  match pending with
  | [] => ([], Ret (inr (header, questions, answers)))
  | question :: pending =>
      let header := set_counts header 1 0 in
      let req := {| MHeader := header; MQuestion := [question]; MAnswer := [];
                    Authority := 0; Additional := 0 |} in
      match queryDNS req (upstream k) with
      | Panic => ([], Panic)
      | Diverge => ([], Diverge)
      | Ret (out, inl _) => ([out], Ret (inl QueryFailed))
      | Ret (out, inr resp) =>
          match parseRequest fuel resp with
          | Panic => ([out], Panic)
          | Diverge => ([out], Diverge)
          | Ret (_, Some _) => ([out], Ret (inl ParseResponseFailed))
          | Ret (respMsg, None) =>
              let (trace, r) :=
                forward fuel upstream (S k) pending header
                  (questions ++ MQuestion respMsg)
                  (answers ++ MAnswer respMsg) in
              (out :: trace, r)
          end
      end
  end.

(** msg.Header.QR = 1 ... msg.Header.AnswerRecordCount = uint16(len(answers)) *)
Definition finish_header (header : Header) (questions : list Question)
    (answers : list Answer) : Header :=
  let header := set_QR header 1 in
  let header := set_ResponseCode header 0 in
  let header :=
    if negb (OpCode header =? 0) then set_ResponseCode header 4 else header in
  set_counts header (uint16 (Z.of_nat (length questions)))
                    (uint16 (Z.of_nat (length answers))).

(** for _, question := range questions { response = append(response, ...) } *)
Fixpoint append_questions (response : list Z) (questions : list Question)
  : outcome (list Z) :=
  match questions with
  | [] => Ret response
  | question :: questions =>
      let* qb := Question_ToBytes question in
      append_questions (response ++ qb) questions
  end.

(** for _, answer := range answers { response = append(response, ...) } *)
Fixpoint append_answers (response : list Z) (answers : list Answer)
  : outcome (list Z) :=
  match answers with
  | [] => Ret response
  | answer :: answers =>
      let* ab := Answer_ToBytes answer in
      append_answers (response ++ ab) answers
  end.

(** The tail of handleConnection, from response := make([]byte, 12) on. *)
Definition respond (header : Header) (questions : list Question)
    (answers : list Answer) : outcome (list Z) :=
  let response := make 12 in
  let header := finish_header header questions answers in
  let* hb := Header_ToBytes header in
  let* response := copy_from response 0 hb in
  let* response := append_questions response questions in
  append_answers response answers.

(** What handleConnection meets outside the codec: the datagram delivered by
    conn.ReadFromUDP (or its error), whether the port argument parses,
    whether net.DialUDP succeeds, and the upstream's exchanges. *)
Record world : Type := {
  inbound : error + list Z;
  port_ok : bool;
  dial_ok : bool;
  upstream : nat -> list Z -> exchange
}.

(** func handleConnection(conn *net.UDPConn)
    Returns the datagrams written upstream and the way the call ends. *)
Definition handleConnection (fuel : nat) (w : world)
  : list (list Z) * outcome reaction :=
  let buf := make 2048 in
  match inbound w with
  | inl _ => ([], Ret RecvFailed)
  | inr datagram =>
      let buf := list_inserts 0 datagram buf in
      match parseRequest fuel (full buf) with
      | Panic => ([], Panic)
      | Diverge => ([], Diverge)
      | Ret (_, Some _) => ([], Ret ParseRequestFailed)
      | Ret (msg, None) =>
          if negb (port_ok w) then ([], Ret PortFailed)
          else if negb (dial_ok w) then ([], Ret DialFailed)
          else
            let (trace, r) :=
              forward fuel (upstream w) 0 (MQuestion msg) (MHeader msg) [] [] in
            (trace,
             let* r := r in
             match r with
             | inl stop => Ret stop
             | inr (header, questions, answers) =>
                 let* response := respond header questions answers in
                 Ret (Responded response)
             end)
      end
  end.

(** * Vocabulary of the properties *)

(** ** What the encoders write *)

(** The two bytes PutUint16 writes. *)
Definition be16 (v : Z) : list Z := [byte (Z.shiftr v 8); byte v].

(** The four bytes PutUint32 writes. *)
Definition be32 (v : Z) : list Z :=
  [byte (Z.shiftr v 24); byte (Z.shiftr v 16); byte (Z.shiftr v 8); byte v].

(** Every field of the header fits its declared width. *)
Definition wf_Header (h : Header) : Prop :=
  is_uint16 (ID h) /\ 0 <= QR h < 2 /\ 0 <= OpCode h < 16 /\
  0 <= AuthorativeAnswer h < 2 /\ 0 <= Truncation h < 2 /\
  0 <= RecursionDesired h < 2 /\ 0 <= RecursionAvailable h < 2 /\
  0 <= Reserved h < 8 /\ 0 <= ResponseCode h < 16 /\
  is_uint16 (QuestionCount h) /\ is_uint16 (AnswerRecordCount h) /\
  is_uint16 (AuthorativeRecordCount h) /\ is_uint16 (AdditionalRecordCount h).

(** Byte 2 of the header: QR, OPCODE, AA, TC, RD. *)
Definition flags2 (h : Header) : Z :=
  Z.lor (Z.lor (Z.lor (Z.lor (shl8 (QR h) 7) (shl8 (OpCode h) 3))
                      (shl8 (AuthorativeAnswer h) 2))
               (shl8 (Truncation h) 1))
        (RecursionDesired h).

(** Byte 3 of the header: RA, the reserved bits, RCODE. *)
Definition flags3 (h : Header) : Z :=
  Z.lor (Z.lor (shl8 (RecursionAvailable h) 7) (shl8 (Reserved h) 4))
        (ResponseCode h).

(** The twelve bytes Header.ToBytes writes. *)
Definition header_bytes (h : Header) : list Z :=
  be16 (uint16 (ID h)) ++ [flags2 h; flags3 h] ++ be16 (QuestionCount h) ++
  be16 (AnswerRecordCount h) ++ be16 (AuthorativeRecordCount h) ++
  be16 (AdditionalRecordCount h).

(** A label behind its length byte, as the second loop writes it. *)
Definition encode_label (label : string) : list Z :=
  byte (strlen label) :: bytes_of_string label.

(** The concatenated length-prefixed labels, without the terminator. *)
Definition encode_labels (labels : list string) : list Z :=
  concat (map encode_label labels).

(** The buffer Question.ToBytes returns. *)
Definition question_bytes (q : Question) : list Z :=
  encode_labels (Split (QName q)) ++ [0] ++ be16 (QType q) ++ be16 (QClass q).

(** The buffer Answer.ToBytes returns. *)
Definition answer_bytes (a : Answer) : list Z :=
  encode_labels (Split (AName a)) ++ [0] ++ be16 (AType a) ++
  be16 (AClass a) ++ be32 (TTL a) ++ be16 (RDLength a) ++ RData a.

(** ** Well-formed names and records *)

(** A label the decoder reads back as one label: its length byte is neither
    the terminator nor a pointer. *)
Definition plain_label (l : string) : Prop := 1 <= strlen l < 192.

(** Every dot-separated label of the name has 1 to 63 bytes. *)
Definition wf_name (name : string) : Prop :=
  Forall (fun l => 1 <= strlen l <= 63) (Split name).

(** Labels of 1 to 63 bytes, type and class within 16 bits. *)
Definition wf_Question (q : Question) : Prop :=
  wf_name (QName q) /\ is_uint16 (QType q) /\ is_uint16 (QClass q).

(** As for a question, with a 32-bit TTL and RDLENGTH the length of RDATA. *)
Definition wf_Answer (a : Answer) : Prop :=
  wf_name (AName a) /\ is_uint16 (AType a) /\ is_uint16 (AClass a) /\
  is_uint32 (TTL a) /\ is_uint16 (RDLength a) /\
  RDLength a = Z.of_nat (length (RData a)).

(** ** Compression pointers *)

(** [reaches_pointer buf s t]: the labels starting at offset [s] are ended by
    a compression pointer, and that pointer holds the offset [t]. *)
Inductive reaches_pointer (buf : slice) : Z -> Z -> Prop :=
| rp_pointer s b w :
    index buf s = Ret b -> b <> 0 -> 192 <= b ->
    Uint16_at buf s (s + 2) = Ret w ->
    reaches_pointer buf s (Z.land w 16383)
| rp_label s b l t :
    index buf s = Ret b -> b <> 0 -> b < 192 ->
    subslice buf (s + 1) (s + 1 + b) = Ret l ->
    reaches_pointer buf (s + (b + 1)) t ->
    reaches_pointer buf s t.

(** The loop of parseLabels with the recursive call left out: the offset held
    by the pointer that ends the labels starting at [i], if there is one. *)
Fixpoint pointer_after (fuel : nat) (buf : slice) (i : Z) : option Z :=
  match fuel with
  | O => None
  | S fuel =>
      match index buf i with
      | Ret b =>
          if b =? 0 then None
          else if 192 <=? b then
            match Uint16_at buf i (i + 2) with
            | Ret w => Some (Z.land w 16383)
            | _ => None
            end
          else
            match subslice buf (i + 1) (i + 1 + b) with
            | Ret _ => pointer_after fuel buf (i + (b + 1))
            | _ => None
            end
      | _ => None
      end
  end.

(** [visits buf start s]: decoding the name at [start] comes to decode
    labels at [s], which is [start] itself or the target of a pointer met
    on the way. *)
Definition visits (buf : slice) (start s : Z) : Prop :=
  rtc (reaches_pointer buf) start s.

(** [leads_back buf s]: following one pointer or more from [s] comes back
    to [s]. *)
Definition leads_back (buf : slice) (s : Z) : Prop :=
  tc (reaches_pointer buf) s s.

(** The chain of pointers followed from [start] never comes back to an
    offset it has been at. *)
Definition acyclic_from (buf : slice) (start : Z) : Prop :=
  forall s, visits buf start s -> ~ leads_back buf s.

(** Every pointer met from [start] points strictly before the start of the
    labels it ends. *)
Definition backward_from (buf : slice) (start : Z) : Prop :=
  forall s t, visits buf start s -> reaches_pointer buf s t -> t < s.

(** The call parseLabels(buf, start) finishes, by returning or by a panic:
    some amount of fuel, and any larger one, suffices. *)
Definition finishes (buf : slice) (start : Z) : Prop :=
  exists fuel, forall fuel', (fuel <= fuel')%nat ->
    parseLabels fuel' buf start <> Diverge.

(** Following at most [n] pointers from [s] comes to labels that no pointer
    ends. *)
Fixpoint chain_ends (n : nat) (buf : slice) (s : Z) : bool :=
  match n with
  | O => false
  | S n =>
      match pointer_after (S (len buf)) buf s with
      | Some t => chain_ends n buf t
      | None => true
      end
  end.

(** The wire form of a label sequence: each label behind its length. *)
Definition wire_labels (labels : list string) : list Z :=
  concat (map (fun l => strlen l :: bytes_of_string l) labels).

(** A label of 64 bytes. *)
Definition long_label : string :=
  "aaaaaaaaaaaaaaaaaaaaaaaaaaaaaaaaaaaaaaaaaaaaaaaaaaaaaaaaaaaaaaaa".

(** ** Samples for the codec *)

Definition sample_header : Header :=
  {| ID := 4660; QR := 0; OpCode := 0; AuthorativeAnswer := 0;
     Truncation := 0; RecursionDesired := 1; RecursionAvailable := 0;
     Reserved := 0; ResponseCode := 0; QuestionCount := 1;
     AnswerRecordCount := 0; AuthorativeRecordCount := 0;
     AdditionalRecordCount := 0 |}.

Definition sample_question : Question :=
  {| QName := "example.com"; QType := 1; QClass := 1 |}.

Definition sample_answer : Answer :=
  {| AName := "example.com"; AType := 1; AClass := 1; TTL := 300;
     RDLength := 4; RData := [93; 184; 216; 34] |}.

(** ** The resolver *)

(** The bytes of a message: header, questions in order, answers in order. *)
Definition message_bytes (h : Header) (questions : list Question)
    (answers : list Answer) : list Z :=
  header_bytes h ++ concat (map question_bytes questions) ++
  concat (map answer_bytes answers).

(** What queryDNS hands to udpConn.Write: the header, then the first
    question, provided both fit the 10240-byte buffer. *)
Definition request_bytes (h : Header) (q : Question) : list Z :=
  header_bytes h ++ question_bytes q.

(** The reply slice queryDNS cuts from its buffer after udpConn.Read. *)
Definition reply_slice (out datagram : list Z) : slice :=
  {| arr := list_inserts 0 datagram
              (out ++ replicate (Z.to_nat 10240 - length out) 0);
     len := Nat.min (length datagram) (Z.to_nat 10240) |}.

(** The body of the forwarding loop up to the decoded reply: the message the
    exchange [k] brings back for [question], if the exchange succeeds and
    the reply decodes. *)
Definition round_trip (fuel : nat) (upstream : nat -> list Z -> exchange)
    (header : Header) (k : nat) (question : Question) : option Message :=
  match queryDNS {| MHeader := header; MQuestion := [question];
                    MAnswer := []; Authority := 0; Additional := 0 |}
                 (upstream k) with
  | Ret (_, inr resp) =>
      match parseRequest fuel resp with
      | Ret (respMsg, None) => Some respMsg
      | _ => None
      end
  | _ => None
  end.

(** The decoded replies of the successive exchanges, one per question. *)
Fixpoint round_trips (fuel : nat) (upstream : nat -> list Z -> exchange)
    (header : Header) (k : nat) (pending : list Question)
  : list (option Message) :=
  match pending with
  | [] => []
  | question :: pending =>
      round_trip fuel upstream header k question ::
      round_trips fuel upstream header (S k) pending
  end.

(** The 2048-byte buffer of handleConnection once conn.ReadFromUDP has put
    the datagram into it. *)
Definition received (datagram : list Z) : slice :=
  full (list_inserts 0 datagram (make 2048)).

(** ** A sample exchange *)

(** A query with OPCODE 1 and two questions, "a.b" and "c", announcing three
    authority and five additional records. *)
Definition sample_query : list Z :=
  [18; 52; 9; 0; 0; 2; 0; 0; 0; 3; 0; 5;
   1; 97; 1; 98; 0; 0; 1; 0; 1;
   1; 99; 0; 0; 1; 0; 1].

(** The upstream answers the first request with one record and the later
    ones with a record whose name is a pointer, counted twice. *)
Definition sample_upstream (k : nat) (out : list Z) : exchange :=
  match k with
  | O => Reply [18; 52; 129; 128; 0; 1; 0; 1; 0; 0; 0; 0;
                1; 97; 1; 98; 0; 0; 1; 0; 1;
                1; 97; 1; 98; 0; 0; 1; 0; 1; 0; 0; 0; 60; 0; 4; 1; 2; 3; 4]
  | _ => Reply [18; 52; 129; 128; 0; 1; 0; 2; 0; 0; 0; 0;
                1; 99; 0; 0; 1; 0; 1;
                192; 12; 0; 1; 0; 1; 0; 0; 0; 60; 0; 2; 7; 8]
  end.

(** Both the port argument and the dial succeed. *)
Definition sample_world : world :=
  {| inbound := inr sample_query; port_ok := true; dial_ok := true;
     upstream := sample_upstream |}.

(** What [sample_query] decodes to. *)
Definition sample_query_header : Header :=
  {| ID := 4660; QR := 0; OpCode := 1; AuthorativeAnswer := 0;
     Truncation := 0; RecursionDesired := 1; RecursionAvailable := 0;
     Reserved := 0; ResponseCode := 0; QuestionCount := 2;
     AnswerRecordCount := 0; AuthorativeRecordCount := 3;
     AdditionalRecordCount := 5 |}.

Definition sample_message : Message :=
  {| MHeader := sample_query_header;
     MQuestion := [ {| QName := "a.b"; QType := 1; QClass := 1 |};
                    {| QName := "c"; QType := 1; QClass := 1 |} ];
     MAnswer := []; Authority := 0; Additional := 0 |}.

(** The two requests written upstream, and the reply to the client. *)
Definition sample_trace : list (list Z) :=
  [ [18; 52; 9; 0; 0; 1; 0; 0; 0; 3; 0; 5; 1; 97; 1; 98; 0; 0; 1; 0; 1];
    [18; 52; 9; 0; 0; 1; 0; 0; 0; 3; 0; 5; 1; 99; 0; 0; 1; 0; 1] ].

Definition sample_reply : list Z :=
  [18; 52; 137; 4; 0; 2; 0; 3; 0; 3; 0; 5;
   1; 97; 1; 98; 0; 0; 1; 0; 1;
   1; 99; 0; 0; 1; 0; 1;
   1; 97; 1; 98; 0; 0; 1; 0; 1; 0; 0; 0; 60; 0; 4; 1; 2; 3; 4;
   1; 99; 0; 0; 1; 0; 1; 0; 0; 0; 60; 0; 2; 7; 8;
   1; 99; 0; 0; 1; 0; 1; 0; 0; 0; 60; 0; 2; 7; 8].

(** A query whose only question has, for a name, a pointer to itself. *)
Definition looping_query : list Z :=
  [0; 1; 1; 0; 0; 1; 0; 0; 0; 0; 0; 0; 192; 12; 0; 1; 0; 1].

Definition looping_world : world :=
  {| inbound := inr looping_query; port_ok := true; dial_ok := true;
     upstream := fun _ _ => ReadError "timeout"%string |}.

(** An upstream that answers [sample_query] with a bare header announcing
    one question. *)
Definition truncating_world : world :=
  {| inbound := inr sample_query; port_ok := true; dial_ok := true;
     upstream := fun _ _ =>
       Reply [18; 52; 129; 128; 0; 1; 0; 0; 0; 0; 0; 0] |}.

(** ** Headers compared

    [h'] has the identifier and the flags of [h] and the two counts the
    resolver never sets. *)
Definition same_id_flags (h h' : Header) : Prop :=
  ID h' = ID h /\ OpCode h' = OpCode h /\
  AuthorativeAnswer h' = AuthorativeAnswer h /\
  Truncation h' = Truncation h /\
  RecursionDesired h' = RecursionDesired h /\
  RecursionAvailable h' = RecursionAvailable h /\
  Reserved h' = Reserved h /\
  AuthorativeRecordCount h' = AuthorativeRecordCount h /\
  AdditionalRecordCount h' = AdditionalRecordCount h.



(** The largest payload of a UDP datagram (over IPv4). *)
Definition udp_payload_max : Z := 65507.

(** A reply conn.WriteToUDP can send. *)
Definition emittable (reply : list Z) : Prop :=
  Z.of_nat (length reply) <= udp_payload_max.

(** ** Vocabulary of the further properties *)

(** A world in which the upstream never answers [sample_query]. *)
Definition failing_world : world :=
  {| inbound := inr sample_query; port_ok := true; dial_ok := true;
     upstream := fun _ _ => ReadError "timeout"%string |}.

(** [settles f]: from some fuel on, [f] gives one and the same result, a
    return or a panic. *)
Definition settles {A : Type} (f : nat -> outcome A) : Prop :=
  exists fuel r, r <> Diverge /\
    forall fuel', (fuel <= fuel')%nat -> f fuel' = r.

(** No byte of the label is a dot. *)
Fixpoint dot_free (l : string) : bool :=
  match l with
  | EmptyString => true
  | String c r => negb (Ascii.eqb c dot) && dot_free r
  end.

(** A world in which the upstream answers [sample_query] with two bytes. *)
Definition curt_world : world :=
  {| inbound := inr sample_query; port_ok := true; dial_ok := true;
     upstream := fun _ _ => Reply [18; 52] |}.

(** [cursor_after buf k s]: parseRequest stands at offset [s] when it has
    decoded [k] questions. *)
Inductive cursor_after (buf : slice) : nat -> Z -> Prop :=
| cursor_first : cursor_after buf 0 12
| cursor_next k s fuel q j :
    cursor_after buf k s -> parseQuestion fuel buf s = Ret (q, j) ->
    cursor_after buf (S k) j.

(** The offsets at which parseRequest decodes a name: where each of the
    QDCOUNT questions starts and, if ANCOUNT is not zero, where the
    questions end. *)
Definition decodes_name_at (buf : slice) (s : Z) : Prop :=
  exists h k,
    parseHeader buf = Ret h /\ cursor_after buf k s /\
    ((k < Z.to_nat (QuestionCount h))%nat \/
     (k = Z.to_nat (QuestionCount h) /\ 0 < AnswerRecordCount h)).

(** A record whose name is a compression pointer to [offset]: the two
    pointer bytes, then the fixed fields and RDATA as Answer.ToBytes writes
    them. *)
Definition pointer_answer_bytes (offset : Z) (a : Answer) : list Z :=
  [192 + offset / 256; offset mod 256] ++ be16 (AType a) ++ be16 (AClass a) ++
  be32 (TTL a) ++ be16 (RDLength a) ++ RData a.

(** * Properties *)

(** ** Big-endian fields *)

Lemma byte_small n : is_byte n -> byte n = n.
Proof. unfold is_byte, byte. intros H. apply Z.mod_small. exact H. Qed.

Lemma uint16_small n : is_uint16 n -> uint16 n = n.
Proof. unfold is_uint16, uint16. intros H. apply Z.mod_small. exact H. Qed.

Lemma testbit_byte a i : Z.testbit (byte a) i = (i <? 8) && Z.testbit a i.
Proof. apply (Z.testbit_mod_pow2 a 8 i). lia. Qed.

Lemma testbit_uint16 a i : Z.testbit (uint16 a) i = (i <? 16) && Z.testbit a i.
Proof. apply (Z.testbit_mod_pow2 a 16 i). lia. Qed.

Lemma testbit_uint32 a i : Z.testbit (uint32 a) i = (i <? 32) && Z.testbit a i.
Proof. apply (Z.testbit_mod_pow2 a 32 i). lia. Qed.

Lemma testbit_above (v k n : Z) :
  0 <= v < 2 ^ k -> 0 <= k <= n -> Z.testbit v n = false.
Proof.
  intros Hv Hk.
  destruct (Z.eq_dec v 0) as [-> | Hne]; [apply Z.bits_0 |].
  apply Z.bits_above_log2; [lia |].
  apply Z.log2_lt_pow2; [lia |].
  apply Z.lt_le_trans with (2 ^ k); [lia |].
  apply Z.pow_le_mono_r; lia.
Qed.

(** Decides the comparisons of a bit index, drops the bits at negative
    positions and above the width of [v]. *)
Ltac bit_cases v w :=
  repeat match goal with
    | |- context [Z.testbit _ ?m] =>
        lazymatch m with
        | context [Z.sub] => rewrite (Z.testbit_neg_r _ m) by lia
        end
    | |- context [?n <? ?k] => destruct (Z.ltb_spec n k); try lia
    end;
  rewrite ?Z.shiftr_spec by lia;
  rewrite ?andb_false_r, ?andb_true_l, ?andb_false_l,
    ?orb_false_r, ?orb_false_l;
  try reflexivity;
  try (f_equal; lia);
  try (symmetry; apply testbit_above with w; lia).

Lemma Uint16_be16 v rest : is_uint16 v -> Uint16 (be16 v ++ rest) = Ret v.
Proof.
  unfold is_uint16. intros Hv. simpl. f_equal.
  apply Z.bits_inj'. intros n Hn.
  rewrite Z.lor_spec, testbit_uint16, Z.shiftl_spec, !testbit_byte by lia.
  destruct (Z.ltb_spec n 8); bit_cases v 16.
Qed.

Lemma Uint32_be32 v rest : is_uint32 v -> Uint32 (be32 v ++ rest) = Ret v.
Proof.
  unfold is_uint32. intros Hv. simpl. f_equal.
  apply Z.bits_inj'. intros n Hn.
  rewrite !Z.lor_spec, !testbit_uint32, !Z.shiftl_spec, !testbit_byte by lia.
  destruct (Z.ltb_spec n 8); [| destruct (Z.ltb_spec n 16);
    [| destruct (Z.ltb_spec n 24)]]; bit_cases v 32.
Qed.

(** Two bytes read as a big-endian number. *)
Lemma be16_value b0 b1 :
  is_byte b0 -> is_byte b1 ->
  Z.lor b1 (uint16 (Z.shiftl b0 8)) = b0 * 256 + b1.
Proof.
  unfold is_byte, uint16. intros Hb0 Hb1.
  rewrite Z.shiftl_mul_pow2 by lia. change (2 ^ 8) with 256.
  rewrite (Z.mod_small (b0 * 256)) by lia.
  assert (Hdisj : Z.land b1 (b0 * 256) = 0).
  { apply Z.bits_inj'. intros n Hn.
    rewrite Z.land_spec, Z.bits_0.
    destruct (Z.ltb_spec n 8).
    - change 256 with (2 ^ 8). rewrite Z.mul_pow2_bits_low by lia.
      apply andb_false_r.
    - rewrite (testbit_above b1 8 n) by lia. reflexivity. }
  rewrite <- Z.lxor_lor, <- Z.add_nocarry_lxor by exact Hdisj. lia.
Qed.

(** ** The header codec *)

Lemma Header_ToBytes_eq h : Header_ToBytes h = Ret (header_bytes h).
Proof. reflexivity. Qed.

Lemma header_bytes_length h : length (header_bytes h) = 12%nat.
Proof. reflexivity. Qed.

Lemma lt2_cases x : 0 <= x < 2 -> x = 0 \/ x = 1.
Proof. lia. Qed.

Lemma lt8_cases x :
  0 <= x < 8 ->
  x = 0 \/ x = 1 \/ x = 2 \/ x = 3 \/ x = 4 \/ x = 5 \/ x = 6 \/ x = 7.
Proof. lia. Qed.

Lemma lt16_cases x :
  0 <= x < 16 ->
  x = 0 \/ x = 1 \/ x = 2 \/ x = 3 \/ x = 4 \/ x = 5 \/ x = 6 \/ x = 7 \/
  x = 8 \/ x = 9 \/ x = 10 \/ x = 11 \/ x = 12 \/ x = 13 \/ x = 14 \/ x = 15.
Proof. lia. Qed.

Ltac split_cases H := repeat (destruct H as [-> | H]); [.. | subst].

(** Byte 2 unpacks into the five fields it was packed from. *)
Lemma unpack2 qr op aa tc rd :
  0 <= qr < 2 -> 0 <= op < 16 -> 0 <= aa < 2 -> 0 <= tc < 2 -> 0 <= rd < 2 ->
  let b :=
    Z.lor (Z.lor (Z.lor (Z.lor (shl8 qr 7) (shl8 op 3)) (shl8 aa 2)) (shl8 tc 1)) rd in
  Z.shiftr b 7 = qr /\ Z.land (Z.shiftr b 3) 15 = op /\
  Z.land (Z.shiftr b 2) 1 = aa /\ Z.land (Z.shiftr b 1) 1 = tc /\
  Z.land b 1 = rd /\ is_byte b.
Proof.
  intros Hqr Hop Haa Htc Hrd.
  apply lt2_cases in Hqr, Haa, Htc, Hrd. apply lt16_cases in Hop.
  split_cases Hqr; split_cases Haa; split_cases Htc; split_cases Hrd;
    split_cases Hop; vm_compute; intuition congruence.
Qed.

(** Byte 3 unpacks into the three fields it was packed from. *)
Lemma unpack3 ra z rc :
  0 <= ra < 2 -> 0 <= z < 8 -> 0 <= rc < 16 ->
  let b := Z.lor (Z.lor (shl8 ra 7) (shl8 z 4)) rc in
  Z.shiftr b 7 = ra /\ Z.land (Z.shiftr b 4) 7 = z /\ Z.land b 15 = rc /\
  is_byte b.
Proof.
  intros Hra Hz Hrc.
  apply lt2_cases in Hra. apply lt8_cases in Hz. apply lt16_cases in Hrc.
  split_cases Hra; split_cases Hz; split_cases Hrc;
    vm_compute; intuition congruence.
Qed.

(** parseHeader on a buffer given by its first twelve bytes. *)
Lemma parseHeader_bytes a0 a1 b2 b3 c0 c1 d0 d1 e0 e1 f0 f1 :
  parseHeader (full [a0; a1; b2; b3; c0; c1; d0; d1; e0; e1; f0; f1]) =
  let* id := Uint16 [a0; a1] in
  let* qd := Uint16 [c0; c1] in
  let* an := Uint16 [d0; d1] in
  let* ns := Uint16 [e0; e1] in
  let* ar := Uint16 [f0; f1] in
  Ret {| ID := id; QR := Z.shiftr b2 7; OpCode := Z.land (Z.shiftr b2 3) 15;
         AuthorativeAnswer := Z.land (Z.shiftr b2 2) 1;
         Truncation := Z.land (Z.shiftr b2 1) 1;
         RecursionDesired := Z.land b2 1;
         RecursionAvailable := Z.shiftr b3 7;
         Reserved := Z.land (Z.shiftr b3 4) 7;
         ResponseCode := Z.land b3 15;
         QuestionCount := qd; AnswerRecordCount := an;
         AuthorativeRecordCount := ns; AdditionalRecordCount := ar |}.
Proof. reflexivity. Qed.

Lemma Uint16_pair v :
  is_uint16 v -> Uint16 [byte (Z.shiftr v 8); byte v] = Ret v.
Proof. apply (Uint16_be16 v []). Qed.

Lemma parseHeader_header_bytes h :
  wf_Header h -> parseHeader (full (header_bytes h)) = Ret h.
Proof.
  intros (Hid & Hqr & Hop & Haa & Htc & Hrd & Hra & Hz & Hrc & Hqd & Han & Hns & Har).
  unfold header_bytes, be16. cbn [app].
  rewrite parseHeader_bytes.
  rewrite (uint16_small (ID h)) by assumption.
  rewrite !Uint16_pair by assumption.
  cbn [bind]. unfold flags2, flags3.
  destruct (unpack2 _ _ _ _ _ Hqr Hop Haa Htc Hrd) as (-> & -> & -> & -> & -> & _).
  destruct (unpack3 _ _ _ Hra Hz Hrc) as (-> & -> & -> & _).
  destruct h; reflexivity.
Qed.

(** ** Buffer writes at the end of a written prefix *)

Lemma list_inserts_0 (k l : list Z) :
  list_inserts 0 k l = take (length l) k ++ drop (length k) l.
Proof.
  revert l. induction k as [| y k IH]; intros l.
  - simpl. rewrite take_nil, drop_0. reflexivity.
  - destruct l as [| x l]; simpl.
    + rewrite list_inserts_nil. reflexivity.
    + rewrite list_inserts_cons. simpl. rewrite IH. reflexivity.
Qed.

Lemma store_app pre x rest i v :
  i = Z.of_nat (length pre) ->
  store (pre ++ x :: rest) i v = Ret (pre ++ v :: rest).
Proof.
  intros ->. unfold store.
  rewrite length_app. simpl length.
  replace ((0 <=? Z.of_nat (length pre)) &&
           (Z.of_nat (length pre) <? Z.of_nat (length pre + S (length rest))))
    with true by (symmetry; apply andb_true_intro; split;
                  [apply Z.leb_le | apply Z.ltb_lt]; lia).
  rewrite Nat2Z.id.
  rewrite (insert_app_r_alt pre) by lia.
  rewrite Nat.sub_diag. reflexivity.
Qed.

Lemma copy_from_app pre rest i src :
  i = Z.of_nat (length pre) ->
  (length src <= length rest)%nat ->
  copy_from (pre ++ rest) i src = Ret (pre ++ src ++ drop (length src) rest).
Proof.
  intros -> Hlen. unfold copy_from.
  rewrite length_app.
  replace ((0 <=? Z.of_nat (length pre)) &&
           (Z.of_nat (length pre) <=? Z.of_nat (length pre + length rest)))
    with true by (symmetry; apply andb_true_intro; split; apply Z.leb_le; lia).
  rewrite Nat2Z.id.
  rewrite <- (Nat.add_0_r (length pre)), list_inserts_app_r, list_inserts_0.
  rewrite take_ge by lia. reflexivity.
Qed.

Lemma PutUint16_app pre x y rest i j v :
  i = Z.of_nat (length pre) -> j = i + 2 ->
  PutUint16 (pre ++ x :: y :: rest) i j v = Ret (pre ++ be16 v ++ rest).
Proof.
  intros -> ->. unfold PutUint16.
  rewrite length_app. simpl length.
  replace ((0 <=? Z.of_nat (length pre)) &&
           (Z.of_nat (length pre) <=? Z.of_nat (length pre) + 2) &&
           (Z.of_nat (length pre) + 2 <=?
              Z.of_nat (length pre + S (S (length rest)))))
    with true by (symmetry; repeat (apply andb_true_intro; split);
                  apply Z.leb_le; lia).
  replace (2 <=? Z.of_nat (length pre) + 2 - Z.of_nat (length pre)) with true
    by (symmetry; apply Z.leb_le; lia).
  replace (Z.to_nat (Z.of_nat (length pre) + 1)) with (length pre + 1)%nat by lia.
  rewrite Nat2Z.id.
  rewrite (insert_app_r pre _ 1). simpl.
  rewrite (insert_app_r_alt pre) by lia.
  rewrite Nat.sub_diag. reflexivity.
Qed.

Lemma PutUint32_app pre x0 x1 x2 x3 rest i j v :
  i = Z.of_nat (length pre) -> j = i + 4 ->
  PutUint32 (pre ++ x0 :: x1 :: x2 :: x3 :: rest) i j v =
  Ret (pre ++ be32 v ++ rest).
Proof.
  intros -> ->. unfold PutUint32.
  rewrite length_app. simpl length.
  replace ((0 <=? Z.of_nat (length pre)) &&
           (Z.of_nat (length pre) <=? Z.of_nat (length pre) + 4) &&
           (Z.of_nat (length pre) + 4 <=?
              Z.of_nat (length pre + S (S (S (S (length rest)))))))
    with true by (symmetry; repeat (apply andb_true_intro; split);
                  apply Z.leb_le; lia).
  replace (4 <=? Z.of_nat (length pre) + 4 - Z.of_nat (length pre)) with true
    by (symmetry; apply Z.leb_le; lia).
  replace (Z.to_nat (Z.of_nat (length pre) + 1)) with (length pre + 1)%nat by lia.
  replace (Z.to_nat (Z.of_nat (length pre) + 2)) with (length pre + 2)%nat by lia.
  replace (Z.to_nat (Z.of_nat (length pre) + 3)) with (length pre + 3)%nat by lia.
  rewrite Nat2Z.id.
  rewrite (insert_app_r pre _ 3), (insert_app_r pre _ 2), (insert_app_r pre _ 1).
  simpl.
  rewrite (insert_app_r_alt pre) by lia.
  rewrite Nat.sub_diag. reflexivity.
Qed.

(** ** The name encoder in closed form *)

Lemma length_bytes_of_string s :
  length (bytes_of_string s) = String.length s.
Proof. induction s; simpl; congruence. Qed.

Lemma length_encode_label l :
  length (encode_label l) = S (String.length l).
Proof. unfold encode_label. simpl. rewrite length_bytes_of_string. reflexivity. Qed.

Lemma encode_labels_cons l ls :
  encode_labels (l :: ls) = encode_label l ++ encode_labels ls.
Proof. reflexivity. Qed.

Lemma labels_size_from labels a :
  fold_left (fun bufsize label => bufsize + (strlen label + 1)) labels a =
  a + Z.of_nat (length (encode_labels labels)).
Proof.
  revert a. induction labels as [| l ls IH]; intros a; cbn [fold_left].
  - simpl. lia.
  - rewrite IH, encode_labels_cons, length_app, length_encode_label.
    unfold strlen. lia.
Qed.

Lemma labels_size_eq labels :
  labels_size labels = Z.of_nat (length (encode_labels labels)).
Proof. unfold labels_size. rewrite labels_size_from. lia. Qed.

(** The second loop writes the encoded labels right after what is already
    in the buffer, provided the room left suffices. *)
Lemma put_labels_from labels : forall pre rest i,
  i = Z.of_nat (length pre) ->
  (length (encode_labels labels) <= length rest)%nat ->
  fold_left put_label labels (Ret (pre ++ rest, i)) =
  Ret (pre ++ encode_labels labels ++
         drop (length (encode_labels labels)) rest,
       i + Z.of_nat (length (encode_labels labels))).
Proof.
  induction labels as [| l ls IH]; intros pre rest i Hi Hroom.
  - simpl. rewrite drop_0. f_equal. f_equal. lia.
  - rewrite encode_labels_cons, length_app, length_encode_label in Hroom.
    destruct rest as [| x rest]; [simpl in Hroom; lia |].
    cbn [fold_left]. unfold put_label at 2. cbn [bind].
    rewrite (store_app pre x rest i) by exact Hi. cbn [bind].
    change (pre ++ byte (strlen l) :: rest)
      with (pre ++ [byte (strlen l)] ++ rest).
    rewrite (app_assoc pre).
    rewrite (copy_from_app (pre ++ [byte (strlen l)]) rest)
      by (rewrite ?length_app, ?length_bytes_of_string; simpl in *; lia).
    cbn [bind].
    replace ((pre ++ [byte (strlen l)]) ++
             bytes_of_string l ++ drop (length (bytes_of_string l)) rest)
      with ((pre ++ encode_label l) ++ drop (String.length l) rest)
      by (unfold encode_label; rewrite length_bytes_of_string, <- !app_assoc;
          reflexivity).
    rewrite IH.
    + rewrite encode_labels_cons, length_app, length_encode_label.
      rewrite drop_drop. simpl drop.
      rewrite <- !app_assoc. f_equal. f_equal. unfold strlen. lia.
    + rewrite length_app, length_encode_label. unfold strlen. lia.
    + rewrite length_drop. simpl in Hroom. lia.
Qed.

Lemma put_labels_make labels extra :
  put_labels (make (labels_size labels + Z.of_nat extra)) labels =
  Ret (encode_labels labels ++ replicate extra 0,
       Z.of_nat (length (encode_labels labels))).
Proof.
  unfold put_labels, make. rewrite labels_size_eq.
  pose proof (put_labels_from labels []
    (replicate (Z.to_nat (Z.of_nat (length (encode_labels labels)) +
                          Z.of_nat extra)) 0) 0 eq_refl) as H.
  cbn [app] in H. rewrite H by (rewrite length_replicate; lia).
  rewrite drop_replicate. cbn [Z.add]. f_equal. f_equal. f_equal. f_equal. lia.
Qed.

(** Question.ToBytes never panics, and this is what it returns. *)
Lemma Question_ToBytes_eq q : Question_ToBytes q = Ret (question_bytes q).
Proof.
  unfold Question_ToBytes, question_bytes.
  rewrite (put_labels_make _ 5). cbn [bind replicate].
  set (enc := encode_labels (Split (QName q))).
  rewrite (store_app enc) by reflexivity. cbn [bind].
  change (enc ++ 0 :: 0 :: 0 :: 0 :: [0]) with (enc ++ [0] ++ 0 :: 0 :: 0 :: [0]).
  rewrite (app_assoc enc).
  rewrite (PutUint16_app (enc ++ [0])) by (rewrite ?length_app; simpl; lia).
  cbn [bind].
  change (be16 (QType q) ++ 0 :: [0]) with (be16 (QType q) ++ 0 :: 0 :: []).
  rewrite (app_assoc (enc ++ [0])).
  rewrite (PutUint16_app ((enc ++ [0]) ++ be16 (QType q)))
    by (rewrite ?length_app; simpl; lia).
  cbn [bind]. rewrite <- !app_assoc. reflexivity.
Qed.

(** Answer.ToBytes never panics, and this is what it returns. *)
Lemma Answer_ToBytes_eq a : Answer_ToBytes a = Ret (answer_bytes a).
Proof.
  unfold Answer_ToBytes, answer_bytes.
  replace (Z.of_nat (length (RData a)) + 11)
    with (Z.of_nat (11 + length (RData a))) by lia.
  rewrite (put_labels_make _ (11 + length (RData a))).
  cbn [bind replicate Nat.add].
  set (enc := encode_labels (Split (AName a))).
  set (room := replicate (length (RData a)) 0).
  rewrite (store_app enc) by reflexivity. cbn [bind].
  change (enc ++ 0 :: ?t) with (enc ++ [0] ++ t). rewrite (app_assoc enc).
  rewrite (PutUint16_app (enc ++ [0])) by (rewrite ?length_app; simpl; lia).
  cbn [bind]. rewrite (app_assoc (enc ++ [0])).
  rewrite (PutUint16_app ((enc ++ [0]) ++ be16 (AType a)))
    by (rewrite ?length_app; simpl; lia).
  cbn [bind]. rewrite (app_assoc ((enc ++ [0]) ++ be16 (AType a))).
  rewrite (PutUint32_app (((enc ++ [0]) ++ be16 (AType a)) ++ be16 (AClass a)))
    by (rewrite ?length_app; simpl; lia).
  cbn [bind].
  rewrite (app_assoc (((enc ++ [0]) ++ be16 (AType a)) ++ be16 (AClass a))).
  rewrite (PutUint16_app
             ((((enc ++ [0]) ++ be16 (AType a)) ++ be16 (AClass a)) ++
              be32 (TTL a)))
    by (rewrite ?length_app; simpl; lia).
  cbn [bind].
  rewrite (app_assoc ((((enc ++ [0]) ++ be16 (AType a)) ++ be16 (AClass a)) ++
                      be32 (TTL a))).
  rewrite copy_from_app
    by (subst room; rewrite ?length_app, ?length_replicate; simpl; lia).
  cbn [bind]. subst room.
  rewrite drop_replicate, Nat.sub_diag. cbn [replicate].
  rewrite app_nil_r, <- !app_assoc. reflexivity.
Qed.

(** ** Reads from a buffer without spare capacity *)

Lemma index_full_app pre b post i :
  i = Z.of_nat (length pre) -> index (full (pre ++ b :: post)) i = Ret b.
Proof.
  intros ->. unfold index, full. cbn [arr len].
  rewrite length_app. simpl length.
  replace ((0 <=? Z.of_nat (length pre)) &&
           (Z.of_nat (length pre) <? Z.of_nat (length pre + S (length post))))
    with true by (symmetry; apply andb_true_intro; split;
                  [apply Z.leb_le | apply Z.ltb_lt]; lia).
  rewrite Nat2Z.id, list_lookup_middle by reflexivity. reflexivity.
Qed.

Lemma subslice_full_app pre mid post lo hi :
  lo = Z.of_nat (length pre) -> hi = lo + Z.of_nat (length mid) ->
  subslice (full (pre ++ mid ++ post)) lo hi = Ret mid.
Proof.
  intros -> ->. unfold subslice, full, cap. cbn [arr len].
  rewrite !length_app.
  replace ((0 <=? Z.of_nat (length pre)) &&
           (Z.of_nat (length pre) <=?
              Z.of_nat (length pre) + Z.of_nat (length mid)) &&
           (Z.of_nat (length pre) + Z.of_nat (length mid) <=?
              Z.of_nat (length pre + (length mid + length post))))
    with true by (symmetry; repeat (apply andb_true_intro; split);
                  apply Z.leb_le; lia).
  rewrite Nat2Z.id, drop_app_length.
  replace (Z.to_nat (Z.of_nat (length pre) + Z.of_nat (length mid) -
                     Z.of_nat (length pre))) with (length mid) by lia.
  rewrite take_app_length. reflexivity.
Qed.

(** ** Strings *)

Lemma ascii_of_byte_of_ascii c : ascii_of_byte (byte_of_ascii c) = c.
Proof.
  unfold ascii_of_byte, byte_of_ascii. rewrite N2Z.id. apply ascii_N_embedding.
Qed.

Lemma string_of_bytes_of_string s : string_of_bytes (bytes_of_string s) = s.
Proof.
  induction s as [| c s IH]; simpl; [reflexivity |].
  rewrite ascii_of_byte_of_ascii, IH. reflexivity.
Qed.

Lemma Split_nonempty s : Split s <> [].
Proof.
  destruct s as [| c s]; simpl; [discriminate |].
  destruct (Ascii.eqb c dot); [discriminate |].
  destruct (Split s); discriminate.
Qed.

(** strings.Join undoes strings.Split. *)
Lemma Join_Split s : Join (Split s) = s.
Proof.
  unfold Join. induction s as [| c s IH]; simpl; [reflexivity |].
  destruct (Ascii.eqb_spec c dot) as [-> | Hne].
  - pose proof (Split_nonempty s) as Hs.
    destruct (Split s) as [| l ls]; [contradiction |].
    simpl. simpl in IH. rewrite IH. reflexivity.
  - pose proof (Split_nonempty s) as Hs.
    destruct (Split s) as [| l ls]; [contradiction |].
    simpl in *. destruct ls; simpl; rewrite <- IH; reflexivity.
Qed.

(** ** Decoding an encoded name *)

Lemma parseLabels_loop_encoded ls : forall fuel pre post i acc,
  Forall plain_label ls ->
  (length ls < fuel)%nat ->
  i = Z.of_nat (length pre) ->
  parseLabels_loop fuel (full (pre ++ encode_labels ls ++ 0 :: post)) i acc =
  Ret (acc ++ ls, i + Z.of_nat (length (encode_labels ls)) + 1).
Proof.
  induction ls as [| l ls IH]; intros fuel pre post i acc Hls Hfuel Hi.
  - destruct fuel as [| fuel]; [simpl in Hfuel; lia |].
    cbn [parseLabels_loop encode_labels map concat app].
    rewrite (index_full_app pre 0 post i Hi). cbn [bind].
    rewrite Z.eqb_refl, app_nil_r. f_equal. f_equal. simpl. lia.
  - destruct fuel as [| fuel]; [simpl in Hfuel; lia |].
    apply Forall_cons in Hls as [Hl Hls]. unfold plain_label in Hl.
    rewrite encode_labels_cons. unfold encode_label.
    cbn [parseLabels_loop].
    rewrite <- !app_assoc. cbn [app].
    rewrite (index_full_app pre _ _ i Hi). cbn [bind].
    rewrite (byte_small (strlen l)) by (unfold is_byte; lia).
    destruct (Z.eqb_spec (strlen l) 0) as [E | _]; [lia |].
    destruct (Z.leb_spec 192 (strlen l)) as [E | _]; [lia |].
    change (pre ++ strlen l :: ?t) with (pre ++ [strlen l] ++ t).
    rewrite (app_assoc pre).
    rewrite (subslice_full_app (pre ++ [strlen l]) (bytes_of_string l))
      by (rewrite ?length_app, ?length_bytes_of_string; unfold strlen; simpl; lia).
    cbn [bind]. rewrite string_of_bytes_of_string.
    rewrite (app_assoc (pre ++ [strlen l])).
    rewrite (IH fuel ((pre ++ [strlen l]) ++ bytes_of_string l) post)
      by (try assumption; rewrite ?length_app, ?length_bytes_of_string;
          unfold strlen; simpl in *; lia).
    rewrite <- app_assoc. f_equal. f_equal.
    simpl length. rewrite length_app, length_bytes_of_string.
    unfold strlen. lia.
Qed.

Lemma parseLabels_encoded ls fuel post :
  Forall plain_label ls -> (length ls < fuel)%nat ->
  parseLabels fuel (full (encode_labels ls ++ 0 :: post)) 0 =
  Ret (ls, Z.of_nat (length (encode_labels ls)) + 1).
Proof.
  intros Hls Hfuel. unfold parseLabels.
  apply (parseLabels_loop_encoded ls fuel [] post 0 []); auto.
Qed.

(** ** Well-formed records *)

Lemma wf_name_plain name : wf_name name -> Forall plain_label (Split name).
Proof.
  unfold wf_name. intros H. eapply Forall_impl; [exact H |].
  intros l Hl. unfold plain_label. simpl in Hl. lia.
Qed.

Lemma Uint16_at_full_app pre v post lo hi :
  is_uint16 v -> lo = Z.of_nat (length pre) -> hi = lo + 2 ->
  Uint16_at (full (pre ++ be16 v ++ post)) lo hi = Ret v.
Proof.
  intros Hv Hlo Hhi. unfold Uint16_at.
  rewrite (subslice_full_app pre (be16 v) post lo hi Hlo) by (simpl; lia).
  cbn [bind]. apply (Uint16_be16 v []). exact Hv.
Qed.

Lemma Uint32_at_full_app pre v post lo hi :
  is_uint32 v -> lo = Z.of_nat (length pre) -> hi = lo + 4 ->
  Uint32_at (full (pre ++ be32 v ++ post)) lo hi = Ret v.
Proof.
  intros Hv Hlo Hhi. unfold Uint32_at.
  rewrite (subslice_full_app pre (be32 v) post lo hi Hlo) by (simpl; lia).
  cbn [bind]. apply (Uint32_be32 v []). exact Hv.
Qed.

Lemma parseQuestion_question_bytes q fuel :
  wf_Question q -> (length (Split (QName q)) < fuel)%nat ->
  parseQuestion fuel (full (question_bytes q)) 0 =
  Ret (q, Z.of_nat (length (question_bytes q))).
Proof.
  intros (Hname & Hty & Hcl) Hfuel.
  unfold parseQuestion, question_bytes.
  cbn [app].
  rewrite parseLabels_encoded by auto using wf_name_plain.
  cbn [bind]. set (enc := encode_labels (Split (QName q))).
  change (enc ++ 0 :: ?t) with (enc ++ [0] ++ t). rewrite (app_assoc enc).
  rewrite (Uint16_at_full_app (enc ++ [0]))
    by (try assumption; rewrite ?length_app; simpl; lia).
  cbn [bind]. rewrite (app_assoc (enc ++ [0])).
  rewrite <- (app_nil_r (be16 (QClass q))).
  rewrite (Uint16_at_full_app ((enc ++ [0]) ++ be16 (QType q)))
    by (try assumption; rewrite ?length_app; simpl; lia).
  cbn [bind]. rewrite Join_Split.
  f_equal. f_equal.
  - destruct q; reflexivity.
  - rewrite !length_app. simpl. lia.
Qed.

Lemma parseAnswer_answer_bytes a fuel :
  wf_Answer a -> (length (Split (AName a)) < fuel)%nat ->
  parseAnswer fuel (full (answer_bytes a)) 0 = Ret a.
Proof.
  intros (Hname & Hty & Hcl & Httl & Hrl & Hrd) Hfuel.
  unfold parseAnswer, answer_bytes.
  cbn [app].
  rewrite parseLabels_encoded by auto using wf_name_plain.
  cbn [bind]. set (enc := encode_labels (Split (AName a))).
  change (enc ++ 0 :: ?t) with (enc ++ [0] ++ t). rewrite (app_assoc enc).
  set (p1 := enc ++ [0]).
  assert (L1 : Z.of_nat (length p1) = Z.of_nat (length enc) + 1)
    by (subst p1; rewrite length_app; simpl; lia).
  rewrite (Uint16_at_full_app p1) by (try assumption; lia).
  cbn [bind]. rewrite (app_assoc p1).
  set (p2 := p1 ++ be16 (AType a)).
  assert (L2 : Z.of_nat (length p2) = Z.of_nat (length enc) + 3)
    by (subst p2; rewrite length_app; simpl; lia).
  rewrite (Uint16_at_full_app p2) by (try assumption; lia).
  cbn [bind]. rewrite (app_assoc p2).
  set (p3 := p2 ++ be16 (AClass a)).
  assert (L3 : Z.of_nat (length p3) = Z.of_nat (length enc) + 5)
    by (subst p3; rewrite length_app; simpl; lia).
  rewrite (Uint32_at_full_app p3) by (try assumption; lia).
  cbn [bind]. rewrite (app_assoc p3).
  set (p4 := p3 ++ be32 (TTL a)).
  assert (L4 : Z.of_nat (length p4) = Z.of_nat (length enc) + 9)
    by (subst p4; rewrite length_app; simpl; lia).
  rewrite (Uint16_at_full_app p4) by (try assumption; lia).
  cbn [bind]. rewrite (app_assoc p4).
  rewrite <- (app_nil_r (RData a)) at 1.
  rewrite (subslice_full_app (p4 ++ be16 (RDLength a)) (RData a) [])
    by (rewrite ?length_app; simpl; lia).
  cbn [bind]. rewrite Join_Split. destruct a; reflexivity.
Qed.

(** C1.  Round trip: for a header whose fields fit their declared widths, a
    question and a resource record whose names split into labels of 1 to 63
    bytes, whose integer fields fit their types and, for the record, whose
    RDLENGTH is the length of RDATA, each encoder returns a buffer from which
    the matching decoder, started at offset 0 with fuel for one round per
    label, reads the original value back (parseQuestion leaving the cursor at
    the end of the buffer). *)
Theorem codec_roundtrip (h : Header) (q : Question) (a : Answer)
    (fuel : nat) :
  wf_Header h -> wf_Question q -> wf_Answer a ->
  (length (Split (QName q)) < fuel)%nat ->
  (length (Split (AName a)) < fuel)%nat ->
  (exists b, Header_ToBytes h = Ret b /\ parseHeader (full b) = Ret h) /\
  (exists b, Question_ToBytes q = Ret b /\
             parseQuestion fuel (full b) 0 = Ret (q, Z.of_nat (length b))) /\
  (exists b, Answer_ToBytes a = Ret b /\ parseAnswer fuel (full b) 0 = Ret a).
Proof.
  intros Hh Hq Ha Hfq Hfa. split; [| split].
  - exists (header_bytes h). split.
    + apply Header_ToBytes_eq.
    + apply parseHeader_header_bytes, Hh.
  - exists (question_bytes q). split.
    + apply Question_ToBytes_eq.
    + apply parseQuestion_question_bytes; assumption.
  - exists (answer_bytes a). split.
    + apply Answer_ToBytes_eq.
    + apply parseAnswer_answer_bytes; assumption.
Qed.

Ltac solve_wf_name :=
  unfold wf_name; simpl;
  repeat (constructor; [unfold strlen; simpl; lia |]); constructor.

Lemma codec_roundtrip_witness :
  (exists b, Header_ToBytes sample_header = Ret b /\
             parseHeader (full b) = Ret sample_header) /\
  (exists b, Question_ToBytes sample_question = Ret b /\
             parseQuestion 3 (full b) 0 =
             Ret (sample_question, Z.of_nat (length b))) /\
  (exists b, Answer_ToBytes sample_answer = Ret b /\
             parseAnswer 3 (full b) 0 = Ret sample_answer).
Proof.
  apply (codec_roundtrip sample_header sample_question sample_answer 3).
  - unfold wf_Header, is_uint16. simpl. lia.
  - unfold wf_Question, is_uint16. simpl. split; [solve_wf_name | lia].
  - unfold wf_Answer, is_uint16, is_uint32. simpl.
    split; [solve_wf_name | lia].
  - simpl. lia.
  - simpl. lia.
Defined.

(** ** Fuel *)

(** A result reached with some fuel is reached with any larger fuel. *)
Lemma parseLabels_loop_mono fuel : forall buf i acc r fuel',
  parseLabels_loop fuel buf i acc = r -> r <> Diverge ->
  (fuel <= fuel')%nat ->
  parseLabels_loop fuel' buf i acc = r.
Proof.
  induction fuel as [| fuel IH]; intros buf i acc r fuel' Hr Hnd Hle.
  - simpl in Hr. congruence.
  - destruct fuel' as [| fuel']; [lia |].
    cbn [parseLabels_loop] in *.
    destruct (index buf i) as [b | |]; cbn [bind] in *; try exact Hr.
    destruct (b =? 0); [exact Hr |].
    destruct (192 <=? b).
    + destruct (Uint16_at buf i (i + 2)) as [w | |]; cbn [bind] in *;
        try exact Hr.
      destruct (parseLabels_loop fuel buf (Z.land w 16383) []) as [[ls j] | |]
        eqn:Hrec; cbn [bind] in Hr.
      * rewrite (IH buf _ [] (Ret (ls, j)) fuel' Hrec) by (congruence || lia).
        exact Hr.
      * rewrite (IH buf _ [] Panic fuel' Hrec) by (congruence || lia).
        exact Hr.
      * congruence.
    + destruct (subslice buf (i + 1) (i + 1 + b)) as [l | |]; cbn [bind] in *;
        try exact Hr.
      apply IH; [exact Hr | exact Hnd | lia].
Qed.

(** ** Compression pointers *)

(** The offset a pointer holds: the low 14 bits of its two bytes. *)
Lemma pointer_offset b0 b1 :
  192 <= b0 < 256 -> is_byte b1 ->
  Z.land (Z.lor b1 (uint16 (Z.shiftl b0 8))) 16383 = (b0 - 192) * 256 + b1.
Proof.
  intros Hb0 Hb1. rewrite be16_value by (unfold is_byte in *; lia || assumption).
  unfold is_byte in Hb1.
  change 16383 with (Z.ones 14). rewrite Z.land_ones by lia.
  change (2 ^ 14) with 16384.
  symmetry. apply (Z.mod_unique _ _ 3); lia.
Qed.

(** C2.  When the decoding loop, at cursor [i] with [acc] the labels read so
    far, meets a length byte [b0 >= 0xC0], it takes the low 14 bits of the
    two bytes at [i] as an absolute offset, appends the labels decoded there
    to [acc], and returns with the cursor at [i + 2], whatever cursor [j] the
    decoding of the pointed-to labels ended at; nothing after the pointer is
    read into the name. *)
Theorem pointer_ends_name (fuel fuel' : nat) (buf : slice) (i b0 b1 j : Z)
    (acc ls : list string) :
  index buf i = Ret b0 ->
  subslice buf i (i + 2) = Ret [b0; b1] ->
  192 <= b0 < 256 -> is_byte b1 ->
  parseLabels fuel buf ((b0 - 192) * 256 + b1) = Ret (ls, j) ->
  (fuel < fuel')%nat ->
  parseLabels_loop fuel' buf i acc = Ret (acc ++ ls, i + 2).
Proof.
  intros Hidx Hsub Hb0 Hb1 Hrec Hfuel.
  apply (parseLabels_loop_mono (S fuel)); [| congruence | lia].
  cbn [parseLabels_loop]. rewrite Hidx. cbn [bind].
  destruct (Z.eqb_spec b0 0) as [E | _]; [lia |].
  destruct (Z.leb_spec 192 b0) as [_ | E]; [| lia].
  unfold Uint16_at. rewrite Hsub. cbn [bind Uint16].
  rewrite pointer_offset by assumption.
  unfold parseLabels in Hrec. rewrite Hrec. reflexivity.
Qed.

Lemma pointer_ends_name_witness :
  parseLabels_loop 4 (full [1; 97; 1; 98; 0; 3; 119; 119; 119; 192; 0; 7; 7]) 9
    ["www"%string] = Ret (["www"; "a"; "b"]%string, 11).
Proof.
  apply (pointer_ends_name 3 4 _ 9 192 0 5 ["www"%string] ["a"; "b"]%string);
    try reflexivity; unfold is_byte; lia.
Defined.

(** The name "www" followed by a pointer to "example.com", stored at offset
    0, is read back whole. *)
Example pointer_to_suffix :
  parseQuestion 5
    (full ([7] ++ bytes_of_string "example" ++ [3] ++ bytes_of_string "com" ++
           [0] ++ [3] ++ bytes_of_string "www" ++ [192; 0] ++ [0; 1; 0; 1]))
    13 =
  Ret ({| QName := "www.example.com"; QType := 1; QClass := 1 |}, 23).
Proof. vm_compute. reflexivity. Qed.

(** ** Termination of the name decoder *)

(** A self-referential pointer: two bytes 0xC0 0x00 at offset 0. *)
Lemma self_pointer_loop fuel acc :
  parseLabels_loop fuel (full [192; 0]) 0 acc = Diverge.
Proof.
  revert acc. induction fuel as [| fuel IH]; intros acc; [reflexivity |].
  cbn [parseLabels_loop]. change (index (full [192; 0]) 0) with (Ret 192).
  cbn [bind]. change (192 =? 0) with false. change (192 <=? 192) with true.
  cbv iota. change (Uint16_at (full [192; 0]) 0 (0 + 2)) with (Ret 49152).
  cbn [bind]. change (Z.land 49152 16383) with 0.
  rewrite IH. reflexivity.
Qed.

(** The same pointer inside a request: the name of the question, at offset
    12, points to offset 12. *)
Lemma looping_query_loop fuel acc :
  parseLabels_loop fuel (received looping_query) 12 acc = Diverge.
Proof.
  revert acc. induction fuel as [| fuel IH]; intros acc; [reflexivity |].
  cbn [parseLabels_loop].
  replace (index (received looping_query) 12) with (Ret 192)
    by (vm_compute; reflexivity).
  cbn [bind]. change (192 =? 0) with false. change (192 <=? 192) with true.
  cbv iota.
  replace (Uint16_at (received looping_query) 12 (12 + 2)) with (Ret 49164)
    by (vm_compute; reflexivity).
  cbn [bind]. change (Z.land 49164 16383) with 12.
  rewrite IH. reflexivity.
Qed.

Lemma looping_query_request fuel :
  parseRequest fuel (received looping_query) = Diverge.
Proof.
  unfold parseRequest.
  replace (parseHeader (received looping_query))
    with (Ret {| ID := 1; QR := 0; OpCode := 0; AuthorativeAnswer := 0;
                 Truncation := 0; RecursionDesired := 1;
                 RecursionAvailable := 0; Reserved := 0; ResponseCode := 0;
                 QuestionCount := 1; AnswerRecordCount := 0;
                 AuthorativeRecordCount := 0; AdditionalRecordCount := 0 |})
    by (vm_compute; reflexivity).
  cbn [bind QuestionCount]. change (Z.to_nat 1) with 1%nat.
  cbn [parseQuestions]. unfold parseQuestion, parseLabels.
  rewrite looping_query_loop. reflexivity.
Qed.

(** C3, counterexample.  On the two-byte buffer 0xC0 0x00 the decoder started
    at offset 0 follows the pointer back to offset 0 for ever: no amount of
    fuel makes it return or fail.  The same holds for handleConnection on a
    request whose question name is a pointer to itself. *)
Lemma self_pointer_never_returns :
  ~ (exists fuel, parseLabels fuel (full [192; 0]) 0 <> Diverge) /\
  ~ (exists fuel, snd (handleConnection fuel looping_world) <> Diverge).
Proof.
  split; intros [fuel H]; apply H.
  - apply self_pointer_loop.
  - unfold handleConnection. cbv zeta.
    cbn [looping_world inbound]. fold (received looping_query).
    rewrite looping_query_request. reflexivity.
Qed.

Lemma index_Ret_range buf i b :
  index buf i = Ret b -> 0 <= i < Z.of_nat (len buf).
Proof.
  unfold index. destruct (Z.leb_spec 0 i), (Z.ltb_spec i (Z.of_nat (len buf)));
    simpl; try discriminate. lia.
Qed.

Lemma subslice_Ret_range buf lo hi l :
  subslice buf lo hi = Ret l -> 0 <= lo <= hi.
Proof.
  unfold subslice. destruct (Z.leb_spec 0 lo), (Z.leb_spec lo hi);
    simpl; try discriminate. lia.
Qed.

Lemma reaches_pointer_after buf s t :
  reaches_pointer buf s t ->
  forall fuel, Z.of_nat (len buf) - s <= Z.of_nat fuel ->
  pointer_after fuel buf s = Some t.
Proof.
  induction 1 as [s b w Hi Hb0 Hb Hw | s b l t Hi Hb0 Hb Hl Hr IH];
    intros fuel Hfuel; pose proof (index_Ret_range _ _ _ Hi) as Hs;
    (destruct fuel as [| fuel]; [lia |]); cbn [pointer_after]; rewrite Hi;
    (destruct (Z.eqb_spec b 0); [contradiction |]).
  - destruct (Z.leb_spec 192 b); [| lia]. rewrite Hw. reflexivity.
  - destruct (Z.leb_spec 192 b); [lia |]. rewrite Hl.
    apply subslice_Ret_range in Hl. apply IH. lia.
Qed.

Lemma index_not_Diverge buf i : index buf i <> Diverge.
Proof.
  unfold index. destruct (_ && _); [| discriminate].
  destruct (arr buf !! Z.to_nat i); discriminate.
Qed.

Lemma subslice_not_Diverge buf lo hi : subslice buf lo hi <> Diverge.
Proof. unfold subslice. destruct (_ && _); discriminate. Qed.

Lemma Uint16_at_not_Diverge buf lo hi : Uint16_at buf lo hi <> Diverge.
Proof.
  unfold Uint16_at. pose proof (subslice_not_Diverge buf lo hi) as H.
  destruct (subslice buf lo hi) as [[| b0 [| b1 l]] | |]; simpl;
    congruence.
Qed.

(** One call of parseLabels finishes as soon as the call it makes through
    the pointer it may reach does: the cursor moves forward by at least two
    bytes per round and stops at the end of the buffer. *)
Lemma loop_finishes_if_target_does buf (n : nat) : forall i,
  Z.of_nat (len buf) - i <= Z.of_nat n ->
  (forall t, reaches_pointer buf i t ->
     exists fuel, forall acc, parseLabels_loop fuel buf t acc <> Diverge) ->
  exists fuel, forall acc, parseLabels_loop fuel buf i acc <> Diverge.
Proof.
  induction n as [| n IH]; intros i Hn Htarget;
    destruct (index buf i) as [b | |] eqn:Hi;
    try (exists 1%nat; intros acc; cbn [parseLabels_loop]; rewrite Hi;
         discriminate);
    try (exfalso; exact (index_not_Diverge _ _ Hi));
    pose proof (index_Ret_range _ _ _ Hi) as Hrange; [lia |].
  destruct (Z.eqb_spec b 0) as [Hb0 | Hb0].
  { exists 1%nat. intros acc. cbn [parseLabels_loop]. rewrite Hi. cbn [bind].
    subst b. discriminate. }
  destruct (Z.leb_spec 192 b) as [Hb | Hb].
  - destruct (Uint16_at buf i (i + 2)) as [w | |] eqn:Hw.
    + destruct (Htarget _ (rp_pointer buf i b w Hi Hb0 Hb Hw)) as [fuel Hf].
      exists (S fuel). intros acc. cbn [parseLabels_loop]. rewrite Hi.
      cbn [bind]. destruct (Z.eqb_spec b 0); [contradiction |].
      destruct (Z.leb_spec 192 b); [| lia]. rewrite Hw. cbn [bind].
      specialize (Hf []).
      destruct (parseLabels_loop fuel buf (Z.land w 16383) []) as [[ls j] | |];
        cbn [bind]; congruence.
    + exists 1%nat. intros acc. cbn [parseLabels_loop]. rewrite Hi.
      cbn [bind]. destruct (Z.eqb_spec b 0); [contradiction |].
      destruct (Z.leb_spec 192 b); [| lia]. rewrite Hw. discriminate.
    + exfalso. exact (Uint16_at_not_Diverge _ _ _ Hw).
  - destruct (subslice buf (i + 1) (i + 1 + b)) as [l | |] eqn:Hl.
    + pose proof (subslice_Ret_range _ _ _ _ Hl) as Hlo.
      destruct (IH (i + (b + 1))) as [fuel Hf]; [lia | |].
      { intros t Ht. apply Htarget.
        exact (rp_label buf i b l t Hi Hb0 Hb Hl Ht). }
      exists (S fuel). intros acc. cbn [parseLabels_loop]. rewrite Hi.
      cbn [bind]. destruct (Z.eqb_spec b 0); [contradiction |].
      destruct (Z.leb_spec 192 b); [lia |]. rewrite Hl. cbn [bind].
      apply Hf.
    + exists 1%nat. intros acc. cbn [parseLabels_loop]. rewrite Hi.
      cbn [bind]. destruct (Z.eqb_spec b 0); [contradiction |].
      destruct (Z.leb_spec 192 b); [lia |]. rewrite Hl. discriminate.
    + exfalso. exact (subslice_not_Diverge _ _ _ Hl).
Qed.

Lemma pointer_after_reaches buf : forall fuel s t,
  pointer_after fuel buf s = Some t -> reaches_pointer buf s t.
Proof.
  induction fuel as [| fuel IH]; intros s t H; [discriminate |].
  cbn [pointer_after] in H.
  destruct (index buf s) as [b | |] eqn:Hi; try discriminate.
  destruct (Z.eqb_spec b 0) as [| Hb0]; [discriminate |].
  destruct (Z.leb_spec 192 b) as [Hb | Hb].
  - destruct (Uint16_at buf s (s + 2)) as [w | |] eqn:Hw; try discriminate.
    injection H as <-. exact (rp_pointer buf s b w Hi Hb0 Hb Hw).
  - destruct (subslice buf (s + 1) (s + 1 + b)) as [l | |] eqn:Hl;
      try discriminate.
    exact (rp_label buf s b l t Hi Hb0 Hb Hl (IH _ _ H)).
Qed.

Lemma reaches_pointer_range buf s t :
  reaches_pointer buf s t -> 0 <= s < Z.of_nat (len buf).
Proof. inversion 1; subst; eauto using index_Ret_range. Qed.

Lemma reaches_pointer_chain buf s t :
  reaches_pointer buf s t ->
  pointer_after (S (len buf)) buf s = Some t.
Proof.
  intros H. apply reaches_pointer_after; [exact H |].
  apply reaches_pointer_range in H. lia.
Qed.

(** The labels at an offset are ended by one pointer at most. *)
Lemma reaches_pointer_unique buf s t t' :
  reaches_pointer buf s t -> reaches_pointer buf s t' -> t = t'.
Proof.
  intros H H'. apply reaches_pointer_chain in H, H'. congruence.
Qed.

(** A call that finishes has made, with less fuel, the call through the
    pointer that ends its labels, and that call has finished. *)
Lemma finished_target buf s t :
  reaches_pointer buf s t ->
  forall fuel acc, parseLabels_loop fuel buf s acc <> Diverge ->
  exists fuel', (fuel' < fuel)%nat /\
    parseLabels_loop fuel' buf t [] <> Diverge.
Proof.
  induction 1 as [s b w Hi Hb0 Hb Hw | s b l t Hi Hb0 Hb Hl Hr IH];
    intros fuel acc Hnd; (destruct fuel as [| fuel]; [simpl in Hnd; congruence |]);
    cbn [parseLabels_loop] in Hnd; rewrite Hi in Hnd; cbn [bind] in Hnd;
    (destruct (Z.eqb_spec b 0); [contradiction |]).
  - destruct (Z.leb_spec 192 b); [| lia]. rewrite Hw in Hnd. cbn [bind] in Hnd.
    exists fuel. split; [lia |]. intros Hd. rewrite Hd in Hnd. apply Hnd.
    reflexivity.
  - destruct (Z.leb_spec 192 b); [lia |]. rewrite Hl in Hnd. cbn [bind] in Hnd.
    destruct (IH _ _ Hnd) as (fuel' & Hlt & Hf). exists fuel'. split; [lia | exact Hf].
Qed.

Lemma finished_leads buf s t :
  tc (reaches_pointer buf) s t ->
  forall fuel acc, parseLabels_loop fuel buf s acc <> Diverge ->
  exists fuel', (fuel' < fuel)%nat /\
    parseLabels_loop fuel' buf t [] <> Diverge.
Proof.
  induction 1 as [s t Hr | s t u Hr _ IH]; intros fuel acc Hnd.
  - exact (finished_target buf s t Hr fuel acc Hnd).
  - destruct (finished_target buf s t Hr fuel acc Hnd) as (fuel1 & Hlt & Hf).
    destruct (IH _ _ Hf) as (fuel2 & Hlt2 & Hf2).
    exists fuel2. split; [lia | exact Hf2].
Qed.

Lemma finished_visits buf s t :
  rtc (reaches_pointer buf) s t ->
  forall fuel, parseLabels_loop fuel buf s [] <> Diverge ->
  exists fuel', parseLabels_loop fuel' buf t [] <> Diverge.
Proof.
  induction 1 as [s | s t u Hr _ IH]; intros fuel Hnd.
  - exists fuel. exact Hnd.
  - destruct (finished_target buf s t Hr fuel [] Hnd) as (fuel1 & _ & Hf).
    exact (IH _ Hf).
Qed.

(** A call that finishes has not come back to its own offset. *)
Lemma finished_no_way_back buf : forall fuel s,
  parseLabels_loop fuel buf s [] <> Diverge -> ~ leads_back buf s.
Proof.
  induction fuel as [fuel IH] using lt_wf_ind. intros s Hnd Hback.
  destruct (finished_leads buf s s Hback fuel [] Hnd) as (fuel' & Hlt & Hf).
  exact (IH fuel' Hlt s Hf Hback).
Qed.

Lemma finishes_acyclic buf start :
  (exists fuel, parseLabels fuel buf start <> Diverge) ->
  acyclic_from buf start.
Proof.
  intros [fuel Hnd] s Hs.
  destruct (finished_visits buf start s Hs fuel Hnd) as [fuel' Hf].
  exact (finished_no_way_back buf fuel' s Hf).
Qed.

(** Distinct offsets of a buffer are no more than the buffer is long. *)
Lemma distinct_offsets (n : nat) (seen : list Z) :
  NoDup seen -> (forall x, x ∈ seen -> 0 <= x < Z.of_nat n) ->
  (length seen <= n)%nat.
Proof.
  intros Hnd Hin.
  assert (H : seen ⊆+ seqZ 0 (Z.of_nat n)).
  { apply NoDup_submseteq; [exact Hnd |].
    intros x Hx. apply elem_of_seqZ. specialize (Hin x Hx). lia. }
  apply submseteq_length in H. rewrite length_seqZ in H. lia.
Qed.

(** Without a way back, the chain of pointers ends before it has been at
    more offsets than the buffer has, and the call finishes. *)
Lemma acyclic_ends buf start :
  acyclic_from buf start ->
  forall (k : nat) seen s,
    visits buf start s -> NoDup seen ->
    (forall x, x ∈ seen -> tc (reaches_pointer buf) x s) ->
    (forall x, x ∈ seen -> 0 <= x < Z.of_nat (len buf)) ->
    (len buf <= length seen + k)%nat ->
    exists fuel, forall acc, parseLabels_loop fuel buf s acc <> Diverge.
Proof.
  intros Hacyc. induction k as [| k IH]; intros seen s Hs Hnd Hto Hin Hk;
    apply (loop_finishes_if_target_does buf
             (Z.to_nat (Z.of_nat (len buf) - s))); try lia;
    intros t Ht;
    assert (Hnd' : NoDup (s :: seen))
      by (constructor; [intros Hx; exact (Hacyc s Hs (Hto s Hx)) | exact Hnd]);
    assert (Hin' : forall x, x ∈ s :: seen -> 0 <= x < Z.of_nat (len buf))
      by (intros x [-> | Hx]%elem_of_cons;
          [exact (reaches_pointer_range buf _ _ Ht) | exact (Hin x Hx)]).
  - pose proof (distinct_offsets (len buf) (s :: seen) Hnd' Hin') as Hle.
    simpl in Hle. lia.
  - apply (IH (s :: seen) t).
    + exact (rtc_r _ _ _ Hs Ht).
    + exact Hnd'.
    + intros x [-> | Hx]%elem_of_cons.
      * apply tc_once, Ht.
      * exact (tc_r _ _ _ (Hto x Hx) Ht).
    + exact Hin'.
    + simpl. lia.
Qed.

Lemma acyclic_finishes buf start :
  acyclic_from buf start -> finishes buf start.
Proof.
  intros Hacyc.
  destruct (acyclic_ends buf start Hacyc (len buf) [] start) as [fuel Hf].
  - apply rtc_refl.
  - constructor.
  - intros x Hx. inversion Hx.
  - intros x Hx. inversion Hx.
  - simpl. lia.
  - exists fuel. intros fuel' Hle. unfold parseLabels.
    rewrite (parseLabels_loop_mono fuel buf start []
               (parseLabels_loop fuel buf start []) fuel' eq_refl (Hf []) Hle).
    apply Hf.
Qed.

Lemma backward_acyclic buf start :
  backward_from buf start -> acyclic_from buf start.
Proof.
  intros Hback s Hs Hloop.
  assert (H : forall a b, tc (reaches_pointer buf) a b ->
                visits buf start a -> b < a).
  { induction 1 as [a b Hr | a b c Hr _ IH]; intros Ha.
    - exact (Hback a b Ha Hr).
    - pose proof (Hback a b Ha Hr).
      pose proof (IH (rtc_r _ _ _ Ha Hr)). lia. }
  specialize (H s s Hloop Hs). lia.
Qed.

(** A chain that ends within [n] pointers has no way back. *)
Lemma chain_ends_no_way_back buf : forall n s,
  chain_ends n buf s = true -> ~ leads_back buf s.
Proof.
  assert (Hstep : forall n s t, tc (reaches_pointer buf) s t ->
            chain_ends n buf s = true ->
            exists n', (n' < n)%nat /\ chain_ends n' buf t = true).
  { intros n s t H. revert n.
    induction H as [s t Hr | s t u Hr _ IH]; intros n Hn;
      (destruct n as [| n]; [discriminate |]); cbn [chain_ends] in Hn;
      rewrite (reaches_pointer_chain buf s t Hr) in Hn.
    - exists n. split; [lia | exact Hn].
    - destruct (IH n Hn) as (n' & Hlt & Hn'). exists n'. split; [lia | exact Hn']. }
  induction n as [n IH] using lt_wf_ind. intros s Hn Hback.
  destruct (Hstep n s s Hback Hn) as (n' & Hlt & Hn').
  exact (IH n' Hlt s Hn' Hback).
Qed.

Lemma chain_ends_acyclic buf n start :
  chain_ends n buf start = true -> acyclic_from buf start.
Proof.
  intros Hn s Hs. revert n Hn.
  induction Hs as [s | s t u Hr _ IH]; intros n Hn.
  - exact (chain_ends_no_way_back buf n s Hn).
  - destruct n as [| n]; [discriminate |]. cbn [chain_ends] in Hn.
    rewrite (reaches_pointer_chain buf s t Hr) in Hn. exact (IH n Hn).
Qed.

(** C3, as the code has it.  The decoder keeps no set of visited offsets and
    no depth counter.  On every buffer and start offset it finishes, by
    returning or by a bounds panic, exactly when the chain of compression
    pointers it follows from the start offset never comes back to an offset
    it has been at.  It does so in particular when every pointer it meets
    points strictly before the start of the labels it ends; and when the
    chain does come back, no amount of fuel lets the call finish. *)
Theorem pointer_chain_terminates (buf : slice) (start : Z) :
  (finishes buf start <-> acyclic_from buf start) /\
  (backward_from buf start -> finishes buf start) /\
  (~ acyclic_from buf start ->
   forall fuel, parseLabels fuel buf start = Diverge).
Proof.
  split; [split | split].
  - intros [fuel Hf]. apply finishes_acyclic. exists fuel. apply Hf. lia.
  - apply acyclic_finishes.
  - intros Hback. apply acyclic_finishes, backward_acyclic, Hback.
  - intros Hcyc fuel.
    destruct (parseLabels fuel buf start) as [x | |] eqn:Hrun;
      [exfalso | exfalso | reflexivity];
      apply Hcyc, finishes_acyclic; exists fuel; rewrite Hrun; discriminate.
Qed.

(** A pointer to a later offset, and the byte 0xD8 behind it that no call
    comes to, do no harm. *)
Lemma pointer_chain_terminates_witness :
  finishes (full [192; 3; 216; 1; 97; 0]) 0.
Proof.
  apply (proj1 (pointer_chain_terminates (full [192; 3; 216; 1; 97; 0]) 0)).
  apply (chain_ends_acyclic _ 2). vm_compute. reflexivity.
Defined.

(** ** Truncated input *)

Lemma subslice_Ret_cap buf lo hi l :
  subslice buf lo hi = Ret l -> hi <= Z.of_nat (cap buf).
Proof.
  unfold subslice.
  destruct (Z.leb_spec 0 lo), (Z.leb_spec lo hi),
    (Z.leb_spec hi (Z.of_nat (cap buf))); simpl; try discriminate. lia.
Qed.

Lemma subslice_beyond_cap buf lo hi :
  Z.of_nat (cap buf) < hi -> subslice buf lo hi = Panic.
Proof.
  intros H. pose proof (subslice_Ret_cap buf lo hi) as Hc.
  pose proof (subslice_not_Diverge buf lo hi) as Hd.
  destruct (subslice buf lo hi) as [l | |]; [| reflexivity | congruence].
  specialize (Hc l eq_refl). lia.
Qed.

Lemma Uint32_at_not_Diverge buf lo hi : Uint32_at buf lo hi <> Diverge.
Proof.
  unfold Uint32_at. pose proof (subslice_not_Diverge buf lo hi) as H.
  destruct (subslice buf lo hi) as [[| b0 [| b1 [| b2 [| b3 l]]]] | |]; simpl;
    congruence.
Qed.

Lemma Uint16_at_beyond_cap buf lo hi :
  Z.of_nat (cap buf) < hi -> Uint16_at buf lo hi = Panic.
Proof.
  intros H. unfold Uint16_at. rewrite subslice_beyond_cap by exact H.
  reflexivity.
Qed.

(** Runs through a sequence of reads none of which can diverge. *)
Ltac step_read :=
  match goal with
  | |- bind ?m _ = Panic =>
      let H := fresh "Hread" in
      destruct m eqn:H; cbn [bind];
      [ | reflexivity
        | exfalso;
          first [ exact (index_not_Diverge _ _ H)
                | exact (Uint16_at_not_Diverge _ _ _ H)
                | exact (Uint32_at_not_Diverge _ _ _ H)
                | exact (subslice_not_Diverge _ _ _ H) ] ]
  end.

Ltac step_reads := repeat step_read.

Lemma parseHeader_short buf : (cap buf < 12)%nat -> parseHeader buf = Panic.
Proof.
  intros Hcap. unfold parseHeader.
  assert (Hlast : Uint16_at buf 10 12 = Panic)
    by (apply Uint16_at_beyond_cap; lia).
  step_reads. congruence.
Qed.

Lemma parseLabels_loop_short fuel buf i b acc :
  index buf i = Ret b -> b <> 0 -> b < 192 ->
  Z.of_nat (cap buf) < i + 1 + b ->
  parseLabels_loop (S fuel) buf i acc = Panic.
Proof.
  intros Hi Hb0 Hb Hcap. cbn [parseLabels_loop]. rewrite Hi. cbn [bind].
  destruct (Z.eqb_spec b 0); [contradiction |].
  destruct (Z.leb_spec 192 b); [lia |].
  rewrite subslice_beyond_cap by exact Hcap. reflexivity.
Qed.

Lemma parseAnswer_short fuel buf start labels i n :
  parseLabels fuel buf start = Ret (labels, i) ->
  Uint16_at buf (i + 8) (i + 10) = Ret n ->
  Z.of_nat (cap buf) < i + 10 + n ->
  parseAnswer fuel buf start = Panic.
Proof.
  intros Hname Hn Hcap. unfold parseAnswer. rewrite Hname. cbn [bind].
  do 3 step_read. rewrite Hn. cbn [bind].
  rewrite subslice_beyond_cap by exact Hcap. reflexivity.
Qed.

(** C4, counterexample.  On a six-byte buffer parseHeader panics, and
    parseRequest returns neither a message nor an error, whatever the fuel;
    on a buffer that announces a label of ten bytes and holds five, the name
    decoder panics; and handleConnection panics when the upstream's reply
    stops after the header.  None of them hands an error value to its
    caller. *)
Lemma truncated_input_no_error :
  parseHeader (full [18; 52; 1; 0; 0; 1]) = Panic /\
  ~ (exists fuel r, parseRequest fuel (full [18; 52; 1; 0; 0; 1]) = Ret r) /\
  parseLabels 2 (full [10; 97; 98; 99; 100; 101]) 0 = Panic /\
  snd (handleConnection 5 truncating_world) = Panic.
Proof.
  split; [reflexivity | split; [| split; [reflexivity |]]].
  - intros (fuel & r & H). unfold parseRequest in H.
    rewrite parseHeader_short in H by (unfold cap; simpl; lia). discriminate.
  - vm_compute. reflexivity.
Qed.

(** C4, as the code has it.  The decoders return no error value.  When the
    buffer is too short they stop with a run-time bounds panic: parseHeader
    on a buffer of capacity below 12, the name decoder when a label's
    declared length reaches past the capacity, and parseAnswer when RDLENGTH
    reaches past the capacity. *)
Theorem truncated_input_panics (fuel : nat) (buf : slice) (start i b n : Z)
    (acc labels : list string) :
  ((cap buf < 12)%nat -> parseHeader buf = Panic) /\
  (index buf i = Ret b -> b <> 0 -> b < 192 ->
   Z.of_nat (cap buf) < i + 1 + b ->
   parseLabels_loop (S fuel) buf i acc = Panic) /\
  (parseLabels fuel buf start = Ret (labels, i) ->
   Uint16_at buf (i + 8) (i + 10) = Ret n ->
   Z.of_nat (cap buf) < i + 10 + n ->
   parseAnswer fuel buf start = Panic).
Proof.
  split; [apply parseHeader_short | split].
  - apply parseLabels_loop_short.
  - apply parseAnswer_short.
Qed.

Lemma truncated_input_panics_witness :
  parseHeader (full [10; 97; 98; 99; 100; 101]) = Panic /\
  parseLabels_loop 1 (full [10; 97; 98; 99; 100; 101]) 0 [] = Panic /\
  parseAnswer 1 (full [0; 0; 1; 0; 1; 0; 0; 0; 60; 0; 4; 1; 2]) 0 = Panic.
Proof.
  split; [| split].
  - apply (proj1 (truncated_input_panics 0 (full [10; 97; 98; 99; 100; 101])
                    0 0 10 0 [] [])).
    unfold cap. simpl. lia.
  - apply (proj1 (proj2 (truncated_input_panics 0
                           (full [10; 97; 98; 99; 100; 101]) 0 0 10 0 [] [])));
      [reflexivity | lia | lia | unfold cap; simpl; lia].
  - apply (proj2 (proj2 (truncated_input_panics 1
                           (full [0; 0; 1; 0; 1; 0; 0; 0; 60; 0; 4; 1; 2])
                           0 1 0 4 [] [])));
      [reflexivity | reflexivity | unfold cap; simpl; lia].
Defined.

(** A reply slice keeps the capacity of the buffer it was cut from: with four
    visible bytes and twelve behind them, parseHeader reads all twelve. *)
Example parseHeader_spare_capacity :
  parseHeader {| arr := [0; 7; 129; 128; 0; 1; 0; 2; 0; 0; 0; 0]; len := 4 |} =
  Ret {| ID := 7; QR := 1; OpCode := 0; AuthorativeAnswer := 0;
         Truncation := 0; RecursionDesired := 1; RecursionAvailable := 1;
         Reserved := 0; ResponseCode := 0; QuestionCount := 1;
         AnswerRecordCount := 2; AuthorativeRecordCount := 0;
         AdditionalRecordCount := 0 |}.
Proof. reflexivity. Qed.

(** ** Name encoding *)

Lemma encode_labels_wire labels :
  Forall (fun l => 1 <= strlen l <= 63) labels ->
  encode_labels labels = wire_labels labels.
Proof.
  unfold encode_labels, wire_labels, encode_label.
  induction 1 as [| l ls Hl _ IH]; [reflexivity |].
  simpl. rewrite IH, byte_small by (unfold is_byte; lia). reflexivity.
Qed.

(** C5, counterexample.  A name made of one label of 64 bytes is encoded, not
    refused; and an empty label is not skipped: the empty name and the name
    "a..b" get a zero length byte for each empty label, before the
    terminator. *)
Lemma long_label_is_encoded :
  Question_ToBytes {| QName := long_label; QType := 1; QClass := 1 |} =
    Ret (64 :: replicate 64 97 ++ [0; 0; 1; 0; 1]) /\
  Question_ToBytes {| QName := EmptyString; QType := 1; QClass := 1 |} =
    Ret [0; 0; 0; 1; 0; 1] /\
  Question_ToBytes {| QName := "a..b"; QType := 1; QClass := 1 |} =
    Ret [1; 97; 0; 1; 98; 0; 0; 1; 0; 1].
Proof. repeat split; vm_compute; reflexivity. Qed.

(** C5, as the code has it.  Both encoders return a buffer for every name:
    no label length is checked.  For a name whose dot-separated labels all
    have 1 to 63 bytes, the buffer starts with each label in order behind
    its one-byte length, then a zero byte; the fixed fields (and RDATA)
    follow. *)
Theorem name_encoding (q : Question) (a : Answer) :
  (exists b, Question_ToBytes q = Ret b) /\
  (exists b, Answer_ToBytes a = Ret b) /\
  (wf_name (QName q) ->
   Question_ToBytes q =
   Ret (wire_labels (Split (QName q)) ++ [0] ++
        be16 (QType q) ++ be16 (QClass q))) /\
  (wf_name (AName a) ->
   Answer_ToBytes a =
   Ret (wire_labels (Split (AName a)) ++ [0] ++
        be16 (AType a) ++ be16 (AClass a) ++ be32 (TTL a) ++
        be16 (RDLength a) ++ RData a)).
Proof.
  rewrite Question_ToBytes_eq, Answer_ToBytes_eq.
  unfold question_bytes, answer_bytes, wf_name.
  repeat split; eauto; intros H; rewrite encode_labels_wire by exact H;
    reflexivity.
Qed.

Lemma name_encoding_witness :
  Question_ToBytes {| QName := "ab.c"; QType := 1; QClass := 1 |} =
    Ret [2; 97; 98; 1; 99; 0; 0; 1; 0; 1] /\
  Answer_ToBytes {| AName := "ab.c"; AType := 1; AClass := 1; TTL := 60;
                    RDLength := 2; RData := [7; 8] |} =
    Ret [2; 97; 98; 1; 99; 0; 0; 1; 0; 1; 0; 0; 0; 60; 0; 2; 7; 8].
Proof.
  pose proof (name_encoding
    {| QName := "ab.c"; QType := 1; QClass := 1 |}
    {| AName := "ab.c"; AType := 1; AClass := 1; TTL := 60;
       RDLength := 2; RData := [7; 8] |}) as (_ & _ & Hq & Ha).
  split; [apply Hq | apply Ha]; unfold wf_name; simpl;
    repeat (constructor; [unfold strlen; simpl; lia |]); constructor.
Defined.

(** ** The forwarding resolver *)

Lemma append_questions_eq questions : forall response,
  append_questions response questions =
  Ret (response ++ concat (map question_bytes questions)).
Proof.
  induction questions as [| q qs IH]; intros response; cbn [append_questions].
  - simpl. rewrite app_nil_r. reflexivity.
  - rewrite Question_ToBytes_eq. cbn [bind]. rewrite IH.
    simpl. rewrite <- app_assoc. reflexivity.
Qed.

Lemma append_answers_eq answers : forall response,
  append_answers response answers =
  Ret (response ++ concat (map answer_bytes answers)).
Proof.
  induction answers as [| a ans IH]; intros response; cbn [append_answers].
  - simpl. rewrite app_nil_r. reflexivity.
  - rewrite Answer_ToBytes_eq. cbn [bind]. rewrite IH.
    simpl. rewrite <- app_assoc. reflexivity.
Qed.

Lemma respond_eq header questions answers :
  respond header questions answers =
  Ret (message_bytes (finish_header header questions answers)
         questions answers).
Proof.
  unfold respond. rewrite Header_ToBytes_eq. cbn [bind].
  replace (copy_from (make 12)
             0 (header_bytes (finish_header header questions answers)))
    with (Ret (header_bytes (finish_header header questions answers)))
    by reflexivity.
  cbn [bind]. rewrite append_questions_eq. cbn [bind].
  rewrite append_answers_eq. unfold message_bytes.
  rewrite <- app_assoc. reflexivity.
Qed.

Lemma queryDNS_eq h q qs a au ad udpConn :
  queryDNS {| MHeader := h; MQuestion := q :: qs; MAnswer := a;
              Authority := au; Additional := ad |} udpConn =
  let out := request_bytes h q in
  if Z.of_nat (length out) <=? 10240 then
    Ret (out, match udpConn out with
              | WriteError e => inl e
              | ReadError e => inl e
              | Reply datagram => inr (reply_slice out datagram)
              end)
  else Panic.
Proof.
  unfold queryDNS. cbn [MHeader MQuestion bind].
  rewrite Header_ToBytes_eq, Question_ToBytes_eq. cbn [bind].
  set (hb := header_bytes h). set (qb := question_bytes q).
  assert (Hhb : length hb = 12%nat) by reflexivity.
  change (make (1024 * 10)) with (replicate (Z.to_nat 10240) 0).
  set (room := replicate (Z.to_nat 10240) 0).
  assert (Hroom : length room = Z.to_nat 10240) by apply length_replicate.
  pose proof (copy_from_app [] room 0 hb eq_refl) as H1. cbn [app] in H1.
  rewrite H1 by lia. clear H1. cbn [bind].
  unfold request_bytes. fold hb qb. cbv zeta.
  rewrite length_app, Hhb.
  destruct (Z.leb_spec (Z.of_nat (12 + length qb)) 10240) as [Hfit | Hbig].
  - rewrite (copy_from_app hb (drop 12 room) (0 + 12) qb)
      by (rewrite ?length_drop; lia).
    cbn [bind]. rewrite drop_drop.
    set (tail := drop (12 + length qb) room).
    rewrite (app_assoc hb qb tail).
    pose proof (subslice_full_app [] (hb ++ qb) tail 0
                  (0 + 12 + Z.of_nat (length qb)) eq_refl) as H2.
    cbn [app] in H2. rewrite H2 by (rewrite length_app; lia). clear H2.
    cbn [bind].
    assert (Htail : tail = replicate (Z.to_nat 10240 - length (hb ++ qb)) 0).
    { subst tail room. rewrite drop_replicate, length_app, Hhb. reflexivity. }
    destruct (udpConn (hb ++ qb)) as [e | e | datagram]; try reflexivity.
    unfold reply_slice. rewrite <- Htail, <- app_assoc.
    rewrite length_inserts, !length_app.
    subst tail. rewrite length_drop. repeat f_equal. lia.
  - unfold copy_from at 1.
    replace ((0 <=? 0 + 12) &&
             (0 + 12 <=? Z.of_nat (length (hb ++ drop 12 room))))
      with true
      by (symmetry; apply andb_true_intro; split; apply Z.leb_le;
          rewrite ?length_app, ?length_drop; lia).
    cbn [bind]. rewrite subslice_beyond_cap; [reflexivity |].
    unfold cap, full. cbn [arr].
    rewrite length_inserts, length_app, length_drop. lia.
Qed.

Lemma set_counts_twice h a b c d :
  set_counts (set_counts h a b) c d = set_counts h c d.
Proof. reflexivity. Qed.

(** The message decoder hands back the header it decoded, and the nil error. *)
Lemma parseRequest_header fuel buf msg e :
  parseRequest fuel buf = Ret (msg, e) ->
  parseHeader buf = Ret (MHeader msg) /\ e = None.
Proof.
  unfold parseRequest.
  destruct (parseHeader buf) as [h | |]; try discriminate. cbn [bind].
  destruct (parseQuestions fuel buf _ 12 []) as [[qs next] | |];
    try discriminate. cbn [bind].
  destruct (parseAnswers fuel buf _ next []) as [ans | |]; try discriminate.
  cbn [bind]. intros [= <- <-]. auto.
Qed.

(** *** The forwarding loop, for a fixed fuel and upstream *)

Section Forwarding.

Variable fuel : nat.
Variable upstream : nat -> list Z -> exchange.

(** What the forwarding loop wrote upstream, whatever its end: one request
    per question, in order, for the questions it got to. *)
Lemma forward_trace : forall pending k header questions answers,
  let trace := fst (forward fuel upstream k pending header questions answers) in
  trace = map (request_bytes (set_counts header 1 0))
              (take (length trace) pending).
Proof.
  induction pending as [| q pending IH]; intros k header questions answers;
    [reflexivity |].
  cbn [forward]. rewrite queryDNS_eq. cbv zeta.
  destruct (Z.of_nat (length (request_bytes (set_counts header 1 0) q))
              <=? 10240); [| reflexivity].
  destruct (upstream k (request_bytes (set_counts header 1 0) q))
    as [e | e | datagram]; try reflexivity.
  destruct (parseRequest fuel _) as [[respMsg [e |]] | |]; try reflexivity.
  specialize (IH (S k) (set_counts header 1 0)
                (questions ++ MQuestion respMsg) (answers ++ MAnswer respMsg)).
  cbv zeta in IH. rewrite set_counts_twice in IH.
  destruct (forward fuel upstream (S k) pending (set_counts header 1 0)
              (questions ++ MQuestion respMsg) (answers ++ MAnswer respMsg))
    as [trace r].
  cbn [fst] in *. cbn [length take map]. f_equal. exact IH.
Qed.

(** When the forwarding loop runs to its end, every question was forwarded,
    every exchange brought back a message, and the accumulators hold the
    questions and the answers of these messages in the order of arrival. *)
Lemma forward_merged : forall pending k header questions answers
    trace header' questions' answers',
  forward fuel upstream k pending header questions answers =
    (trace, Ret (inr (header', questions', answers'))) ->
  length trace = length pending /\
  header' = match pending with
            | [] => header
            | _ :: _ => set_counts header 1 0
            end /\
  exists msgs,
    round_trips fuel upstream (set_counts header 1 0) k pending =
      map Some msgs /\
    questions' = questions ++ concat (map MQuestion msgs) /\
    answers' = answers ++ concat (map MAnswer msgs).
Proof.
  induction pending as [| q pending IH];
    intros k header questions answers trace header' questions' answers' H.
  - cbn [forward] in H. inversion H; subst.
    split; [reflexivity | split; [reflexivity |]].
    exists []. simpl. rewrite !app_nil_r. auto.
  - cbn [forward] in H. cbn [round_trips]. unfold round_trip.
    destruct (queryDNS _ (upstream k)) as [[out [e | resp]] | |];
      try discriminate.
    destruct (parseRequest fuel resp) as [[respMsg [e |]] | |];
      try discriminate.
    destruct (forward fuel upstream (S k) pending (set_counts header 1 0)
                (questions ++ MQuestion respMsg) (answers ++ MAnswer respMsg))
      as [trace' r] eqn:Hrec.
    inversion H; subst.
    apply IH in Hrec as (Hlen & Hh & msgs & Hmsgs & Hq & Ha).
    rewrite set_counts_twice in Hmsgs.
    split; [simpl; lia | split].
    + rewrite Hh. destruct pending; reflexivity.
    + exists (respMsg :: msgs). rewrite Hmsgs, Hq, Ha.
      simpl. rewrite <- !app_assoc. auto.
Qed.

(** The forwarding loop stops early only on a failed exchange. *)
Lemma forward_stops : forall pending k header questions answers
    trace stop,
  forward fuel upstream k pending header questions answers =
    (trace, Ret (inl stop)) ->
  stop = QueryFailed.
Proof.
  induction pending as [| q pending IH];
    intros k header questions answers trace stop H; cbn [forward] in H.
  - discriminate.
  - destruct (queryDNS _ (upstream k)) as [[out [e | resp]] | |];
      try discriminate.
    + congruence.
    + destruct (parseRequest fuel resp) as [[respMsg [e |]] | |] eqn:Hp;
        try discriminate.
      * apply parseRequest_header in Hp as [_ Hp]. discriminate.
      * destruct (forward fuel upstream (S k) pending _ _ _) as [tr r] eqn:Hrec.
        inversion H; subst. eapply IH. exact Hrec.
Qed.

End Forwarding.

(** ** Headers decoded from bytes *)

Lemma index_is_byte buf i b :
  Forall is_byte (arr buf) -> index buf i = Ret b -> is_byte b.
Proof.
  intros Hall. unfold index. destruct (_ && _); [| discriminate].
  destruct (arr buf !! Z.to_nat i) as [x |] eqn:Hx; [| discriminate].
  intros [= <-]. exact (Forall_lookup_1 _ _ _ _ Hall Hx).
Qed.

Lemma subslice_is_byte buf lo hi l :
  Forall is_byte (arr buf) -> subslice buf lo hi = Ret l -> Forall is_byte l.
Proof.
  intros Hall. unfold subslice. destruct (_ && _); [| discriminate].
  intros [= <-]. apply Forall_take, Forall_drop, Hall.
Qed.

Lemma Uint16_at_is_uint16 buf lo hi v :
  Forall is_byte (arr buf) -> Uint16_at buf lo hi = Ret v -> is_uint16 v.
Proof.
  intros Hall. unfold Uint16_at.
  destruct (subslice buf lo hi) as [l | |] eqn:Hl; try discriminate.
  apply (subslice_is_byte _ _ _ _ Hall) in Hl.
  destruct l as [| b0 [| b1 l]]; try discriminate. cbn [bind Uint16].
  intros [= <-].
  apply Forall_cons in Hl as [Hb0 Hl]. apply Forall_cons in Hl as [Hb1 _].
  rewrite be16_value by assumption. unfold is_byte, is_uint16 in *. lia.
Qed.

Lemma land_low_range x k : 0 <= k -> 0 <= Z.land x (Z.ones k) < 2 ^ k.
Proof. intros Hk. rewrite Z.land_ones by exact Hk. apply Z.mod_pos_bound. lia. Qed.

Lemma top_bit_range b : is_byte b -> 0 <= Z.shiftr b 7 < 2.
Proof.
  unfold is_byte. intros Hb. rewrite Z.shiftr_div_pow2 by lia.
  change (2 ^ 7) with 128. split.
  - apply Z.div_pos; lia.
  - apply Z.div_lt_upper_bound; lia.
Qed.

(** A header decoded from bytes has every field within its width. *)
Lemma parseHeader_wf buf h :
  Forall is_byte (arr buf) -> parseHeader buf = Ret h -> wf_Header h.
Proof.
  intros Hall. unfold parseHeader.
  destruct (Uint16_at buf 0 2) as [id | |] eqn:Hid; try discriminate.
  cbn [bind].
  destruct (index buf 2) as [b2 | |] eqn:Hb2; try discriminate. cbn [bind].
  destruct (index buf 3) as [b3 | |] eqn:Hb3; try discriminate. cbn [bind].
  destruct (Uint16_at buf 4 6) as [qd | |] eqn:Hqd; try discriminate.
  cbn [bind].
  destruct (Uint16_at buf 6 8) as [an | |] eqn:Han; try discriminate.
  cbn [bind].
  destruct (Uint16_at buf 8 10) as [ns | |] eqn:Hns; try discriminate.
  cbn [bind].
  destruct (Uint16_at buf 10 12) as [ar | |] eqn:Har; try discriminate.
  cbn [bind]. intros [= <-].
  apply (index_is_byte _ _ _ Hall) in Hb2, Hb3.
  unfold wf_Header. cbn.
  repeat split;
    try (eapply Uint16_at_is_uint16; eassumption);
    try (apply top_bit_range; assumption);
    try (apply (land_low_range _ 1); lia);
    try (apply (land_low_range _ 3); lia);
    try (apply (land_low_range _ 4); lia).
Qed.

(** parseHeader reads the first twelve bytes only. *)
Lemma parseHeader_prefix a0 a1 b2 b3 c0 c1 d0 d1 e0 e1 f0 f1 rest :
  parseHeader (full ([a0; a1; b2; b3; c0; c1; d0; d1; e0; e1; f0; f1] ++ rest)) =
  parseHeader (full [a0; a1; b2; b3; c0; c1; d0; d1; e0; e1; f0; f1]).
Proof.
  rewrite parseHeader_bytes. unfold parseHeader, Uint16_at. cbn [app].
  pose proof (subslice_full_app [] [a0; a1]
    ([b2; b3; c0; c1; d0; d1; e0; e1; f0; f1] ++ rest) 0 2 eq_refl eq_refl) as H0.
  pose proof (index_full_app [a0; a1] b2
    ([b3; c0; c1; d0; d1; e0; e1; f0; f1] ++ rest) 2 eq_refl) as H2.
  pose proof (index_full_app [a0; a1; b2] b3
    ([c0; c1; d0; d1; e0; e1; f0; f1] ++ rest) 3 eq_refl) as H3.
  pose proof (subslice_full_app [a0; a1; b2; b3] [c0; c1]
    ([d0; d1; e0; e1; f0; f1] ++ rest) 4 6 eq_refl eq_refl) as H4.
  pose proof (subslice_full_app [a0; a1; b2; b3; c0; c1] [d0; d1]
    ([e0; e1; f0; f1] ++ rest) 6 8 eq_refl eq_refl) as H6.
  pose proof (subslice_full_app [a0; a1; b2; b3; c0; c1; d0; d1] [e0; e1]
    ([f0; f1] ++ rest) 8 10 eq_refl eq_refl) as H8.
  pose proof (subslice_full_app [a0; a1; b2; b3; c0; c1; d0; d1; e0; e1]
    [f0; f1] rest 10 12 eq_refl eq_refl) as H10.
  cbn [app] in *. rewrite H0, H2, H3, H4, H6, H8, H10. reflexivity.
Qed.

Lemma parseHeader_message_bytes h questions answers :
  wf_Header h ->
  parseHeader (full (message_bytes h questions answers)) = Ret h.
Proof.
  intros Hh. rewrite <- (parseHeader_header_bytes h Hh).
  unfold message_bytes, header_bytes, be16. cbn [app].
  apply (parseHeader_prefix _ _ _ _ _ _ _ _ _ _ _ _ _).
Qed.

Lemma received_bytes datagram :
  Forall is_byte datagram -> Forall is_byte (arr (received datagram)).
Proof.
  intros H. unfold received, full. cbn [arr]. rewrite list_inserts_0.
  apply Forall_app. split.
  - apply Forall_take, H.
  - apply Forall_drop, Forall_replicate. unfold is_byte. lia.
Qed.

(** handleConnection answers only after it decoded the request and ran the
    forwarding loop to its end; the answer is the encoding of what the loop
    left behind. *)
Lemma handleConnection_responded fuel w trace reply :
  handleConnection fuel w = (trace, Ret (Responded reply)) ->
  exists datagram msg header' questions answers,
    inbound w = inr datagram /\
    parseRequest fuel (received datagram) = Ret (msg, None) /\
    forward fuel (upstream w) 0 (MQuestion msg) (MHeader msg) [] [] =
      (trace, Ret (inr (header', questions, answers))) /\
    reply = message_bytes (finish_header header' questions answers)
              questions answers.
Proof.
  unfold handleConnection. cbv zeta.
  destruct (inbound w) as [e | datagram]; [discriminate |].
  fold (received datagram).
  destruct (parseRequest fuel (received datagram)) as [[msg [e |]] | |]
    eqn:Hparse; try discriminate.
  destruct (port_ok w); [| discriminate].
  destruct (dial_ok w); [| discriminate]. cbn [negb].
  destruct (forward fuel (upstream w) 0 (MQuestion msg) (MHeader msg) [] [])
    as [tr r] eqn:Hfwd.
  destruct r as [[stop | [[header' questions] answers]] | |]; cbn [bind];
    try discriminate.
  - apply forward_stops in Hfwd. subst stop. discriminate.
  - rewrite respond_eq. cbn [bind]. intros [= <- <-].
    exists datagram, msg, header', questions, answers. auto.
Qed.

Lemma finish_header_fields h questions answers :
  let h' := finish_header h questions answers in
  QR h' = 1 /\
  ResponseCode h' = (if OpCode h =? 0 then 0 else 4) /\
  QuestionCount h' = uint16 (Z.of_nat (length questions)) /\
  AnswerRecordCount h' = uint16 (Z.of_nat (length answers)) /\
  ID h' = ID h /\ OpCode h' = OpCode h /\
  AuthorativeAnswer h' = AuthorativeAnswer h /\
  Truncation h' = Truncation h /\
  RecursionDesired h' = RecursionDesired h /\
  RecursionAvailable h' = RecursionAvailable h /\
  Reserved h' = Reserved h /\
  AuthorativeRecordCount h' = AuthorativeRecordCount h /\
  AdditionalRecordCount h' = AdditionalRecordCount h.
Proof.
  unfold finish_header. cbn [set_QR set_ResponseCode OpCode].
  destruct (OpCode h =? 0); cbn; repeat split; reflexivity.
Qed.

Lemma finish_header_wf h questions answers :
  wf_Header h -> wf_Header (finish_header h questions answers).
Proof.
  intros (Hid & Hqr & Hop & Haa & Htc & Hrd & Hra & Hz & Hrc & Hqd & Han & Hns & Har).
  pose proof (finish_header_fields h questions answers) as F. cbv zeta in F.
  destruct F as (F1 & F2 & F3 & F4 & F5 & F6 & F7 & F8 & F9 & F10 & F11 & F12 & F13).
  unfold wf_Header.
  rewrite F1, F2, F3, F4, F5, F6, F7, F8, F9, F10, F11, F12, F13.
  assert (forall n, is_uint16 (uint16 n))
    by (intros n; unfold is_uint16, uint16; apply Z.mod_pos_bound; lia).
  unfold is_uint16 in *.
  repeat split; try assumption; try apply H; try lia;
    try (destruct (OpCode h =? 0); lia).
Qed.

Lemma finish_header_set_counts h a b questions answers :
  finish_header (set_counts h a b) questions answers =
  finish_header h questions answers.
Proof.
  unfold finish_header. cbn [set_QR set_ResponseCode set_counts OpCode].
  destruct (OpCode h =? 0); reflexivity.
Qed.

(** The header of an answer, read back from the answer: it is the header the
    request was decoded to, with QR, RCODE and the two counts set. *)
Lemma reply_header fuel w datagram trace reply h :
  inbound w = inr datagram -> Forall is_byte datagram ->
  handleConnection fuel w = (trace, Ret (Responded reply)) ->
  parseHeader (received datagram) = Ret h ->
  exists questions answers,
    parseHeader (full reply) = Ret (finish_header h questions answers) /\
    reply = message_bytes (finish_header h questions answers)
              questions answers.
Proof.
  intros Hin Hbytes Hrun Hh.
  apply handleConnection_responded in Hrun
    as (datagram' & msg & header' & questions & answers & Hin' & Hmsg & Hfwd
        & ->).
  assert (datagram' = datagram) by congruence. subst datagram'.
  apply parseRequest_header in Hmsg as [Hmh _].
  assert (MHeader msg = h) by congruence.
  apply forward_merged in Hfwd as (_ & Hh' & _).
  pose proof (parseHeader_wf _ _ (received_bytes _ Hbytes) Hh) as Hwf.
  assert (Hsame : finish_header header' questions answers =
                  finish_header h questions answers).
  { subst header' h. destruct (MQuestion msg);
      [reflexivity | apply finish_header_set_counts]. }
  rewrite Hsame. exists questions, answers. split; [| reflexivity].
  apply parseHeader_message_bytes, finish_header_wf, Hwf.
Qed.

(** ** The sample exchange *)

Lemma sample_run :
  handleConnection 5 sample_world = (sample_trace, Ret (Responded sample_reply)).
Proof. vm_compute. reflexivity. Qed.

Lemma sample_query_bytes : Forall is_byte sample_query.
Proof.
  unfold sample_query.
  repeat (constructor; [unfold is_byte; lia |]). constructor.
Qed.

Lemma sample_query_parse :
  parseRequest 5 (received sample_query) = Ret (sample_message, None).
Proof. vm_compute. reflexivity. Qed.

(** ** The reply of the resolver *)

(** C6.  When handleConnection answers a request made of bytes, the header
    read back from the answer has QR = 1, and its RCODE is 4 exactly when the
    OPCODE of the request header is not 0, and 0 when that OPCODE is 0. *)
Theorem reply_response_code (fuel : nat) (w : world) (datagram : list Z)
    (trace : list (list Z)) (reply : list Z) (h : Header) :
  inbound w = inr datagram -> Forall is_byte datagram ->
  handleConnection fuel w = (trace, Ret (Responded reply)) ->
  parseHeader (received datagram) = Ret h ->
  exists h', parseHeader (full reply) = Ret h' /\
    QR h' = 1 /\
    (ResponseCode h' = 4 <-> OpCode h <> 0) /\
    (OpCode h = 0 -> ResponseCode h' = 0).
Proof.
  intros Hin Hbytes Hrun Hh.
  destruct (reply_header fuel w datagram trace reply h Hin Hbytes Hrun Hh)
    as (questions & answers & Hparse & _).
  exists (finish_header h questions answers). split; [exact Hparse |].
  pose proof (finish_header_fields h questions answers) as F. cbv zeta in F.
  destruct F as (F1 & F2 & _). rewrite F2. split; [exact F1 |].
  destruct (Z.eqb_spec (OpCode h) 0); split; try split; intros; congruence.
Qed.

Lemma reply_response_code_witness :
  exists h', parseHeader (full sample_reply) = Ret h' /\
    QR h' = 1 /\
    (ResponseCode h' = 4 <-> OpCode sample_query_header <> 0) /\
    (OpCode sample_query_header = 0 -> ResponseCode h' = 0).
Proof.
  apply (reply_response_code 5 sample_world sample_query sample_trace).
  - reflexivity.
  - apply sample_query_bytes.
  - vm_compute. reflexivity.
  - vm_compute. reflexivity.
Defined.

(** C9.  When handleConnection answers a request made of bytes, the header
    read back from the answer agrees with the request header on every field
    but QR, RCODE, QDCOUNT and ANCOUNT: the identifier, OPCODE, AA, TC, RD,
    RA, the reserved bits, and the authority and additional counts are those
    of the request; and the answer holds nothing behind its header but
    encoded questions and answers. *)
Theorem reply_header_frame (fuel : nat) (w : world) (datagram : list Z)
    (trace : list (list Z)) (reply : list Z) (h : Header) :
  inbound w = inr datagram -> Forall is_byte datagram ->
  handleConnection fuel w = (trace, Ret (Responded reply)) ->
  parseHeader (received datagram) = Ret h ->
  exists h' questions answers,
    parseHeader (full reply) = Ret h' /\ same_id_flags h h' /\
    reply = message_bytes h' questions answers.
Proof.
  intros Hin Hbytes Hrun Hh.
  destruct (reply_header fuel w datagram trace reply h Hin Hbytes Hrun Hh)
    as (questions & answers & Hparse & Hreply).
  exists (finish_header h questions answers), questions, answers.
  split; [exact Hparse | split; [| exact Hreply]].
  pose proof (finish_header_fields h questions answers) as F. cbv zeta in F.
  unfold same_id_flags. tauto.
Qed.

Lemma reply_header_frame_witness :
  exists h' questions answers,
    parseHeader (full sample_reply) = Ret h' /\
    same_id_flags sample_query_header h' /\
    sample_reply = message_bytes h' questions answers.
Proof.
  apply (reply_header_frame 5 sample_world sample_query sample_trace).
  - reflexivity.
  - apply sample_query_bytes.
  - vm_compute. reflexivity.
  - vm_compute. reflexivity.
Defined.

(** ** The forwarded requests *)




(** ** The merged reply *)

Lemma length_question_bytes q : (5 <= length (question_bytes q))%nat.
Proof. unfold question_bytes. rewrite !length_app. simpl. lia. Qed.

Lemma length_answer_bytes a : (11 <= length (answer_bytes a))%nat.
Proof. unfold answer_bytes. rewrite !length_app. simpl. lia. Qed.

Lemma length_concat_map_ge {A} (f : A -> list Z) (k : nat) (l : list A) :
  (forall x, (k <= length (f x))%nat) ->
  (k * length l <= length (concat (map f l)))%nat.
Proof.
  intros Hf. induction l as [| x l IH]; simpl; [lia |].
  rewrite length_app. specialize (Hf x). lia.
Qed.

Lemma encoded_one_by_one {A} (enc : A -> outcome (list Z))
    (bytes : A -> list Z) (l : list A) :
  (forall x, enc x = Ret (bytes x)) ->
  Forall2 (fun x b => enc x = Ret b) l (map bytes l).
Proof.
  intros Henc. apply Forall2_fmap_r, Forall_Forall2_diag, Forall_forall.
  intros x _. apply Henc.
Qed.

(** C8.  A reply of the resolver is the encoded header followed by the
    encoded accumulated questions in order and the encoded accumulated
    answers in order; the accumulated lists are the questions, respectively
    the answers, of the decoded upstream replies, concatenated in the order
    of the round trips; QDCOUNT and ANCOUNT of the encoded header are the
    lengths of the two lists converted to uint16, which for a reply that
    fits a UDP datagram, the only kind the socket emits, are the lengths
    themselves. *)
Theorem merged_reply_layout (fuel : nat) (w : world) (trace : list (list Z))
    (reply : list Z) :
  handleConnection fuel w = (trace, Ret (Responded reply)) ->
  exists datagram msg msgs header hb qbs abs,
    inbound w = inr datagram /\
    parseRequest fuel (received datagram) = Ret (msg, None) /\
    round_trips fuel (upstream w) (set_counts (MHeader msg) 1 0) 0
      (MQuestion msg) = map Some msgs /\
    let questions := concat (map MQuestion msgs) in
    let answers := concat (map MAnswer msgs) in
    Header_ToBytes header = Ret hb /\
    Forall2 (fun q b => Question_ToBytes q = Ret b) questions qbs /\
    Forall2 (fun a b => Answer_ToBytes a = Ret b) answers abs /\
    reply = hb ++ concat qbs ++ concat abs /\
    QuestionCount header = uint16 (Z.of_nat (length questions)) /\
    AnswerRecordCount header = uint16 (Z.of_nat (length answers)) /\
    (emittable reply ->
     QuestionCount header = Z.of_nat (length questions) /\
     AnswerRecordCount header = Z.of_nat (length answers)).
Proof.
  intros Hrun.
  apply handleConnection_responded in Hrun
    as (datagram & msg & header' & questions & answers & Hin & Hmsg & Hfwd
        & ->).
  apply forward_merged in Hfwd as (_ & _ & msgs & Hmsgs & Hq & Ha).
  cbn [app] in Hq, Ha. subst questions answers.
  set (questions := concat (map MQuestion msgs)) in *.
  set (answers := concat (map MAnswer msgs)) in *.
  exists datagram, msg, msgs, (finish_header header' questions answers),
    (header_bytes (finish_header header' questions answers)),
    (map question_bytes questions), (map answer_bytes answers).
  split; [exact Hin | split; [exact Hmsg | split; [exact Hmsgs |]]].
  cbv zeta. fold questions answers.
  split; [apply Header_ToBytes_eq |].
  split; [apply encoded_one_by_one, Question_ToBytes_eq |].
  split; [apply encoded_one_by_one, Answer_ToBytes_eq |].
  split; [reflexivity |].
  pose proof (finish_header_fields header' questions answers) as F.
  cbv zeta in F. destruct F as (_ & _ & Fq & Fa & _). rewrite Fq, Fa.
  split; [reflexivity | split; [reflexivity |]].
  intros Hfits.
  unfold emittable, udp_payload_max, message_bytes in Hfits.
  rewrite !length_app, header_bytes_length in Hfits.
  pose proof (length_concat_map_ge question_bytes 5 questions
                length_question_bytes).
  pose proof (length_concat_map_ge answer_bytes 11 answers
                length_answer_bytes).
  unfold uint16. rewrite !Z.mod_small by lia. split; reflexivity.
Qed.

Lemma merged_reply_layout_witness :
  exists header hb qbs abs,
    Header_ToBytes header = Ret hb /\
    sample_reply = hb ++ concat qbs ++ concat abs /\
    length qbs = 2%nat /\ length abs = 3%nat /\
    QuestionCount header = 2 /\ AnswerRecordCount header = 3.
Proof.
  destruct (merged_reply_layout 5 sample_world sample_trace sample_reply)
    as (datagram & msg & msgs & header & hb & qbs & abs & Hin & Hmsg & Hmsgs
        & Hhb & Hqbs & Habs & Hreply & _ & _ & Hcounts).
  - vm_compute. reflexivity.
  - destruct Hcounts as [Hqd Han];
      [unfold emittable, udp_payload_max; simpl; lia |].
    exists header, hb, qbs, abs.
    assert (datagram = sample_query) by (simpl in Hin; congruence).
    subst datagram.
    assert (msg = sample_message)
      by (rewrite sample_query_parse in Hmsg; congruence).
    subst msg.
    assert (Hm : map Some msgs =
                 map Some
                   [ {| MHeader :=
                          {| ID := 4660; QR := 1; OpCode := 0;
                             AuthorativeAnswer := 0; Truncation := 0;
                             RecursionDesired := 1; RecursionAvailable := 1;
                             Reserved := 0; ResponseCode := 0;
                             QuestionCount := 1; AnswerRecordCount := 1;
                             AuthorativeRecordCount := 0;
                             AdditionalRecordCount := 0 |};
                        MQuestion :=
                          [ {| QName := "a.b"; QType := 1; QClass := 1 |} ];
                        MAnswer :=
                          [ {| AName := "a.b"; AType := 1; AClass := 1;
                               TTL := 60; RDLength := 4;
                               RData := [1; 2; 3; 4] |} ];
                        Authority := 0; Additional := 0 |};
                     {| MHeader :=
                          {| ID := 4660; QR := 1; OpCode := 0;
                             AuthorativeAnswer := 0; Truncation := 0;
                             RecursionDesired := 1; RecursionAvailable := 1;
                             Reserved := 0; ResponseCode := 0;
                             QuestionCount := 1; AnswerRecordCount := 2;
                             AuthorativeRecordCount := 0;
                             AdditionalRecordCount := 0 |};
                        MQuestion :=
                          [ {| QName := "c"; QType := 1; QClass := 1 |} ];
                        MAnswer :=
                          [ {| AName := "c"; AType := 1; AClass := 1;
                               TTL := 60; RDLength := 2; RData := [7; 8] |};
                            {| AName := "c"; AType := 1; AClass := 1;
                               TTL := 60; RDLength := 2; RData := [7; 8] |} ];
                        Authority := 0; Additional := 0 |} ])
      by (rewrite <- Hmsgs; vm_compute; reflexivity).
    apply (inj (fmap Some)) in Hm. subst msgs.
    apply Forall2_length in Hqbs, Habs.
    repeat split; try assumption; try (symmetry; assumption).
Defined.

(** ** The error result of the message decoder *)

(** C10.  On every buffer parseRequest panics, does not finish, or returns a
    message together with the nil error; and handleConnection never ends in
    either of its two branches for a decoding error. *)
Theorem parse_error_unreachable (fuel : nat) (buf : slice) (w : world) :
  (parseRequest fuel buf = Panic \/ parseRequest fuel buf = Diverge \/
   exists msg, parseRequest fuel buf = Ret (msg, None)) /\
  snd (handleConnection fuel w) <> Ret ParseRequestFailed /\
  snd (handleConnection fuel w) <> Ret ParseResponseFailed.
Proof.
  split; [| split].
  - destruct (parseRequest fuel buf) as [[msg e] | |] eqn:H; auto.
    apply parseRequest_header in H as [_ ->]. eauto.
  - unfold handleConnection. cbv zeta.
    destruct (inbound w) as [e | datagram]; [discriminate |].
    destruct (parseRequest fuel _) as [[msg [e |]] | |] eqn:Hp;
      try discriminate.
    { apply parseRequest_header in Hp as [_ Hp]. discriminate. }
    destruct (port_ok w); [| discriminate].
    destruct (dial_ok w); [| discriminate]. cbn [negb].
    destruct (forward fuel (upstream w) 0 (MQuestion msg) (MHeader msg) [] [])
      as [tr r] eqn:Hfwd.
    cbn [snd].
    destruct r as [[stop | [[header questions] answers]] | |]; cbn [bind];
      try discriminate.
    + apply forward_stops in Hfwd. subst stop. discriminate.
    + rewrite respond_eq. discriminate.
  - unfold handleConnection. cbv zeta.
    destruct (inbound w) as [e | datagram]; [discriminate |].
    destruct (parseRequest fuel _) as [[msg [e |]] | |] eqn:Hp;
      try discriminate.
    destruct (port_ok w); [| discriminate].
    destruct (dial_ok w); [| discriminate]. cbn [negb].
    destruct (forward fuel (upstream w) 0 (MQuestion msg) (MHeader msg) [] [])
      as [tr r] eqn:Hfwd.
    cbn [snd].
    destruct r as [[stop | [[header questions] answers]] | |]; cbn [bind];
      try discriminate.
    + apply forward_stops in Hfwd. subst stop. discriminate.
    + rewrite respond_eq. discriminate.
Qed.

Lemma parse_error_unreachable_witness :
  (parseRequest 5 (received sample_query) = Panic \/
   parseRequest 5 (received sample_query) = Diverge \/
   exists msg, parseRequest 5 (received sample_query) = Ret (msg, None)) /\
  snd (handleConnection 5 sample_world) <> Ret ParseRequestFailed /\
  snd (handleConnection 5 sample_world) <> Ret ParseResponseFailed.
Proof. exact (parse_error_unreachable 5 (received sample_query) sample_world). Defined.

(** * Further properties *)

(** ** More on reads *)

Lemma index_within buf i :
  0 <= i < Z.of_nat (len buf) -> (len buf <= cap buf)%nat ->
  exists b, index buf i = Ret b /\ arr buf !! Z.to_nat i = Some b.
Proof.
  intros Hi Hwf. unfold index.
  destruct (Z.leb_spec 0 i); [| lia].
  destruct (Z.ltb_spec i (Z.of_nat (len buf))); [| lia]. cbn [andb].
  destruct (lookup_lt_is_Some_2 (arr buf) (Z.to_nat i)) as [b Hb];
    [unfold cap in Hwf; lia |].
  rewrite Hb. eauto.
Qed.

Lemma index_outside buf i :
  ~ (0 <= i < Z.of_nat (len buf)) -> index buf i = Panic.
Proof.
  intros Hi. pose proof (index_Ret_range buf i) as Hr.
  pose proof (index_not_Diverge buf i) as Hd.
  destruct (index buf i) as [b | |]; [| reflexivity | congruence].
  exfalso. apply Hi. eapply Hr. reflexivity.
Qed.

Lemma subslice_within buf lo hi :
  0 <= lo <= hi -> hi <= Z.of_nat (cap buf) ->
  exists l, subslice buf lo hi = Ret l /\ Z.of_nat (length l) = hi - lo /\
            l = take (Z.to_nat (hi - lo)) (drop (Z.to_nat lo) (arr buf)).
Proof.
  intros Hlo Hhi. unfold subslice.
  destruct (Z.leb_spec 0 lo); [| lia].
  destruct (Z.leb_spec lo hi); [| lia].
  destruct (Z.leb_spec hi (Z.of_nat (cap buf))); [| lia]. cbn [andb].
  eexists. split; [reflexivity | split; [| reflexivity]].
  unfold cap in Hhi. rewrite length_take, length_drop. lia.
Qed.

Lemma subslice_Ret_length buf lo hi l :
  subslice buf lo hi = Ret l -> Z.of_nat (length l) = hi - lo.
Proof.
  intros H. pose proof (subslice_Ret_range _ _ _ _ H).
  pose proof (subslice_Ret_cap _ _ _ _ H).
  destruct (subslice_within buf lo hi) as (l' & Hl' & Hlen & _); try lia.
  congruence.
Qed.

Lemma Uint16_at_within buf lo hi :
  0 <= lo -> hi = lo + 2 -> hi <= Z.of_nat (cap buf) ->
  exists v, Uint16_at buf lo hi = Ret v.
Proof.
  intros Hlo -> Hhi. unfold Uint16_at.
  destruct (subslice_within buf lo (lo + 2)) as (l & -> & Hlen & _);
    try lia.
  destruct l as [| b0 [| b1 l]]; simpl in Hlen; try lia.
  cbn [bind Uint16]. eauto.
Qed.

(** ** When parseHeader returns *)

Lemma parseHeader_not_Diverge buf : parseHeader buf <> Diverge.
Proof.
  unfold parseHeader.
  repeat match goal with
    | |- bind ?m _ <> Diverge =>
        let H := fresh "Hread" in
        destruct m eqn:H; cbn [bind];
        [ | discriminate
          | exfalso;
            first [ exact (index_not_Diverge _ _ H)
                  | exact (Uint16_at_not_Diverge _ _ _ H) ] ]
    end.
  discriminate.
Qed.

Lemma parseHeader_returns buf :
  (4 <= len buf)%nat -> (len buf <= cap buf)%nat -> (12 <= cap buf)%nat ->
  exists h, parseHeader buf = Ret h.
Proof.
  intros Hlen Hwf Hcap. unfold parseHeader.
  destruct (Uint16_at_within buf 0 2) as [id ->]; try lia.
  destruct (index_within buf 2) as (b2 & -> & _); try lia.
  destruct (index_within buf 3) as (b3 & -> & _); try lia.
  destruct (Uint16_at_within buf 4 6) as [qd ->]; try lia.
  destruct (Uint16_at_within buf 6 8) as [an ->]; try lia.
  destruct (Uint16_at_within buf 8 10) as [ns ->]; try lia.
  destruct (Uint16_at_within buf 10 12) as [ar ->]; try lia.
  cbn [bind]. eauto.
Qed.

Lemma parseHeader_short_len buf : (len buf < 4)%nat -> parseHeader buf = Panic.
Proof.
  intros Hlen. unfold parseHeader.
  assert (H3 : index buf 3 = Panic) by (apply index_outside; lia).
  step_reads. congruence.
Qed.

(** X1.  On a slice whose length does not exceed its capacity, parseHeader
    returns a header exactly when the length is at least 4 and the capacity
    at least 12; otherwise it panics.  It reads bytes 2 and 3 by index and
    the five 16-bit fields by slice expressions. *)
Theorem parseHeader_returns_iff (buf : slice) :
  (len buf <= cap buf)%nat ->
  ((exists h, parseHeader buf = Ret h) <-> (4 <= len buf /\ 12 <= cap buf)%nat) /\
  (parseHeader buf = Panic <-> (len buf < 4 \/ cap buf < 12)%nat).
Proof.
  intros Hwf.
  assert (Hret : (4 <= len buf /\ 12 <= cap buf)%nat ->
                 exists h, parseHeader buf = Ret h)
    by (intros [? ?]; apply parseHeader_returns; assumption).
  assert (Hpanic : (len buf < 4 \/ cap buf < 12)%nat -> parseHeader buf = Panic)
    by (intros [? | ?];
        [apply parseHeader_short_len | apply parseHeader_short]; assumption).
  split; split; try assumption.
  - intros [h Hh].
    destruct (Nat.lt_ge_cases (len buf) 4) as [H4 | H4];
      [rewrite Hpanic in Hh by auto; discriminate |].
    destruct (Nat.lt_ge_cases (cap buf) 12) as [H12 | H12];
      [rewrite Hpanic in Hh by auto; discriminate |]. auto.
  - intros Hp.
    destruct (Nat.lt_ge_cases (len buf) 4) as [H4 | H4]; [auto |].
    destruct (Nat.lt_ge_cases (cap buf) 12) as [H12 | H12]; [auto |].
    destruct Hret as [h Hh]; [auto |]. congruence.
Qed.

Lemma parseHeader_returns_iff_witness :
  ((exists h, parseHeader {| arr := [0; 7; 129; 128; 0; 1; 0; 2; 0; 0; 0; 0];
                             len := 4 |} = Ret h) <->
   (4 <= 4 /\ 12 <= 12)%nat) /\
  (parseHeader {| arr := [0; 7; 129; 128; 0; 1; 0; 2; 0; 0; 0; 0];
                  len := 4 |} = Panic <-> (4 < 4 \/ 12 < 12)%nat).
Proof.
  apply (parseHeader_returns_iff
           {| arr := [0; 7; 129; 128; 0; 1; 0; 2; 0; 0; 0; 0]; len := 4 |}).
  unfold cap. simpl. lia.
Defined.

(** ** The receive buffer *)

Lemma received_length datagram :
  len (received datagram) = Z.to_nat 2048 /\
  cap (received datagram) = Z.to_nat 2048.
Proof.
  unfold received, full, cap, make. cbn [arr len].
  rewrite length_inserts, length_replicate. auto.
Qed.

(** X2.  Whatever datagram arrives, also an empty one, the header of the
    2048-byte receive buffer is decoded: the inbound path never meets a
    buffer too short for a header. *)
Theorem inbound_header_decodes (datagram : list Z) :
  exists h, parseHeader (received datagram) = Ret h.
Proof.
  destruct (received_length datagram) as [Hlen Hcap].
  apply parseHeader_returns; rewrite ?Hlen, ?Hcap; lia.
Qed.

(** X3.  handleConnection sees the first 2048 bytes of a datagram only: a
    longer datagram is handled exactly like its first 2048 bytes. *)
Theorem inbound_truncated (fuel : nat) (w : world) (datagram : list Z) :
  inbound w = inr datagram ->
  handleConnection fuel w =
  handleConnection fuel
    {| inbound := inr (take (Z.to_nat 2048) datagram); port_ok := port_ok w;
       dial_ok := dial_ok w; upstream := upstream w |}.
Proof.
  intros Hin. unfold handleConnection. cbv zeta. rewrite Hin.
  cbn [inbound port_ok dial_ok upstream].
  replace (list_inserts 0 (take (Z.to_nat 2048) datagram) (make 2048))
    with (list_inserts 0 datagram (make 2048)); [reflexivity |].
  rewrite !list_inserts_0. unfold make. rewrite length_replicate.
  rewrite take_take, Nat.min_id, length_take.
  destruct (Nat.le_gt_cases (length datagram) (Z.to_nat 2048)) as [H | H].
  - rewrite Nat.min_r by exact H. reflexivity.
  - rewrite Nat.min_l by lia. rewrite !drop_ge by (rewrite length_replicate; lia).
    reflexivity.
Qed.

Lemma inbound_truncated_witness :
  handleConnection 5 sample_world =
  handleConnection 5
    {| inbound := inr (take (Z.to_nat 2048) sample_query);
       port_ok := port_ok sample_world; dial_ok := dial_ok sample_world;
       upstream := upstream sample_world |}.
Proof. apply (inbound_truncated 5 sample_world sample_query). reflexivity. Defined.

(** ** Headers decoded from bytes, encoded again *)

(** X4.  A header decoded from a buffer of bytes has every field within its
    declared width: the flags are single bits, OPCODE and RCODE have four
    bits, the reserved field three, and the identifier and the four counts
    sixteen. *)
Theorem decoded_header_in_range (buf : slice) (h : Header) :
  Forall is_byte (arr buf) -> parseHeader buf = Ret h -> wf_Header h.
Proof. apply parseHeader_wf. Qed.

Lemma decoded_header_in_range_witness : wf_Header sample_query_header.
Proof.
  apply (decoded_header_in_range (received sample_query)).
  - apply received_bytes, sample_query_bytes.
  - vm_compute. reflexivity.
Defined.

(** Every byte satisfies a property that holds of the 256 numbers. *)
Lemma byte_cases (P : Z -> bool) :
  forallb P (seqZ 0 256) = true -> forall b, is_byte b -> P b = true.
Proof.
  intros Hall b Hb. rewrite forallb_forall in Hall. apply Hall.
  apply list_elem_of_In, elem_of_seqZ. unfold is_byte in Hb. lia.
Qed.

(** Packing the fields unpacked from byte 2, resp. byte 3, gives the byte
    back. *)
Lemma repack2 b :
  is_byte b ->
  Z.lor (Z.lor (Z.lor (Z.lor (shl8 (Z.shiftr b 7) 7)
                             (shl8 (Z.land (Z.shiftr b 3) 15) 3))
                      (shl8 (Z.land (Z.shiftr b 2) 1) 2))
               (shl8 (Z.land (Z.shiftr b 1) 1) 1))
        (Z.land b 1) = b.
Proof.
  intros Hb. apply Z.eqb_eq.
  apply (byte_cases (fun b =>
    Z.lor (Z.lor (Z.lor (Z.lor (shl8 (Z.shiftr b 7) 7)
                               (shl8 (Z.land (Z.shiftr b 3) 15) 3))
                        (shl8 (Z.land (Z.shiftr b 2) 1) 2))
                 (shl8 (Z.land (Z.shiftr b 1) 1) 1))
          (Z.land b 1) =? b)); [vm_compute; reflexivity | exact Hb].
Qed.

Lemma repack3 b :
  is_byte b ->
  Z.lor (Z.lor (shl8 (Z.shiftr b 7) 7) (shl8 (Z.land (Z.shiftr b 4) 7) 4))
        (Z.land b 15) = b.
Proof.
  intros Hb. apply Z.eqb_eq.
  apply (byte_cases (fun b =>
    Z.lor (Z.lor (shl8 (Z.shiftr b 7) 7) (shl8 (Z.land (Z.shiftr b 4) 7) 4))
          (Z.land b 15) =? b)); [vm_compute; reflexivity | exact Hb].
Qed.

(** The two bytes PutUint16 writes for a number read from two bytes. *)
Lemma be16_of_bytes b0 b1 :
  is_byte b0 -> is_byte b1 ->
  be16 (Z.lor b1 (uint16 (Z.shiftl b0 8))) = [b0; b1].
Proof.
  intros Hb0 Hb1. rewrite be16_value by assumption.
  unfold be16, byte, is_byte in *.
  rewrite Z.shiftr_div_pow2 by lia. change (2 ^ 8) with 256.
  replace ((b0 * 256 + b1) / 256) with b0
    by (apply (Z.div_unique _ _ _ b1); lia).
  rewrite Z.mod_small by lia.
  replace ((b0 * 256 + b1) mod 256) with b1
    by (apply (Z.mod_unique _ _ b0); lia).
  reflexivity.
Qed.

Lemma index_Ret_lookup buf i b :
  index buf i = Ret b -> arr buf !! Z.to_nat i = Some b.
Proof.
  unfold index. destruct (_ && _); [| discriminate].
  destruct (arr buf !! Z.to_nat i); [| discriminate]. congruence.
Qed.

Lemma Uint16_at_Ret_eq buf lo hi v :
  Uint16_at buf lo hi = Ret v ->
  Uint16 (take (Z.to_nat (hi - lo)) (drop (Z.to_nat lo) (arr buf))) = Ret v.
Proof.
  unfold Uint16_at, subslice. destruct (_ && _); [| discriminate].
  cbn [bind]. auto.
Qed.

Lemma uint16_be16_value b0 b1 :
  is_byte b0 -> is_byte b1 ->
  uint16 (Z.lor b1 (uint16 (Z.shiftl b0 8))) = Z.lor b1 (uint16 (Z.shiftl b0 8)).
Proof.
  intros Hb0 Hb1. apply uint16_small. rewrite be16_value by assumption.
  unfold is_byte, is_uint16 in *. lia.
Qed.

(** A header decoded from bytes is encoded to the twelve bytes it was decoded
    from. *)
Lemma header_bytes_of_parse buf h :
  Forall is_byte (arr buf) -> parseHeader buf = Ret h ->
  header_bytes h = take 12 (arr buf).
Proof.
  intros Hall Hh.
  assert (Hcap : (12 <= cap buf)%nat).
  { destruct (Nat.lt_ge_cases (cap buf) 12) as [H | H]; [| exact H].
    rewrite parseHeader_short in Hh by exact H. discriminate. }
  destruct buf as [a n]. unfold cap in Hcap. cbn [arr] in *.
  do 12 (destruct a as [| ? a]; [simpl in Hcap; lia |]).
  unfold parseHeader in Hh.
  repeat match type of Hh with
    | bind ?m _ = Ret _ =>
        let H := fresh "Hread" in
        destruct m eqn:H; cbn [bind] in Hh; try discriminate;
        first [ apply Uint16_at_Ret_eq in H; cbn in H; injection H as <-
              | apply index_Ret_lookup in H; cbn in H; injection H as <- ]
    end.
  injection Hh as <-.
  repeat match goal with
    | H : Forall is_byte (_ :: _) |- _ => apply Forall_cons in H as [? H]
    end.
  unfold header_bytes, flags2, flags3. cbn [ID QR OpCode AuthorativeAnswer
    Truncation RecursionDesired RecursionAvailable Reserved ResponseCode
    QuestionCount AnswerRecordCount AuthorativeRecordCount
    AdditionalRecordCount].
  rewrite uint16_be16_value, !be16_of_bytes, repack2, repack3 by assumption.
  reflexivity.
Qed.

(** X5.  Decoding a header from a buffer of bytes and encoding it again gives
    back the first twelve bytes of the buffer: Header.ToBytes undoes
    parseHeader, every bit of the flags included. *)
Theorem header_reencoded (buf : slice) (h : Header) :
  Forall is_byte (arr buf) -> parseHeader buf = Ret h ->
  Header_ToBytes h = Ret (take 12 (arr buf)).
Proof.
  intros Hall Hh. rewrite Header_ToBytes_eq.
  f_equal. apply header_bytes_of_parse; assumption.
Qed.

Lemma header_reencoded_witness :
  Header_ToBytes sample_query_header =
  Ret (take 12 (arr (received sample_query))).
Proof.
  apply (header_reencoded (received sample_query)).
  - apply received_bytes, sample_query_bytes.
  - vm_compute. reflexivity.
Defined.

(** ** What the name decoder returns *)

Lemma length_string_of_bytes l :
  String.length (string_of_bytes l) = length l.
Proof. induction l; simpl; congruence. Qed.

Lemma parseLabels_loop_labels fuel : forall buf i acc ls j,
  parseLabels_loop fuel buf i acc = Ret (ls, j) ->
  Forall (fun l => 1 <= strlen l <= 191) acc ->
  Forall (fun l => 1 <= strlen l <= 191) ls.
Proof.
  induction fuel as [| fuel IH]; intros buf i acc ls j H Hacc;
    [discriminate |].
  cbn [parseLabels_loop] in H.
  destruct (index buf i) as [b | |]; cbn [bind] in H; try discriminate.
  destruct (Z.eqb_spec b 0) as [Hb0 | Hb0]; [congruence |].
  destruct (Z.leb_spec 192 b) as [Hb | Hb].
  - destruct (Uint16_at buf i (i + 2)) as [w | |]; cbn [bind] in H;
      try discriminate.
    destruct (parseLabels_loop fuel buf (Z.land w 16383) [])
      as [[ls' j'] | |] eqn:Hrec; cbn [bind] in H; try discriminate.
    injection H as <- <-. apply Forall_app. split; [exact Hacc |].
    eapply IH; [exact Hrec | constructor].
  - destruct (subslice buf (i + 1) (i + 1 + b)) as [l | |] eqn:Hl;
      cbn [bind] in H; try discriminate.
    eapply IH; [exact H |]. apply Forall_app. split; [exact Hacc |].
    constructor; [| constructor].
    unfold strlen. rewrite length_string_of_bytes.
    pose proof (subslice_Ret_length _ _ _ _ Hl). lia.
Qed.

(** X6.  Every label parseLabels returns has between 1 and 191 bytes: a
    length byte is taken for a label up to 0xBF, well beyond the 63 bytes a
    DNS label may have. *)
Theorem decoded_labels_lengths (fuel : nat) (buf : slice) (start j : Z)
    (labels : list string) :
  parseLabels fuel buf start = Ret (labels, j) ->
  Forall (fun l => 1 <= strlen l <= 191) labels.
Proof.
  intros H. eapply parseLabels_loop_labels; [exact H | constructor].
Qed.

Lemma decoded_labels_lengths_witness :
  Forall (fun l => 1 <= strlen l <= 191) ["www"; "a"; "b"]%string.
Proof.
  apply (decoded_labels_lengths 6
           (full [1; 97; 1; 98; 0; 3; 119; 119; 119; 192; 0]) 5 11).
  vm_compute. reflexivity.
Defined.

Lemma parseLabels_loop_cursor fuel : forall buf i acc ls j,
  parseLabels_loop fuel buf i acc = Ret (ls, j) -> 0 <= i < j.
Proof.
  induction fuel as [| fuel IH]; intros buf i acc ls j H; [discriminate |].
  cbn [parseLabels_loop] in H.
  destruct (index buf i) as [b | |] eqn:Hi; cbn [bind] in H;
    try discriminate.
  pose proof (index_Ret_range _ _ _ Hi) as Hr.
  destruct (Z.eqb_spec b 0) as [Hb0 | Hb0]; [injection H as <- <-; lia |].
  destruct (Z.leb_spec 192 b) as [Hb | Hb].
  - destruct (Uint16_at buf i (i + 2)) as [w | |]; cbn [bind] in H;
      try discriminate.
    destruct (parseLabels_loop fuel buf (Z.land w 16383) [])
      as [[ls' j'] | |]; cbn [bind] in H; try discriminate.
    injection H as <- <-. lia.
  - destruct (subslice buf (i + 1) (i + 1 + b)) as [l | |] eqn:Hl;
      cbn [bind] in H; try discriminate.
    pose proof (subslice_Ret_range _ _ _ _ Hl).
    apply IH in H. lia.
Qed.

Lemma Uint16_at_Ret_cap buf lo hi v :
  Uint16_at buf lo hi = Ret v -> hi <= Z.of_nat (cap buf).
Proof.
  unfold Uint16_at. destruct (subslice buf lo hi) as [l | |] eqn:Hl;
    try discriminate.
  intros _. exact (subslice_Ret_cap _ _ _ _ Hl).
Qed.

(** A question takes at least five bytes and ends within the capacity. *)
Lemma parseQuestion_cursor fuel buf start q j :
  parseQuestion fuel buf start = Ret (q, j) ->
  0 <= start /\ start + 5 <= j <= Z.of_nat (cap buf).
Proof.
  unfold parseQuestion, parseLabels.
  destruct (parseLabels_loop fuel buf start []) as [[ls i] | |] eqn:Hl;
    cbn [bind]; try discriminate.
  apply parseLabels_loop_cursor in Hl.
  destruct (Uint16_at buf i (i + 2)) as [ty | |]; cbn [bind];
    try discriminate.
  destruct (Uint16_at buf (i + 2) (i + 4)) as [cl | |] eqn:Hc; cbn [bind];
    try discriminate.
  apply Uint16_at_Ret_cap in Hc. intros [= _ <-]. lia.
Qed.

Lemma parseQuestions_cursor fuel buf : forall n start acc qs j,
  parseQuestions fuel buf n start acc = Ret (qs, j) ->
  length qs = (length acc + n)%nat /\
  start + 5 * Z.of_nat n <= j /\
  (n <> 0%nat -> j <= Z.of_nat (cap buf)).
Proof.
  induction n as [| n IH]; intros start acc qs j H; cbn [parseQuestions] in H.
  - injection H as <- <-. repeat split; lia.
  - destruct (parseQuestion fuel buf start) as [[q next] | |] eqn:Hq;
      cbn [bind] in H; try discriminate.
    apply parseQuestion_cursor in Hq.
    assert (Hlast : n = 0%nat -> j = next)
      by (intros ->; cbn [parseQuestions] in H; congruence).
    apply IH in H as (Hlen & Hj & Hcap).
    rewrite length_app in Hlen. simpl in Hlen.
    repeat split; lia.
Qed.

(** X7.  A message parseRequest returns holds at most (capacity - 12) / 5
    questions, whatever count the header announces: each question takes at
    least five bytes of the buffer. *)
Theorem question_count_bound (fuel : nat) (buf : slice) (msg : Message)
    (e : option error) :
  parseRequest fuel buf = Ret (msg, e) ->
  12 + 5 * Z.of_nat (length (MQuestion msg)) <= Z.of_nat (cap buf).
Proof.
  unfold parseRequest.
  destruct (parseHeader buf) as [h | |] eqn:Hh; cbn [bind]; try discriminate.
  destruct (parseQuestions fuel buf (Z.to_nat (QuestionCount h)) 12 [])
    as [[qs next] | |] eqn:Hq; cbn [bind]; try discriminate.
  destruct (parseAnswers fuel buf _ next []) as [ans | |]; cbn [bind];
    try discriminate.
  intros [= <- _]. cbn [MQuestion].
  apply parseQuestions_cursor in Hq as (Hlen & Hj & Hcap).
  simpl in Hlen. rewrite Hlen.
  destruct (Z.to_nat (QuestionCount h)) as [| n] eqn:Hn.
  - destruct (Nat.lt_ge_cases (cap buf) 12) as [H | H]; [| lia].
    rewrite parseHeader_short in Hh by exact H. discriminate.
  - specialize (Hcap ltac:(discriminate)). lia.
Qed.

Lemma question_count_bound_witness :
  12 + 5 * Z.of_nat (length (MQuestion sample_message)) <=
  Z.of_nat (cap (received sample_query)).
Proof.
  apply (question_count_bound 5 (received sample_query) sample_message None).
  vm_compute. reflexivity.
Defined.

(** ** What the record decoders return *)

(** X8.  The RDATA of a record parseAnswer returns has exactly RDLENGTH
    bytes. *)
Theorem decoded_rdata_length (fuel : nat) (buf : slice) (start : Z)
    (a : Answer) :
  parseAnswer fuel buf start = Ret a ->
  Z.of_nat (length (RData a)) = RDLength a.
Proof.
  unfold parseAnswer.
  destruct (parseLabels fuel buf start) as [[ls i] | |]; cbn [bind];
    try discriminate.
  destruct (Uint16_at buf i (i + 2)) as [ty | |]; cbn [bind];
    try discriminate.
  destruct (Uint16_at buf (i + 2) (i + 4)) as [cl | |]; cbn [bind];
    try discriminate.
  destruct (Uint32_at buf (i + 4) (i + 8)) as [ttl | |]; cbn [bind];
    try discriminate.
  destruct (Uint16_at buf (i + 8) (i + 10)) as [n | |]; cbn [bind];
    try discriminate.
  destruct (subslice buf (i + 10) (i + 10 + n)) as [rd | |] eqn:Hrd;
    cbn [bind]; try discriminate.
  intros [= <-]. cbn [RData RDLength].
  apply subslice_Ret_length in Hrd. lia.
Qed.

Lemma decoded_rdata_length_witness :
  Z.of_nat (length (RData sample_answer)) = RDLength sample_answer.
Proof.
  apply (decoded_rdata_length 3
           (full [7; 101; 120; 97; 109; 112; 108; 101; 3; 99; 111; 109; 0;
                  0; 1; 0; 1; 0; 0; 1; 44; 0; 4; 93; 184; 216; 34; 9; 9]) 0).
  vm_compute. reflexivity.
Defined.

(** ** What the message decoder returns *)

Lemma parseAnswers_copies fuel buf start : forall n acc ans,
  parseAnswers fuel buf n start acc = Ret ans ->
  exists copies,
    ans = acc ++ copies /\ length copies = n /\
    Forall (fun a => parseAnswer fuel buf start = Ret a) copies.
Proof.
  induction n as [| n IH]; intros acc ans H; cbn [parseAnswers] in H.
  - injection H as <-. exists []. rewrite app_nil_r. auto.
  - destruct (parseAnswer fuel buf start) as [a | |] eqn:Ha; cbn [bind] in H;
      try discriminate.
    apply IH in H as (copies & -> & Hlen & Hall).
    exists (a :: copies). rewrite <- app_assoc. simpl.
    repeat split; [lia |]. constructor; [reflexivity | exact Hall].
Qed.

(** X9.  A message parseRequest returns has as many questions as QDCOUNT and
    as many answers as ANCOUNT say. *)
Theorem decoded_counts (fuel : nat) (buf : slice) (msg : Message)
    (e : option error) :
  parseRequest fuel buf = Ret (msg, e) ->
  length (MQuestion msg) = Z.to_nat (QuestionCount (MHeader msg)) /\
  length (MAnswer msg) = Z.to_nat (AnswerRecordCount (MHeader msg)).
Proof.
  unfold parseRequest.
  destruct (parseHeader buf) as [h | |]; cbn [bind]; try discriminate.
  destruct (parseQuestions fuel buf (Z.to_nat (QuestionCount h)) 12 [])
    as [[qs next] | |] eqn:Hq; cbn [bind]; try discriminate.
  destruct (parseAnswers fuel buf _ next []) as [ans | |] eqn:Ha; cbn [bind];
    try discriminate.
  intros [= <- _]. cbn [MQuestion MAnswer MHeader].
  apply parseQuestions_cursor in Hq as (Hlen & _ & _).
  apply parseAnswers_copies in Ha as (copies & -> & Hc & _).
  simpl in *. split; [exact Hlen | exact Hc].
Qed.

Lemma decoded_counts_witness :
  length (MQuestion sample_message) =
    Z.to_nat (QuestionCount (MHeader sample_message)) /\
  length (MAnswer sample_message) =
    Z.to_nat (AnswerRecordCount (MHeader sample_message)).
Proof.
  apply (decoded_counts 5 (received sample_query) sample_message None).
  vm_compute. reflexivity.
Defined.

(** X10.  The answer loop of parseRequest does not move its cursor: every
    answer of a message it returns was decoded at the offset where the
    questions end, so all the answers are the same record. *)
Theorem decoded_answers_same (fuel : nat) (buf : slice) (msg : Message)
    (e : option error) :
  parseRequest fuel buf = Ret (msg, e) ->
  exists next,
    parseQuestions fuel buf (Z.to_nat (QuestionCount (MHeader msg))) 12 [] =
      Ret (MQuestion msg, next) /\
    Forall (fun a => parseAnswer fuel buf next = Ret a) (MAnswer msg) /\
    (forall a b, In a (MAnswer msg) -> In b (MAnswer msg) -> a = b).
Proof.
  unfold parseRequest.
  destruct (parseHeader buf) as [h | |]; cbn [bind]; try discriminate.
  destruct (parseQuestions fuel buf (Z.to_nat (QuestionCount h)) 12 [])
    as [[qs next] | |] eqn:Hq; cbn [bind]; try discriminate.
  destruct (parseAnswers fuel buf _ next []) as [ans | |] eqn:Ha; cbn [bind];
    try discriminate.
  intros [= <- _]. cbn [MQuestion MAnswer MHeader].
  apply parseAnswers_copies in Ha as (copies & -> & _ & Hall).
  exists next. cbn [app]. split; [exact Hq | split; [exact Hall |]].
  intros a b Ha Hb. rewrite Forall_forall in Hall.
  apply list_elem_of_In in Ha, Hb.
  apply Hall in Ha, Hb. congruence.
Qed.

Lemma decoded_answers_same_witness :
  exists msg,
    parseRequest 5
      (full [18; 52; 129; 128; 0; 1; 0; 2; 0; 0; 0; 0;
             1; 99; 0; 0; 1; 0; 1;
             192; 12; 0; 1; 0; 1; 0; 0; 0; 60; 0; 2; 7; 8]) =
      Ret (msg, None) /\
    length (MAnswer msg) = 2%nat /\
    (forall a b, In a (MAnswer msg) -> In b (MAnswer msg) -> a = b).
Proof.
  eexists. split; [vm_compute; reflexivity |].
  split; [reflexivity |].
  destruct (decoded_answers_same 5
              (full [18; 52; 129; 128; 0; 1; 0; 2; 0; 0; 0; 0;
                     1; 99; 0; 0; 1; 0; 1;
                     192; 12; 0; 1; 0; 1; 0; 0; 0; 60; 0; 2; 7; 8])
              _ None ltac:(vm_compute; reflexivity)) as (next & _ & _ & H).
  exact H.
Defined.

(** ** Round trip of a message *)

Lemma parseQuestion_within q fuel pre post start :
  wf_Question q -> (length (Split (QName q)) < fuel)%nat ->
  start = Z.of_nat (length pre) ->
  parseQuestion fuel (full (pre ++ question_bytes q ++ post)) start =
  Ret (q, start + Z.of_nat (length (question_bytes q))).
Proof.
  intros (Hname & Hty & Hcl) Hfuel ->.
  unfold parseQuestion, parseLabels, question_bytes.
  rewrite <- !app_assoc. cbn [app].
  rewrite (parseLabels_loop_encoded (Split (QName q)) fuel pre _
             (Z.of_nat (length pre)) [])
    by auto using wf_name_plain.
  cbn [bind app]. set (enc := encode_labels (Split (QName q))).
  change (pre ++ enc ++ 0 :: ?t) with (pre ++ enc ++ [0] ++ t).
  rewrite !(app_assoc pre), (app_assoc (pre ++ enc)).
  rewrite (Uint16_at_full_app ((pre ++ enc) ++ [0]))
    by (try assumption; rewrite ?length_app; simpl; lia).
  cbn [bind]. rewrite (app_assoc ((pre ++ enc) ++ [0])).
  rewrite (Uint16_at_full_app (((pre ++ enc) ++ [0]) ++ be16 (QType q)))
    by (try assumption; rewrite ?length_app; simpl; lia).
  cbn [bind]. rewrite Join_Split. f_equal. f_equal.
  - destruct q; reflexivity.
  - rewrite !length_app. simpl. lia.
Qed.

Lemma parseQuestions_encoded fuel : forall qs pre post start acc,
  Forall wf_Question qs ->
  Forall (fun q => (length (Split (QName q)) < fuel)%nat) qs ->
  start = Z.of_nat (length pre) ->
  parseQuestions fuel
    (full (pre ++ concat (map question_bytes qs) ++ post))
    (length qs) start acc =
  Ret (acc ++ qs,
       start + Z.of_nat (length (concat (map question_bytes qs)))).
Proof.
  induction qs as [| q qs IH]; intros pre post start acc Hwf Hfuel Hstart.
  - simpl. rewrite app_nil_r. f_equal. f_equal. lia.
  - apply Forall_cons in Hwf as [Hq Hwf].
    apply Forall_cons in Hfuel as [Hfq Hfuel].
    cbn [length parseQuestions map concat].
    rewrite <- (app_assoc (question_bytes q)).
    rewrite (parseQuestion_within q fuel pre _ start Hq Hfq Hstart).
    cbn [bind].
    rewrite (app_assoc pre).
    rewrite (IH (pre ++ question_bytes q) post)
      by (try assumption; rewrite length_app; lia).
    rewrite <- app_assoc. f_equal. f_equal.
    rewrite length_app. lia.
Qed.

Lemma parseAnswer_within a fuel pre post start :
  wf_Answer a -> (length (Split (AName a)) < fuel)%nat ->
  start = Z.of_nat (length pre) ->
  parseAnswer fuel (full (pre ++ answer_bytes a ++ post)) start = Ret a.
Proof.
  intros (Hname & Hty & Hcl & Httl & Hrl & Hrd) Hfuel ->.
  unfold parseAnswer, parseLabels, answer_bytes.
  rewrite <- !app_assoc. cbn [app].
  rewrite (parseLabels_loop_encoded (Split (AName a)) fuel pre _
             (Z.of_nat (length pre)) [])
    by auto using wf_name_plain.
  cbn [bind app]. set (enc := encode_labels (Split (AName a))).
  change (pre ++ enc ++ 0 :: ?t) with (pre ++ enc ++ [0] ++ t).
  rewrite !(app_assoc pre), (app_assoc (pre ++ enc)).
  set (p1 := (pre ++ enc) ++ [0]).
  assert (L1 : Z.of_nat (length p1) =
               Z.of_nat (length pre) + Z.of_nat (length enc) + 1)
    by (subst p1; rewrite !length_app; simpl; lia).
  rewrite (Uint16_at_full_app p1) by (try assumption; lia).
  cbn [bind]. rewrite (app_assoc p1).
  set (p2 := p1 ++ be16 (AType a)).
  assert (L2 : Z.of_nat (length p2) = Z.of_nat (length p1) + 2)
    by (subst p2; rewrite length_app; simpl; lia).
  rewrite (Uint16_at_full_app p2) by (try assumption; lia).
  cbn [bind]. rewrite (app_assoc p2).
  set (p3 := p2 ++ be16 (AClass a)).
  assert (L3 : Z.of_nat (length p3) = Z.of_nat (length p2) + 2)
    by (subst p3; rewrite length_app; simpl; lia).
  rewrite (Uint32_at_full_app p3) by (try assumption; lia).
  cbn [bind]. rewrite (app_assoc p3).
  set (p4 := p3 ++ be32 (TTL a)).
  assert (L4 : Z.of_nat (length p4) = Z.of_nat (length p3) + 4)
    by (subst p4; rewrite length_app; simpl; lia).
  rewrite (Uint16_at_full_app p4) by (try assumption; lia).
  cbn [bind]. rewrite (app_assoc p4).
  rewrite (subslice_full_app (p4 ++ be16 (RDLength a)) (RData a) post)
    by (rewrite ?length_app; simpl; lia).
  cbn [bind]. rewrite Join_Split. destruct a; reflexivity.
Qed.

(** X11.  Round trip of a message: for a well-formed header whose QDCOUNT
    and ANCOUNT are the numbers of questions and answers, well-formed
    questions and at most one well-formed answer, parseRequest reads back
    from the concatenated encodings the header, the questions in order and
    the answer. *)
Theorem message_roundtrip (fuel : nat) (h : Header) (qs : list Question)
    (ans : list Answer) :
  wf_Header h -> Forall wf_Question qs -> Forall wf_Answer ans ->
  Forall (fun q => (length (Split (QName q)) < fuel)%nat) qs ->
  Forall (fun a => (length (Split (AName a)) < fuel)%nat) ans ->
  QuestionCount h = Z.of_nat (length qs) ->
  AnswerRecordCount h = Z.of_nat (length ans) ->
  (length ans <= 1)%nat ->
  parseRequest fuel (full (message_bytes h qs ans)) =
  Ret ({| MHeader := h; MQuestion := qs; MAnswer := ans;
          Authority := 0; Additional := 0 |}, None).
Proof.
  intros Hh Hqs Hans Hfq Hfa Hqd Han Hone. unfold parseRequest.
  rewrite parseHeader_message_bytes by exact Hh. cbn [bind].
  rewrite Hqd, Han, !Nat2Z.id. unfold message_bytes.
  rewrite (parseQuestions_encoded fuel qs (header_bytes h) _ 12 [])
    by (assumption || reflexivity).
  cbn [bind app].
  destruct ans as [| a [| b ans]]; [| | simpl in Hone; lia].
  - reflexivity.
  - apply Forall_cons in Hans as [Ha _]. apply Forall_cons in Hfa as [Hfa _].
    cbn [length parseAnswers map concat].
    rewrite app_assoc.
    rewrite (parseAnswer_within a fuel _ [] _ Ha Hfa)
      by (rewrite length_app, header_bytes_length; lia).
    reflexivity.
Qed.

Lemma message_roundtrip_witness :
  parseRequest 3
    (full (message_bytes (set_counts sample_header 1 1) [sample_question]
             [sample_answer])) =
  Ret ({| MHeader := set_counts sample_header 1 1;
          MQuestion := [sample_question]; MAnswer := [sample_answer];
          Authority := 0; Additional := 0 |}, None).
Proof.
  apply (message_roundtrip 3 (set_counts sample_header 1 1) [sample_question]
           [sample_answer]).
  - unfold wf_Header, is_uint16. simpl. lia.
  - constructor; [| constructor].
    unfold wf_Question, is_uint16. simpl. split; [solve_wf_name | lia].
  - constructor; [| constructor].
    unfold wf_Answer, is_uint16, is_uint32. simpl.
    split; [solve_wf_name | lia].
  - constructor; [simpl; lia | constructor].
  - constructor; [simpl; lia | constructor].
  - reflexivity.
  - reflexivity.
  - simpl. lia.
Defined.

(** ** Sizes *)

Lemma length_encode_labels_Split s :
  length (encode_labels (Split s)) = S (String.length s).
Proof.
  induction s as [| c s IH]; [reflexivity |].
  cbn [Split]. destruct (Ascii.eqb c dot).
  - rewrite encode_labels_cons, length_app, IH. reflexivity.
  - pose proof (Split_nonempty s) as Hne.
    destruct (Split s) as [| l ls]; [contradiction |].
    rewrite encode_labels_cons, length_app, length_encode_label in *.
    simpl. lia.
Qed.

Lemma length_question_bytes_eq q :
  Z.of_nat (length (question_bytes q)) = strlen (QName q) + 6.
Proof.
  unfold question_bytes, strlen.
  rewrite !length_app, length_encode_labels_Split. simpl. lia.
Qed.

Lemma length_answer_bytes_eq a :
  Z.of_nat (length (answer_bytes a)) =
  strlen (AName a) + 12 + Z.of_nat (length (RData a)).
Proof.
  unfold answer_bytes, strlen.
  rewrite !length_app, length_encode_labels_Split. simpl. lia.
Qed.

(** X12.  Question.ToBytes returns len(Name) + 6 bytes and Answer.ToBytes
    len(Name) + 12 + len(RData) bytes, for every name: a dot and a length
    byte take one byte each, and an empty name still gets a length byte. *)
Theorem encoded_sizes (q : Question) (a : Answer) :
  (exists b, Question_ToBytes q = Ret b /\
             Z.of_nat (length b) = strlen (QName q) + 6) /\
  (exists b, Answer_ToBytes a = Ret b /\
             Z.of_nat (length b) =
             strlen (AName a) + 12 + Z.of_nat (length (RData a))).
Proof.
  split.
  - exists (question_bytes q). split;
      [apply Question_ToBytes_eq | apply length_question_bytes_eq].
  - exists (answer_bytes a). split;
      [apply Answer_ToBytes_eq | apply length_answer_bytes_eq].
Qed.

Lemma queryDNS_no_question h a au ad udpConn :
  queryDNS {| MHeader := h; MQuestion := []; MAnswer := a;
              Authority := au; Additional := ad |} udpConn = Panic.
Proof.
  unfold queryDNS. cbn [MHeader MQuestion].
  rewrite Header_ToBytes_eq. cbn [bind].
  change (make (1024 * 10)) with (replicate (Z.to_nat 10240) 0).
  pose proof (copy_from_app [] (replicate (Z.to_nat 10240) 0) 0
                (header_bytes h) eq_refl) as H. cbn [app] in H.
  rewrite H by (rewrite length_replicate, header_bytes_length; lia).
  reflexivity.
Qed.

(** X13.  queryDNS panics exactly when the message has no question or the
    name of its first question has more than 10222 bytes, the request then
    exceeding the 10240-byte buffer; otherwise it hands to udpConn.Write the
    12 header bytes followed by the len(Name) + 6 bytes of the question. *)
Theorem queryDNS_panics_iff (msg : Message) (udpConn : list Z -> exchange) :
  (queryDNS msg udpConn = Panic <->
   match MQuestion msg with
   | [] => True
   | q :: _ => 10222 < strlen (QName q)
   end) /\
  (forall out res, queryDNS msg udpConn = Ret (out, res) ->
     exists q rest, MQuestion msg = q :: rest /\
       Z.of_nat (length out) = strlen (QName q) + 18).
Proof.
  destruct msg as [h [| q qs] a au ad]; cbn [MQuestion].
  - rewrite queryDNS_no_question. split; [tauto | discriminate].
  - rewrite queryDNS_eq. cbv zeta.
    assert (Hlen : Z.of_nat (length (request_bytes h q)) =
                   strlen (QName q) + 18).
    { unfold request_bytes.
      rewrite length_app, header_bytes_length, Nat2Z.inj_add,
        length_question_bytes_eq. lia. }
    destruct (Z.leb_spec (Z.of_nat (length (request_bytes h q))) 10240).
    + split; [split; [discriminate | lia] |].
      intros out res [= <- _]. eauto.
    + split; [split; [lia | reflexivity] | discriminate].
Qed.

Lemma queryDNS_panics_iff_witness :
  exists q rest,
    [sample_question] = q :: rest /\
    Z.of_nat (length (request_bytes sample_header sample_question)) =
    strlen (QName q) + 18.
Proof.
  apply (proj2 (queryDNS_panics_iff
                  {| MHeader := sample_header; MQuestion := [sample_question];
                     MAnswer := []; Authority := 0; Additional := 0 |}
                  (fun _ => ReadError "timeout"%string))
           (request_bytes sample_header sample_question)
           (inl "timeout"%string)).
  vm_compute. reflexivity.
Defined.

(** ** All or nothing *)

Section Exchanges.

Variable fuel : nat.
Variable upstream : nat -> list Z -> exchange.

(** The loop runs to its end only if every exchange brought a reply. *)
Lemma forward_all_replied : forall pending k header questions answers
    trace m,
  forward fuel upstream k pending header questions answers =
    (trace, Ret (inr m)) ->
  forall j out, trace !! j = Some out ->
    exists datagram, upstream (k + j)%nat out = Reply datagram.
Proof.
  induction pending as [| q pending IH];
    intros k header questions answers trace m H j out Hj;
    cbn [forward] in H.
  - injection H as <- _. rewrite lookup_nil in Hj. discriminate.
  - rewrite queryDNS_eq in H. cbv zeta in H.
    destruct (Z.of_nat (length (request_bytes (set_counts header 1 0) q))
                <=? 10240); [| discriminate].
    destruct (upstream k (request_bytes (set_counts header 1 0) q))
      as [e | e | datagram] eqn:Hex; try discriminate.
    destruct (parseRequest fuel _) as [[respMsg [e |]] | |];
      try discriminate.
    destruct (forward fuel upstream (S k) pending _ _ _) as [tr r] eqn:Hrec.
    injection H as <- ->.
    destruct j as [| j]; cbn in Hj.
    + injection Hj as <-. rewrite Nat.add_0_r. eauto.
    + replace (k + S j)%nat with (S k + j)%nat by lia.
      eapply IH; eassumption.
Qed.

(** The loop stops on a failed exchange right after the request of that
    exchange. *)
Lemma forward_failed_last : forall pending k header questions answers trace,
  forward fuel upstream k pending header questions answers =
    (trace, Ret (inl QueryFailed)) ->
  exists out e,
    last trace = Some out /\
    (upstream (k + length trace - 1)%nat out = WriteError e \/
     upstream (k + length trace - 1)%nat out = ReadError e).
Proof.
  induction pending as [| q pending IH];
    intros k header questions answers trace H; cbn [forward] in H.
  - discriminate.
  - rewrite queryDNS_eq in H. cbv zeta in H.
    destruct (Z.of_nat (length (request_bytes (set_counts header 1 0) q))
                <=? 10240); [| discriminate].
    destruct (upstream k (request_bytes (set_counts header 1 0) q))
      as [e | e | datagram] eqn:Hex.
    + injection H as <-. exists (request_bytes (set_counts header 1 0) q), e.
      cbn [last length]. replace (k + 1 - 1)%nat with k by lia. auto.
    + injection H as <-. exists (request_bytes (set_counts header 1 0) q), e.
      cbn [last length]. replace (k + 1 - 1)%nat with k by lia. auto.
    + destruct (parseRequest fuel _) as [[respMsg [e |]] | |];
        try discriminate.
      destruct (forward fuel upstream (S k) pending _ _ _) as [tr r] eqn:Hrec.
      injection H as <- ->.
      apply IH in Hrec as (out & e & Hlast & Hex').
      exists out, e. split.
      * destruct tr as [| x tr]; [discriminate | exact Hlast].
      * cbn [length].
        replace (k + S (length tr) - 1)%nat with (S k + length tr - 1)%nat;
          [exact Hex' |].
        destruct tr; [discriminate | simpl; lia].
Qed.

End Exchanges.

(** How handleConnection ends once the request is decoded and the upstream
    is reached. *)
Lemma handleConnection_forward fuel w datagram msg :
  inbound w = inr datagram ->
  parseRequest fuel (received datagram) = Ret (msg, None) ->
  port_ok w = true -> dial_ok w = true ->
  handleConnection fuel w =
  (fst (forward fuel (upstream w) 0 (MQuestion msg) (MHeader msg) [] []),
   let* r := snd (forward fuel (upstream w) 0 (MQuestion msg) (MHeader msg)
                    [] []) in
   match r with
   | inl stop => Ret stop
   | inr (header, questions, answers) =>
       Ret (Responded (message_bytes (finish_header header questions answers)
                         questions answers))
   end).
Proof.
  intros Hin Hmsg Hport Hdial. unfold handleConnection. cbv zeta.
  rewrite Hin. fold (received datagram). rewrite Hmsg, Hport, Hdial.
  cbn [negb].
  destruct (forward fuel (upstream w) 0 (MQuestion msg) (MHeader msg) [] [])
    as [trace r]. cbn [fst snd].
  f_equal. destruct r as [[stop | [[header questions] answers]] | |];
    cbn [bind]; try reflexivity.
  rewrite respond_eq. reflexivity.
Qed.

(** X14.  handleConnection answers the client only if every request it wrote
    upstream was answered: a reply is never assembled from a part of the
    round trips. *)
Theorem no_partial_reply (fuel : nat) (w : world) (trace : list (list Z))
    (reply : list Z) :
  handleConnection fuel w = (trace, Ret (Responded reply)) ->
  forall k out, trace !! k = Some out ->
    exists datagram, upstream w k out = Reply datagram.
Proof.
  intros Hrun k out Hk.
  apply handleConnection_responded in Hrun
    as (datagram & msg & header' & questions & answers & _ & _ & Hfwd & _).
  exact (forward_all_replied fuel (upstream w) _ 0 _ _ _ _ _ Hfwd k out Hk).
Qed.

Lemma no_partial_reply_witness :
  exists datagram,
    upstream sample_world 1 (nth 1 sample_trace []) = Reply datagram.
Proof.
  apply (no_partial_reply 5 sample_world sample_trace sample_reply).
  - vm_compute. reflexivity.
  - vm_compute. reflexivity.
Defined.

(** X15.  When handleConnection ends on "Error querying DNS", the exchange
    of the last request it wrote upstream failed, in the write or in the
    read: it stops at the first failure and sends the client nothing. *)
Theorem query_failure_stops (fuel : nat) (w : world) (trace : list (list Z)) :
  handleConnection fuel w = (trace, Ret QueryFailed) ->
  exists out e,
    last trace = Some out /\
    (upstream w (length trace - 1) out = WriteError e \/
     upstream w (length trace - 1) out = ReadError e).
Proof.
  unfold handleConnection. cbv zeta.
  destruct (inbound w) as [e | datagram]; [discriminate |].
  destruct (parseRequest fuel _) as [[msg [e |]] | |]; try discriminate.
  destruct (port_ok w); [| discriminate].
  destruct (dial_ok w); [| discriminate]. cbn [negb].
  destruct (forward fuel (upstream w) 0 (MQuestion msg) (MHeader msg) [] [])
    as [tr r] eqn:Hfwd.
  destruct r as [[stop | [[header questions] answers]] | |]; cbn [bind];
    try discriminate.
  - intros [= <- ->].
    exact (forward_failed_last fuel (upstream w) _ 0 _ _ _ _ Hfwd).
  - rewrite respond_eq. discriminate.
Qed.

Lemma query_failure_stops_witness :
  exists out e,
    last [request_bytes (set_counts sample_query_header 1 0)
            {| QName := "a.b"; QType := 1; QClass := 1 |}] = Some out /\
    (upstream failing_world (1 - 1) out = WriteError e \/
     upstream failing_world (1 - 1) out = ReadError e).
Proof.
  apply (query_failure_stops 5 failing_world
           [request_bytes (set_counts sample_query_header 1 0)
              {| QName := "a.b"; QType := 1; QClass := 1 |}]).
  vm_compute. reflexivity.
Defined.

(** X16.  A request without questions is answered without any upstream
    traffic: the reply is the twelve bytes of the request header with QR set,
    RCODE set from OPCODE, and QDCOUNT and ANCOUNT zero, whatever answers
    the request carried. *)
Theorem no_question_no_query (fuel : nat) (w : world) (datagram : list Z)
    (msg : Message) :
  inbound w = inr datagram ->
  parseRequest fuel (received datagram) = Ret (msg, None) ->
  port_ok w = true -> dial_ok w = true ->
  MQuestion msg = [] ->
  exists hb,
    Header_ToBytes (finish_header (MHeader msg) [] []) = Ret hb /\
    handleConnection fuel w = ([], Ret (Responded hb)).
Proof.
  intros Hin Hmsg Hport Hdial Hq.
  exists (header_bytes (finish_header (MHeader msg) [] [])).
  split; [apply Header_ToBytes_eq |].
  rewrite (handleConnection_forward fuel w datagram msg) by assumption.
  rewrite Hq. cbn [forward fst snd bind]. unfold message_bytes.
  cbn [map concat]. rewrite !app_nil_r. reflexivity.
Qed.

Lemma no_question_no_query_witness :
  exists hb,
    hb = [0; 0; 128; 0; 0; 0; 0; 0; 0; 0; 0; 0] /\
    handleConnection 1
      {| inbound := inr []; port_ok := true; dial_ok := true;
         upstream := sample_upstream |} = ([], Ret (Responded hb)).
Proof.
  destruct (no_question_no_query 1
              {| inbound := inr []; port_ok := true; dial_ok := true;
                 upstream := sample_upstream |} []
              {| MHeader := {| ID := 0; QR := 0; OpCode := 0;
                               AuthorativeAnswer := 0; Truncation := 0;
                               RecursionDesired := 0; RecursionAvailable := 0;
                               Reserved := 0; ResponseCode := 0;
                               QuestionCount := 0; AnswerRecordCount := 0;
                               AuthorativeRecordCount := 0;
                               AdditionalRecordCount := 0 |};
                 MQuestion := []; MAnswer := []; Authority := 0;
                 Additional := 0 |})
    as (hb & Hhb & Hrun);
    try reflexivity.
  exists hb. split; [| exact Hrun].
  vm_compute in Hhb. congruence.
Defined.

(** ** Termination of the message decoder *)

Lemma settles_const {A : Type} (m : outcome A) :
  m <> Diverge -> settles (fun _ => m).
Proof. intros Hm. exists 0%nat, m. auto. Qed.

Lemma settles_bind {A B : Type} (f : nat -> outcome A)
    (g : A -> nat -> outcome B) :
  settles f -> (forall a, settles (g a)) ->
  settles (fun fuel => bind (f fuel) (fun a => g a fuel)).
Proof.
  intros (fuel1 & r & Hr & Hf) Hg.
  destruct r as [a | |]; [| | congruence].
  - destruct (Hg a) as (fuel2 & r2 & Hr2 & Hga).
    exists (Nat.max fuel1 fuel2), r2. split; [exact Hr2 |].
    intros fuel' Hle. rewrite Hf by lia. cbn [bind]. apply Hga. lia.
  - exists fuel1, Panic. split; [discriminate |].
    intros fuel' Hle. rewrite Hf by lia. reflexivity.
Qed.

Lemma settles_bind_at {A B : Type} (f : nat -> outcome A)
    (g : A -> nat -> outcome B) :
  settles f -> (forall a fuel, f fuel = Ret a -> settles (g a)) ->
  settles (fun fuel => bind (f fuel) (fun a => g a fuel)).
Proof.
  intros (fuel1 & r & Hr & Hf) Hg.
  destruct r as [a | |]; [| | congruence].
  - destruct (Hg a fuel1 (Hf fuel1 (Nat.le_refl _))) as (fuel2 & r2 & Hr2 & Hga).
    exists (Nat.max fuel1 fuel2), r2. split; [exact Hr2 |].
    intros fuel' Hle. rewrite Hf by lia. cbn [bind]. apply Hga. lia.
  - exists fuel1, Panic. split; [discriminate |].
    intros fuel' Hle. rewrite Hf by lia. reflexivity.
Qed.

Lemma parseQuestion_mono fuel fuel' buf start x :
  parseQuestion fuel buf start = Ret x -> (fuel <= fuel')%nat ->
  parseQuestion fuel' buf start = Ret x.
Proof.
  unfold parseQuestion, parseLabels. intros H Hle.
  destruct (parseLabels_loop fuel buf start []) as [[ls i] | |] eqn:Hl;
    cbn [bind] in H; try discriminate.
  rewrite (parseLabels_loop_mono fuel buf start [] _ fuel' Hl) by
    (discriminate || exact Hle).
  exact H.
Qed.

(** The cursor behind [k] questions is one offset. *)
Lemma cursor_after_unique buf k : forall s s',
  cursor_after buf k s -> cursor_after buf k s' -> s = s'.
Proof.
  induction k as [| k IH]; intros s s' H H'; inversion H; inversion H'; subst;
    [reflexivity |].
  match goal with
  | H1 : cursor_after buf k ?a, H2 : cursor_after buf k ?b |- _ =>
      pose proof (IH a b H1 H2); subst
  end.
  match goal with
  | H1 : parseQuestion ?f1 buf ?a = Ret (_, s),
    H2 : parseQuestion ?f2 buf ?a = Ret (_, s') |- _ =>
      apply (parseQuestion_mono f1 (Nat.max f1 f2)) in H1; [| lia];
      apply (parseQuestion_mono f2 (Nat.max f1 f2)) in H2; [| lia];
      congruence
  end.
Qed.

Lemma parseQuestions_cursor_after fuel buf : forall n k start acc qs j,
  parseQuestions fuel buf n start acc = Ret (qs, j) ->
  cursor_after buf k start -> cursor_after buf (k + n) j.
Proof.
  induction n as [| n IH]; intros k start acc qs j H Hc;
    cbn [parseQuestions] in H.
  - injection H as _ <-. rewrite Nat.add_0_r. exact Hc.
  - destruct (parseQuestion fuel buf start) as [[q next] | |] eqn:Hq;
      cbn [bind] in H; try discriminate.
    rewrite <- Nat.add_succ_comm.
    exact (IH (S k) next _ qs j H (cursor_next buf k start fuel q next Hc Hq)).
Qed.

(** With enough fuel, the loop over the questions comes to the cursor
    behind the first [k] of them. *)
Lemma cursor_after_reached buf k s :
  cursor_after buf k s ->
  exists fuel1 qs, forall fuel n acc, (fuel1 <= fuel)%nat ->
    parseQuestions fuel buf (k + n) 12 acc =
    parseQuestions fuel buf n s (acc ++ qs).
Proof.
  induction 1 as [| k s fuelq q j Hc (fuel1 & qs & IH) Hq].
  - exists 0%nat, []. intros fuel n acc _. rewrite app_nil_r. reflexivity.
  - exists (Nat.max fuel1 fuelq), (qs ++ [q]). intros fuel n acc Hle.
    rewrite Nat.add_succ_comm, IH by lia. cbn [parseQuestions].
    rewrite (parseQuestion_mono fuelq fuel buf s (q, j) Hq) by lia.
    cbn [bind]. rewrite app_assoc. reflexivity.
Qed.

Section Settling.

Variable buf : slice.

Lemma parseLabels_settles start :
  finishes buf start -> settles (fun fuel => parseLabels fuel buf start).
Proof.
  intros [fuel Hf].
  exists fuel, (parseLabels fuel buf start). split; [apply Hf; lia |].
  intros fuel' Hle. unfold parseLabels.
  apply (parseLabels_loop_mono fuel); [reflexivity | apply Hf; lia | exact Hle].
Qed.

Lemma parseQuestion_settles start :
  finishes buf start -> settles (fun fuel => parseQuestion fuel buf start).
Proof.
  intros Hfin. unfold parseQuestion.
  apply (settles_bind (fun fuel => parseLabels fuel buf start)
           (fun x _ =>
              let (labels, i) := x in
              let* type := Uint16_at buf i (i + 2) in
              let* class := Uint16_at buf (i + 2) (i + 4) in
              Ret ({| QName := Join labels; QType := type; QClass := class |},
                   i + 4))).
  - apply parseLabels_settles, Hfin.
  - intros [labels i]. apply settles_const.
    pose proof (Uint16_at_not_Diverge buf i (i + 2)).
    pose proof (Uint16_at_not_Diverge buf (i + 2) (i + 4)).
    destruct (Uint16_at buf i (i + 2)); cbn [bind]; try congruence.
    destruct (Uint16_at buf (i + 2) (i + 4)); cbn [bind]; congruence.
Qed.

Lemma parseAnswer_settles start :
  finishes buf start -> settles (fun fuel => parseAnswer fuel buf start).
Proof.
  intros Hfin. unfold parseAnswer.
  apply (settles_bind (fun fuel => parseLabels fuel buf start)
           (fun x _ =>
              let (labels, i) := x in
              let* type := Uint16_at buf i (i + 2) in
              let* class := Uint16_at buf (i + 2) (i + 4) in
              let* ttl := Uint32_at buf (i + 4) (i + 8) in
              let* rdlength := Uint16_at buf (i + 8) (i + 10) in
              let* rdata := subslice buf (i + 10) (i + 10 + rdlength) in
              Ret {| AName := Join labels; AType := type; AClass := class;
                     TTL := ttl; RDLength := rdlength; RData := rdata |})).
  - apply parseLabels_settles, Hfin.
  - intros [labels i]. apply settles_const.
    pose proof (Uint16_at_not_Diverge buf i (i + 2)).
    pose proof (Uint16_at_not_Diverge buf (i + 2) (i + 4)).
    pose proof (Uint32_at_not_Diverge buf (i + 4) (i + 8)).
    pose proof (Uint16_at_not_Diverge buf (i + 8) (i + 10)).
    destruct (Uint16_at buf i (i + 2)); cbn [bind]; try congruence.
    destruct (Uint16_at buf (i + 2) (i + 4)); cbn [bind]; try congruence.
    destruct (Uint32_at buf (i + 4) (i + 8)); cbn [bind]; try congruence.
    destruct (Uint16_at buf (i + 8) (i + 10)) as [n | |]; cbn [bind];
      try congruence.
    pose proof (subslice_not_Diverge buf (i + 10) (i + 10 + n)).
    destruct (subslice buf (i + 10) (i + 10 + n)); cbn [bind]; congruence.
Qed.

Lemma parseQuestions_settles : forall n k start acc,
  cursor_after buf k start ->
  (forall k' s, cursor_after buf k' s -> (k' < k + n)%nat -> finishes buf s) ->
  settles (fun fuel => parseQuestions fuel buf n start acc).
Proof.
  induction n as [| n IH]; intros k start acc Hc Hfin; cbn [parseQuestions].
  - apply settles_const. discriminate.
  - apply (settles_bind_at (fun fuel => parseQuestion fuel buf start)
             (fun x fuel =>
                let (question, nextStart) := x in
                parseQuestions fuel buf n nextStart (acc ++ [question]))).
    + apply parseQuestion_settles, (Hfin k start Hc). lia.
    + intros [question nextStart] fuel Hq. apply (IH (S k)).
      * exact (cursor_next buf k start fuel question nextStart Hc Hq).
      * intros k' s Hs Hlt. apply (Hfin k' s Hs). lia.
Qed.

Lemma parseAnswers_settles start :
  finishes buf start ->
  forall n acc, settles (fun fuel => parseAnswers fuel buf n start acc).
Proof.
  intros Hfin. induction n as [| n IH]; intros acc; cbn [parseAnswers].
  - apply settles_const. discriminate.
  - apply (settles_bind (fun fuel => parseAnswer fuel buf start)
             (fun answer fuel =>
                parseAnswers fuel buf n start (acc ++ [answer]))).
    + apply parseAnswer_settles, Hfin.
    + intros answer. apply IH.
Qed.

(** The message decoder finishes when every name it comes to decode has a
    chain of pointers without a way back. *)
Lemma parseRequest_settles :
  (forall s, decodes_name_at buf s -> acyclic_from buf s) ->
  settles (fun fuel => parseRequest fuel buf).
Proof.
  intros Hnames. unfold parseRequest.
  apply (settles_bind_at (fun _ => parseHeader buf)
           (fun header fuel =>
              let* (questions, nextStart) :=
                parseQuestions fuel buf (Z.to_nat (QuestionCount header)) 12
                  [] in
              let* answers :=
                parseAnswers fuel buf
                  (Z.to_nat (AnswerRecordCount header)) nextStart [] in
              Ret ({| MHeader := header; MQuestion := questions;
                      MAnswer := answers; Authority := 0; Additional := 0 |},
                   None))).
  - apply settles_const, parseHeader_not_Diverge.
  - intros header _ Hh.
    apply (settles_bind_at
             (fun fuel =>
                parseQuestions fuel buf (Z.to_nat (QuestionCount header)) 12
                  [])
             (fun x fuel =>
                let (questions, nextStart) := x in
                let* answers :=
                  parseAnswers fuel buf
                    (Z.to_nat (AnswerRecordCount header)) nextStart [] in
                Ret ({| MHeader := header; MQuestion := questions;
                        MAnswer := answers; Authority := 0;
                        Additional := 0 |}, None))).
    + apply (parseQuestions_settles _ 0 12 [] (cursor_first buf)).
      intros k s Hs Hlt. apply acyclic_finishes, Hnames.
      exists header, k. auto.
    + intros [questions nextStart] fuel Hqs.
      apply (parseQuestions_cursor_after fuel buf _ 0) in Hqs;
        [| apply cursor_first]. cbn [Nat.add] in Hqs.
      apply (settles_bind
               (fun fuel =>
                  parseAnswers fuel buf
                    (Z.to_nat (AnswerRecordCount header)) nextStart [])
               (fun answers _ =>
                  Ret ({| MHeader := header; MQuestion := questions;
                          MAnswer := answers; Authority := 0;
                          Additional := 0 |}, None))).
      * destruct (Z.to_nat (AnswerRecordCount header)) as [| n] eqn:Hn.
        -- cbn [parseAnswers]. apply settles_const. discriminate.
        -- apply parseAnswers_settles, acyclic_finishes, Hnames.
           exists header, (Z.to_nat (QuestionCount header)).
           split; [exact Hh | split; [exact Hqs | right; split; lia]].
      * intros answers. apply settles_const. discriminate.
Qed.

(** Conversely, when the message decoder finishes, so has the decoding of
    every name it came to. *)
Lemma parseRequest_settled_names s :
  settles (fun fuel => parseRequest fuel buf) ->
  decodes_name_at buf s -> acyclic_from buf s.
Proof.
  intros (fuel0 & r & Hr & Hall) (h & k & Hh & Hc & Hcase).
  apply finishes_acyclic.
  destruct (cursor_after_reached buf k s Hc) as (fuel1 & qs & Hreach).
  exists (Nat.max fuel0 fuel1).
  specialize (Hall (Nat.max fuel0 fuel1) ltac:(lia)). cbv beta in Hall.
  intros Hd. apply Hr. rewrite <- Hall. unfold parseRequest.
  rewrite Hh. cbn [bind].
  destruct Hcase as [Hlt | [Heq Hpos]].
  - replace (Z.to_nat (QuestionCount h))
      with (k + S (Z.to_nat (QuestionCount h) - S k))%nat by lia.
    rewrite Hreach by lia. cbn [parseQuestions].
    unfold parseQuestion at 1. rewrite Hd. reflexivity.
  - replace (Z.to_nat (QuestionCount h)) with (k + 0)%nat by lia.
    rewrite Hreach by lia. cbn [parseQuestions bind].
    destruct (Z.to_nat (AnswerRecordCount h)) as [| n] eqn:Hn; [lia |].
    cbn [parseAnswers]. unfold parseAnswer at 1. rewrite Hd. reflexivity.
Qed.

End Settling.

(** A buffer without any byte from 0xC0 on has no pointer at all. *)
Lemma pointer_free_acyclic buf start :
  Forall (fun b => b < 192) (arr buf) -> acyclic_from buf start.
Proof.
  intros Hall s _ Hloop.
  assert (Hnone : forall a b, reaches_pointer buf a b -> False).
  { intros a b Hr.
    induction Hr as [a c w Hi Hb0 Hb Hw | a c l b Hi Hb0 Hb Hl Hr IH];
      [| exact IH].
    apply index_Ret_lookup in Hi.
    pose proof (Forall_lookup_1 _ _ _ _ Hall Hi) as Hlt. simpl in Hlt. lia. }
  inversion Hloop; subst; eauto.
Qed.

(** X17.  The message decoder finishes exactly when no name it comes to
    decode has a chain of compression pointers that comes back to an offset
    it has been at: from some fuel on parseRequest then gives one and the
    same result, a message or a bounds panic.  The names it comes to decode
    are those of the QDCOUNT questions and, if ANCOUNT is not zero, the one
    where the questions end; pointers elsewhere in the buffer do not
    matter. *)
Theorem parseRequest_terminates (buf : slice) :
  settles (fun fuel => parseRequest fuel buf) <->
  (forall s, decodes_name_at buf s -> acyclic_from buf s).
Proof.
  split.
  - intros Hsettles s. apply parseRequest_settled_names, Hsettles.
  - apply parseRequest_settles.
Qed.

Lemma parseRequest_terminates_witness :
  settles (fun fuel =>
             parseRequest fuel
               (full (header_bytes (set_counts sample_header 1 1) ++
                      question_bytes sample_question ++
                      pointer_answer_bytes 12 sample_answer))).
Proof.
  apply (proj2 (parseRequest_terminates _)).
  intros s (h & k & Hh & Hc & Hcase).
  vm_compute in Hh. injection Hh as <-. cbn [QuestionCount AnswerRecordCount] in Hcase.
  assert (Hk : k = 0%nat \/ k = 1%nat) by lia.
  destruct Hk as [-> | ->].
  - inversion Hc; subst. apply (chain_ends_acyclic _ 1). vm_compute. reflexivity.
  - assert (H29 : cursor_after
                    (full (header_bytes (set_counts sample_header 1 1) ++
                           question_bytes sample_question ++
                           pointer_answer_bytes 12 sample_answer)) 1 29).
    { apply (cursor_next _ 0 12 3 sample_question 29 (cursor_first _)).
      vm_compute. reflexivity. }
    rewrite (cursor_after_unique _ 1 s 29 Hc H29).
    apply (chain_ends_acyclic _ 2). vm_compute. reflexivity.
Defined.

(** ** A decoded question, encoded again *)

Lemma append_empty_r (s : string) : (s ++ EmptyString)%string = s.
Proof. induction s as [| c s IH]; simpl; congruence. Qed.

Lemma Split_append l s :
  dot_free l = true ->
  Split (l ++ s) =
  match Split s with
  | h :: t => (l ++ h)%string :: t
  | [] => [l]
  end.
Proof.
  induction l as [| c l IH]; intros Hl.
  - simpl. pose proof (Split_nonempty s).
    destruct (Split s); [contradiction | reflexivity].
  - cbn [dot_free] in Hl. apply andb_true_iff in Hl as [Hc Hl].
    cbn [append Split]. destruct (Ascii.eqb c dot); [discriminate |].
    rewrite (IH Hl). pose proof (Split_nonempty s).
    destruct (Split s); [contradiction | reflexivity].
Qed.

(** strings.Split undoes strings.Join on labels without dots, unless there
    is no label at all. *)
Lemma Split_Join ls :
  ls <> [] -> Forall (fun l => dot_free l = true) ls -> Split (Join ls) = ls.
Proof.
  unfold Join. intros Hne Hall.
  induction Hall as [| l ls Hl Hall IH]; [contradiction |].
  destruct ls as [| l2 ls].
  - cbn [String.concat]. rewrite <- (append_empty_r l) at 1.
    rewrite Split_append by exact Hl. cbn [Split].
    rewrite append_empty_r. reflexivity.
  - change (String.concat "." (l :: l2 :: ls))
      with (l ++ String dot (String.concat "." (l2 :: ls)))%string.
    rewrite Split_append by exact Hl. cbn [Split].
    change (Ascii.eqb dot dot) with true. cbv iota.
    rewrite append_empty_r, IH by discriminate. reflexivity.
Qed.

(** X18.  Decoding a question stored as plain labels without dots and
    encoding it again gives the stored bytes back, except for the root name:
    decoded to the empty string, it is encoded with a length byte of its own,
    one zero byte more than it was stored with. *)
Theorem question_reencoded (fuel : nat) (labels : list string) (type class : Z) :
  Forall plain_label labels ->
  Forall (fun l => dot_free l = true) labels ->
  is_uint16 type -> is_uint16 class ->
  (length labels < fuel)%nat ->
  let wire := encode_labels labels ++ [0] ++ be16 type ++ be16 class in
  exists q,
    parseQuestion fuel (full wire) 0 = Ret (q, Z.of_nat (length wire)) /\
    Question_ToBytes q =
    Ret (match labels with [] => 0 :: wire | _ :: _ => wire end).
Proof.
  intros Hplain Hdot Hty Hcl Hfuel wire.
  exists {| QName := Join labels; QType := type; QClass := class |}.
  split.
  - unfold parseQuestion. subst wire. cbn [app].
    rewrite parseLabels_encoded by assumption. cbn [bind].
    set (enc := encode_labels labels).
    change (enc ++ 0 :: ?t) with (enc ++ [0] ++ t). rewrite (app_assoc enc).
    rewrite (Uint16_at_full_app (enc ++ [0]))
      by (try assumption; rewrite ?length_app; simpl; lia).
    cbn [bind]. rewrite (app_assoc (enc ++ [0])).
    rewrite <- (app_nil_r (be16 class)).
    rewrite (Uint16_at_full_app ((enc ++ [0]) ++ be16 type))
      by (try assumption; rewrite ?length_app; simpl; lia).
    cbn [bind]. f_equal. f_equal. rewrite !length_app. simpl. lia.
  - rewrite Question_ToBytes_eq. unfold question_bytes. cbn [QName QType QClass].
    destruct labels as [| l ls]; [reflexivity |].
    rewrite Split_Join by (assumption || discriminate). reflexivity.
Qed.

Lemma question_reencoded_witness :
  exists q,
    parseQuestion 1 (full [0; 0; 2; 0; 1]) 0 = Ret (q, 5) /\
    Question_ToBytes q = Ret [0; 0; 0; 2; 0; 1].
Proof.
  apply (question_reencoded 1 [] 2 1);
    try constructor; unfold is_uint16; lia.
Defined.

(** ** Short replies *)

(** parseHeader looks at the first twelve bytes of the backing array, and at
    the length only to index bytes 2 and 3. *)
Lemma parseHeader_first_twelve buf :
  (4 <= len buf)%nat -> (len buf <= cap buf)%nat ->
  parseHeader buf = parseHeader (full (take 12 (arr buf))).
Proof.
  intros Hlen Hwf.
  destruct (Nat.lt_ge_cases (cap buf) 12) as [Hcap | Hcap].
  { rewrite !parseHeader_short; [reflexivity | | exact Hcap].
    unfold cap, full in *. cbn [arr]. rewrite length_take. lia. }
  destruct buf as [a n]. unfold cap in *. cbn [arr len] in *.
  do 12 (destruct a as [| ? a]; [simpl in Hcap; lia |]).
  cbn [take]. rewrite parseHeader_bytes. unfold parseHeader.
  set (buf := {| arr := _; len := n |}).
  assert (Hc : (12 <= cap buf)%nat) by (unfold cap; exact Hcap).
  assert (Hl : len buf = n) by reflexivity.
  destruct (subslice_within buf 0 2) as (l0 & H0 & _ & E0); try lia.
  destruct (index_within buf 2) as (x2 & H2 & E2);
    [lia | unfold cap; cbn [len]; exact Hwf |].
  destruct (index_within buf 3) as (x3 & H3 & E3);
    [lia | unfold cap; cbn [len]; exact Hwf |].
  destruct (subslice_within buf 4 6) as (l4 & H4 & _ & E4); try lia.
  destruct (subslice_within buf 6 8) as (l6 & H6 & _ & E6); try lia.
  destruct (subslice_within buf 8 10) as (l8 & H8 & _ & E8); try lia.
  destruct (subslice_within buf 10 12) as (l10 & H10 & _ & E10); try lia.
  unfold Uint16_at. rewrite H0, H2, H3, H4, H6, H8, H10.
  cbn in E0, E2, E3, E4, E6, E8, E10.
  injection E2 as <-. injection E3 as <-. subst l0 l4 l6 l8 l10.
  reflexivity.
Qed.

Lemma reply_slice_first_twelve out datagram :
  (12 <= length out <= Z.to_nat 10240)%nat ->
  take 12 (arr (reply_slice out datagram)) =
  take 12 (datagram ++ drop (length datagram) out).
Proof.
  intros Hout. unfold reply_slice. cbn [arr].
  rewrite list_inserts_0, !take_app, take_take.
  rewrite length_app, length_replicate, length_take.
  replace (length out + (Z.to_nat 10240 - length out))%nat
    with (Z.to_nat 10240) by lia.
  replace (Nat.min 12 (Z.to_nat 10240)) with 12%nat by lia.
  f_equal.
  destruct (Nat.lt_ge_cases (length datagram) 12) as [Hd | Hd].
  - rewrite Nat.min_r by lia.
    rewrite drop_app_le by lia.
    rewrite take_app_le by (rewrite length_drop; lia). reflexivity.
  - replace (12 - length datagram)%nat with 0%nat by lia.
    replace (12 - Nat.min (Z.to_nat 10240) (length datagram))%nat
      with 0%nat by lia.
    reflexivity.
Qed.

(** X19.  queryDNS returns the upstream reply as a window on its 10240-byte
    buffer, which still holds the request behind the reply.  From a reply of
    at least four bytes parseHeader therefore always decodes a header: where
    the reply has fewer than twelve bytes, the missing ones are those of the
    request that was sent. *)
Theorem short_reply_header (out datagram : list Z) :
  (12 <= length out <= Z.to_nat 10240)%nat ->
  (4 <= length datagram)%nat ->
  parseHeader (reply_slice out datagram) =
  parseHeader (full (take 12 (datagram ++ drop (length datagram) out))) /\
  exists h, parseHeader (reply_slice out datagram) = Ret h.
Proof.
  intros Hout Hd.
  assert (Hlen : (4 <= len (reply_slice out datagram))%nat)
    by (unfold reply_slice; cbn [len]; lia).
  assert (Hcap : cap (reply_slice out datagram) = Z.to_nat 10240).
  { unfold cap, reply_slice. cbn [arr].
    rewrite length_inserts, length_app, length_replicate. lia. }
  assert (Hwf : (len (reply_slice out datagram) <=
                 cap (reply_slice out datagram))%nat)
    by (rewrite Hcap; unfold reply_slice; cbn [len]; lia).
  split.
  - rewrite parseHeader_first_twelve by assumption.
    rewrite reply_slice_first_twelve by exact Hout. reflexivity.
  - apply parseHeader_returns; try assumption. rewrite Hcap. lia.
Qed.

Lemma short_reply_header_witness :
  parseHeader (reply_slice (request_bytes sample_header sample_question)
                 [18; 52; 129; 128]) =
  parseHeader (full (take 12 ([18; 52; 129; 128] ++
                              drop 4 (request_bytes sample_header
                                        sample_question)))) /\
  exists h, parseHeader (reply_slice (request_bytes sample_header
                                        sample_question)
                           [18; 52; 129; 128]) = Ret h.
Proof.
  apply (short_reply_header (request_bytes sample_header sample_question)
           [18; 52; 129; 128]).
  - simpl. lia.
  - simpl. lia.
Defined.

(** ** Replies too short for a header *)

(** X20.  An upstream reply of fewer than four bytes, an empty one included,
    makes handleConnection panic right after its first request: parseHeader
    indexes bytes 2 and 3 of the reply. *)
Theorem curt_reply_panics (fuel : nat) (w : world) (datagram reply : list Z)
    (msg : Message) (q : Question) (rest : list Question) :
  inbound w = inr datagram ->
  parseRequest fuel (received datagram) = Ret (msg, None) ->
  port_ok w = true -> dial_ok w = true ->
  MQuestion msg = q :: rest ->
  strlen (QName q) <= 10222 ->
  upstream w 0 (request_bytes (set_counts (MHeader msg) 1 0) q) = Reply reply ->
  (length reply < 4)%nat ->
  handleConnection fuel w =
  ([request_bytes (set_counts (MHeader msg) 1 0) q], Panic).
Proof.
  intros Hin Hmsg Hport Hdial Hq Hfit Hup Hshort.
  rewrite (handleConnection_forward fuel w datagram msg) by assumption.
  rewrite Hq. cbn [forward]. rewrite queryDNS_eq. cbv zeta.
  assert (Hlen : Z.of_nat (length (request_bytes (set_counts (MHeader msg) 1 0)
                                     q)) = strlen (QName q) + 18).
  { unfold request_bytes.
    rewrite length_app, header_bytes_length, Nat2Z.inj_add,
      length_question_bytes_eq. lia. }
  destruct (Z.leb_spec
              (Z.of_nat (length (request_bytes (set_counts (MHeader msg) 1 0)
                                   q))) 10240); [| lia].
  rewrite Hup.
  assert (Hp : parseRequest fuel
                 (reply_slice (request_bytes (set_counts (MHeader msg) 1 0) q)
                    reply) = Panic).
  { unfold parseRequest. rewrite parseHeader_short_len; [reflexivity |].
    unfold reply_slice. cbn [len]. lia. }
  rewrite Hp. reflexivity.
Qed.

Lemma curt_reply_panics_witness :
  handleConnection 5 curt_world =
  ([request_bytes (set_counts (MHeader sample_message) 1 0)
      {| QName := "a.b"; QType := 1; QClass := 1 |}], Panic).
Proof.
  apply (curt_reply_panics 5 curt_world sample_query [18; 52] sample_message
           {| QName := "a.b"; QType := 1; QClass := 1 |}
           [ {| QName := "c"; QType := 1; QClass := 1 |} ]);
    try reflexivity.
  - vm_compute. discriminate.
  - simpl. lia.
Defined.

(** ** The header bytes of a forwarded request *)

Lemma header_bytes_set_counts h a b :
  header_bytes (set_counts h a b) =
  take 4 (header_bytes h) ++ be16 a ++ be16 b ++ drop 8 (header_bytes h).
Proof. reflexivity. Qed.

(** X21.  Every request handleConnection writes upstream starts with the
    first four bytes of the received buffer (the identifier and the two flag
    bytes, bit for bit), then 0, 1, 0, 0 for the two counts it sets, then
    bytes 8 to 11 of the received buffer (the authority and additional
    counts). *)
Theorem forwarded_header_bytes (fuel : nat) (w : world) (datagram : list Z)
    (trace : list (list Z)) (r : outcome reaction) :
  inbound w = inr datagram -> Forall is_byte datagram ->
  handleConnection fuel w = (trace, r) ->
  Forall (fun out =>
            take 12 out =
            take 4 (arr (received datagram)) ++ [0; 1; 0; 0] ++
            take 4 (drop 8 (arr (received datagram)))) trace.
Proof.
  intros Hin Hbytes Hrun.
  destruct (parseRequest fuel (received datagram)) as [[msg e] | |] eqn:Hmsg.
  - pose proof Hmsg as Hmsg'.
    apply parseRequest_header in Hmsg' as [Hh ->].
    pose proof (header_bytes_of_parse _ _ (received_bytes _ Hbytes) Hh) as Hb.
    unfold handleConnection in Hrun. cbv zeta in Hrun.
    rewrite Hin in Hrun. fold (received datagram) in Hrun.
    rewrite Hmsg in Hrun.
    destruct (port_ok w); cbn [negb] in Hrun;
      [| injection Hrun as <- _; constructor].
    destruct (dial_ok w); cbn [negb] in Hrun;
      [| injection Hrun as <- _; constructor].
    pose proof (forward_trace fuel (upstream w) (MQuestion msg) 0
                  (MHeader msg) [] []) as Htrace. cbv zeta in Htrace.
    destruct (forward fuel (upstream w) 0 (MQuestion msg) (MHeader msg) [] [])
      as [tr r'].
    cbn [fst] in Htrace. injection Hrun as <- _.
    rewrite Htrace. apply Forall_fmap, Forall_forall. intros q _.
    cbn [compose]. unfold request_bytes.
    rewrite header_bytes_set_counts, Hb.
    rewrite take_take. change (Nat.min 4 12) with 4%nat.
    rewrite (take_drop_commute (arr (received datagram)) 4 8).
    change (8 + 4)%nat with 12%nat.
    apply take_app_length'.
    destruct (received_length datagram) as [_ Hcap]. unfold cap in Hcap.
    rewrite !length_app, length_drop, !length_take, Hcap. simpl. lia.
  - unfold handleConnection in Hrun. cbv zeta in Hrun.
    rewrite Hin in Hrun. fold (received datagram) in Hrun.
    rewrite Hmsg in Hrun. injection Hrun as <- _. constructor.
  - unfold handleConnection in Hrun. cbv zeta in Hrun.
    rewrite Hin in Hrun. fold (received datagram) in Hrun.
    rewrite Hmsg in Hrun. injection Hrun as <- _. constructor.
Qed.

Lemma forwarded_header_bytes_witness :
  Forall (fun out =>
            take 12 out =
            take 4 (arr (received sample_query)) ++ [0; 1; 0; 0] ++
            take 4 (drop 8 (arr (received sample_query)))) sample_trace.
Proof.
  apply (forwarded_header_bytes 5 sample_world sample_query sample_trace
           (Ret (Responded sample_reply))).
  - reflexivity.
  - apply sample_query_bytes.
  - vm_compute. reflexivity.
Defined.

(** ** Requests announcing more questions than the buffer can hold *)

(** A message the decoder returns announces no more questions than fit the
    buffer behind the header, five bytes each at least. *)
Lemma parseRequest_questions_fit fuel buf msg e :
  parseRequest fuel buf = Ret (msg, e) ->
  12 + 5 * QuestionCount (MHeader msg) <= Z.of_nat (cap buf).
Proof.
  unfold parseRequest.
  destruct (parseHeader buf) as [h | |] eqn:Hh; cbn [bind]; try discriminate.
  destruct (parseQuestions fuel buf (Z.to_nat (QuestionCount h)) 12 [])
    as [[qs next] | |] eqn:Hq; cbn [bind]; try discriminate.
  destruct (parseAnswers fuel buf _ next []) as [ans | |]; cbn [bind];
    try discriminate.
  intros [= <- _]. cbn [MHeader].
  apply parseQuestions_cursor in Hq as (_ & Hj & Hcap).
  destruct (Z.to_nat (QuestionCount h)) as [| n] eqn:Hn.
  - destruct (Nat.lt_ge_cases (cap buf) 12) as [H | H]; [| lia].
    rewrite parseHeader_short in Hh by exact H. discriminate.
  - specialize (Hcap ltac:(discriminate)). lia.
Qed.

Lemma received_below (bound : Z) datagram :
  0 < bound ->
  Forall (fun b => b < bound) datagram ->
  Forall (fun b => b < bound) (arr (received datagram)).
Proof.
  intros Hb H. unfold received, full. cbn [arr]. rewrite list_inserts_0.
  apply Forall_app. split.
  - apply Forall_take, H.
  - apply Forall_drop, Forall_replicate. exact Hb.
Qed.

(** X22.  A datagram whose header announces more than 407 questions is never
    answered and nothing is written upstream for it: the 2048-byte receive
    buffer holds at most 407 questions behind the header, so the decoder
    runs off the buffer.  Unless a compression loop keeps it busy for ever,
    handleConnection ends in a bounds panic; it does so for every such
    datagram without a byte from 0xC0 on. *)
Theorem crowded_request_panics (w : world) (datagram : list Z) (h : Header) :
  inbound w = inr datagram ->
  parseHeader (received datagram) = Ret h ->
  407 < QuestionCount h ->
  (forall fuel,
     handleConnection fuel w = ([], Panic) \/
     handleConnection fuel w = ([], Diverge)) /\
  (Forall (fun b => b < 192) datagram ->
   exists fuel, forall fuel', (fuel <= fuel')%nat ->
     handleConnection fuel' w = ([], Panic)).
Proof.
  intros Hin Hh Hcount.
  assert (Hnone : forall fuel msg e,
             parseRequest fuel (received datagram) <> Ret (msg, e)).
  { intros fuel msg e Hmsg.
    pose proof (parseRequest_header fuel _ _ _ Hmsg) as [Hhead _].
    apply parseRequest_questions_fit in Hmsg.
    destruct (received_length datagram) as [_ Hcap]. rewrite Hcap in Hmsg.
    rewrite Hh in Hhead. injection Hhead as Hhead. rewrite <- Hhead in Hmsg.
    lia. }
  split.
  - intros fuel. unfold handleConnection. cbv zeta. rewrite Hin.
    fold (received datagram).
    destruct (parseRequest fuel (received datagram)) as [[msg e] | |] eqn:Hp;
      [| left; reflexivity | right; reflexivity].
    exfalso. exact (Hnone fuel msg e Hp).
  - intros Hfree.
    destruct (parseRequest_settles (received datagram)
                (fun s _ =>
                   pointer_free_acyclic _ s
                     (received_below 192 datagram ltac:(lia) Hfree)))
      as (fuel & r & Hr & Hall).
    exists fuel. intros fuel' Hle. specialize (Hall fuel' Hle).
    unfold handleConnection. cbv zeta. rewrite Hin.
    fold (received datagram). cbv beta in Hall. rewrite Hall.
    destruct r as [[msg e] | |]; [| reflexivity | congruence].
    exfalso. exact (Hnone fuel' msg e Hall).
Qed.

Lemma crowded_request_panics_witness :
  (forall fuel,
     handleConnection fuel
       {| inbound := inr [0; 0; 0; 0; 1; 152]; port_ok := true;
          dial_ok := true; upstream := sample_upstream |} = ([], Panic) \/
     handleConnection fuel
       {| inbound := inr [0; 0; 0; 0; 1; 152]; port_ok := true;
          dial_ok := true; upstream := sample_upstream |} = ([], Diverge)) /\
  (Forall (fun b => b < 192) [0; 0; 0; 0; 1; 152] ->
   exists fuel, forall fuel', (fuel <= fuel')%nat ->
     handleConnection fuel'
       {| inbound := inr [0; 0; 0; 0; 1; 152]; port_ok := true;
          dial_ok := true; upstream := sample_upstream |} = ([], Panic)).
Proof.
  apply (crowded_request_panics
           {| inbound := inr [0; 0; 0; 0; 1; 152]; port_ok := true;
              dial_ok := true; upstream := sample_upstream |}
           [0; 0; 0; 0; 1; 152]
           {| ID := 0; QR := 0; OpCode := 0; AuthorativeAnswer := 0;
              Truncation := 0; RecursionDesired := 0;
              RecursionAvailable := 0; Reserved := 0; ResponseCode := 0;
              QuestionCount := 408; AnswerRecordCount := 0;
              AuthorativeRecordCount := 0; AdditionalRecordCount := 0 |}).
  - reflexivity.
  - vm_compute. reflexivity.
  - simpl. lia.
Defined.

(** ** Names with an empty label *)

Lemma encode_labels_app ls ls' :
  encode_labels (ls ++ ls') = encode_labels ls ++ encode_labels ls'.
Proof. unfold encode_labels. rewrite map_app, concat_app. reflexivity. Qed.

(** X23.  A name with an empty label (two dots in a row, a leading or a
    trailing dot, or the empty name) is not read back: Question.ToBytes
    writes a zero length byte for the empty label, and parseLabels takes it
    for the end of the name.  It returns the labels before the empty one
    and a cursor that lies before the type field. *)
Theorem empty_label_ends_name (fuel : nat) (q : Question)
    (pre post : list string) :
  Split (QName q) = pre ++ EmptyString :: post ->
  Forall plain_label pre -> (length pre < fuel)%nat ->
  exists b j,
    Question_ToBytes q = Ret b /\
    parseLabels fuel (full b) 0 = Ret (pre, j) /\
    j + 4 < Z.of_nat (length b).
Proof.
  intros Hsplit Hpre Hfuel.
  exists (question_bytes q), (Z.of_nat (length (encode_labels pre)) + 1).
  split; [apply Question_ToBytes_eq |].
  unfold question_bytes. rewrite Hsplit, encode_labels_app.
  rewrite encode_labels_cons. change (encode_label EmptyString) with [0].
  rewrite <- !app_assoc. cbn [app]. split.
  - apply parseLabels_encoded; assumption.
  - unfold be16. rewrite !length_app. cbn [length app].
    rewrite length_app. cbn [length]. lia.
Qed.

Lemma empty_label_ends_name_witness :
  exists b j,
    Question_ToBytes {| QName := "a..b"; QType := 1; QClass := 1 |} = Ret b /\
    parseLabels 2 (full b) 0 = Ret (["a"%string], j) /\
    j + 4 < Z.of_nat (length b).
Proof.
  apply (empty_label_ends_name 2 {| QName := "a..b"; QType := 1; QClass := 1 |}
           ["a"%string] ["b"%string]).
  - reflexivity.
  - constructor; [| constructor]. unfold plain_label, strlen. simpl. lia.
  - simpl. lia.
Defined.

(** ** Replies with a compressed answer name *)

(** A record whose name is a pointer to the labels stored at [pre]'s end is
    decoded with that name. *)
Lemma parseAnswer_pointer a fuel pre mid post start :
  wf_Answer a -> (length (Split (AName a)) + 1 < fuel)%nat ->
  (length pre < Z.to_nat 16384)%nat ->
  start = Z.of_nat (length (pre ++ encode_labels (Split (AName a)) ++ [0] ++
                            mid)) ->
  parseAnswer fuel
    (full (pre ++ encode_labels (Split (AName a)) ++ [0] ++ mid ++
           pointer_answer_bytes (Z.of_nat (length pre)) a ++ post)) start =
  Ret a.
Proof.
  intros (Hname & Hty & Hcl & Httl & Hrl & Hrd) Hfuel Hoff ->.
  set (enc := encode_labels (Split (AName a))).
  set (off := Z.of_nat (length pre)).
  set (b0 := 192 + off / 256). set (b1 := off mod 256).
  assert (Hb0 : 192 <= b0 < 256).
  { subst b0 off. assert (0 <= Z.of_nat (length pre) / 256 < 64); [| lia].
    split; [apply Z.div_pos; lia | apply Z.div_lt_upper_bound; lia]. }
  assert (Hb1 : is_byte b1)
    by (subst b1; unfold is_byte; apply Z.mod_pos_bound; lia).
  assert (Hptr : (b0 - 192) * 256 + b1 = off).
  { subst b0 b1. pose proof (Z.div_mod off 256 ltac:(lia)). lia. }
  unfold pointer_answer_bytes. fold off b0 b1.
  set (front := pre ++ enc ++ [0] ++ mid).
  set (fields := be16 (AType a) ++ be16 (AClass a) ++ be32 (TTL a) ++
                 be16 (RDLength a) ++ RData a ++ post).
  assert (Hbuf : pre ++ enc ++ [0] ++ mid ++
                 ([b0; b1] ++ be16 (AType a) ++ be16 (AClass a) ++
                  be32 (TTL a) ++ be16 (RDLength a) ++ RData a) ++ post =
                 front ++ [b0; b1] ++ fields).
  { subst front fields. rewrite <- !app_assoc. reflexivity. }
  rewrite Hbuf. clear Hbuf.
  destruct fuel as [| fuel]; [lia |].
  unfold parseAnswer, parseLabels. cbn [parseLabels_loop].
  rewrite (index_full_app front b0 (b1 :: fields)) by reflexivity.
  cbn [bind].
  destruct (Z.eqb_spec b0 0) as [E | _]; [lia |].
  destruct (Z.leb_spec 192 b0) as [_ | E]; [| lia].
  unfold Uint16_at at 1.
  rewrite (subslice_full_app front [b0; b1] fields) by (simpl; lia).
  cbn [bind Uint16]. rewrite pointer_offset by assumption. rewrite Hptr.
  assert (Hlabels :
            parseLabels_loop fuel (full (front ++ [b0; b1] ++ fields)) off [] =
            Ret (Split (AName a),
                 off + Z.of_nat (length enc) + 1)).
  { subst front. rewrite <- !app_assoc.
    apply (parseLabels_loop_encoded (Split (AName a)) fuel pre _ off []);
      [apply wf_name_plain, Hname | lia | reflexivity]. }
  rewrite Hlabels. cbn [bind]. change ([] ++ Split (AName a)) with (Split (AName a)).
  subst fields. rewrite (app_assoc front).
  set (p1 := front ++ [b0; b1]).
  assert (L1 : Z.of_nat (length p1) = Z.of_nat (length front) + 2)
    by (subst p1; rewrite length_app; simpl; lia).
  rewrite (Uint16_at_full_app p1) by (try assumption; lia).
  cbn [bind]. rewrite (app_assoc p1).
  set (p2 := p1 ++ be16 (AType a)).
  assert (L2 : Z.of_nat (length p2) = Z.of_nat (length p1) + 2)
    by (subst p2; rewrite length_app; simpl; lia).
  rewrite (Uint16_at_full_app p2) by (try assumption; lia).
  cbn [bind]. rewrite (app_assoc p2).
  set (p3 := p2 ++ be16 (AClass a)).
  assert (L3 : Z.of_nat (length p3) = Z.of_nat (length p2) + 2)
    by (subst p3; rewrite length_app; simpl; lia).
  rewrite (Uint32_at_full_app p3) by (try assumption; lia).
  cbn [bind]. rewrite (app_assoc p3).
  set (p4 := p3 ++ be32 (TTL a)).
  assert (L4 : Z.of_nat (length p4) = Z.of_nat (length p3) + 4)
    by (subst p4; rewrite length_app; simpl; lia).
  rewrite (Uint16_at_full_app p4) by (try assumption; lia).
  cbn [bind]. rewrite (app_assoc p4).
  rewrite (subslice_full_app (p4 ++ be16 (RDLength a)) (RData a) post)
    by (rewrite ?length_app; simpl; lia).
  cbn [bind]. rewrite Join_Split. destruct a; reflexivity.
Qed.

(** X24.  The usual layout of an upstream reply is decoded in full: a
    header, one question, and one record whose name is the compression
    pointer C0 0C to the name of the question.  parseRequest returns the
    header, the question and the record with the name of the question
    written out. *)
Theorem compressed_reply_decoded (fuel : nat) (h : Header) (q : Question)
    (a : Answer) :
  wf_Header h -> wf_Question q -> wf_Answer a ->
  AName a = QName q ->
  QuestionCount h = 1 -> AnswerRecordCount h = 1 ->
  (length (Split (QName q)) + 1 < fuel)%nat ->
  parseRequest fuel
    (full (header_bytes h ++ question_bytes q ++ pointer_answer_bytes 12 a)) =
  Ret ({| MHeader := h; MQuestion := [q]; MAnswer := [a];
          Authority := 0; Additional := 0 |}, None).
Proof.
  intros Hh Hq Ha Hname Hqd Han Hfuel. unfold parseRequest.
  assert (Hhead : parseHeader
                    (full (header_bytes h ++ question_bytes q ++
                           pointer_answer_bytes 12 a)) = Ret h).
  { rewrite <- (parseHeader_header_bytes h Hh).
    unfold header_bytes, be16. cbn [app].
    apply (parseHeader_prefix _ _ _ _ _ _ _ _ _ _ _ _ _). }
  rewrite Hhead. cbn [bind]. rewrite Hqd, Han.
  change (Z.to_nat 1) with 1%nat. cbn [parseQuestions parseAnswers].
  rewrite (parseQuestion_within q fuel (header_bytes h) _ 12 Hq)
    by (rewrite ?header_bytes_length; lia || reflexivity).
  cbn [bind app].
  assert (Hbuf : header_bytes h ++ question_bytes q ++
                 pointer_answer_bytes 12 a =
                 header_bytes h ++ encode_labels (Split (AName a)) ++ [0] ++
                 (be16 (QType q) ++ be16 (QClass q)) ++
                 pointer_answer_bytes (Z.of_nat (length (header_bytes h))) a ++
                 []).
  { rewrite header_bytes_length, app_nil_r, Hname. unfold question_bytes.
    rewrite <- !app_assoc. reflexivity. }
  rewrite Hbuf.
  rewrite (parseAnswer_pointer a fuel (header_bytes h)
             (be16 (QType q) ++ be16 (QClass q)) [] _ Ha).
  - reflexivity.
  - rewrite Hname. exact Hfuel.
  - rewrite header_bytes_length. lia.
  - rewrite Hname. unfold question_bytes.
    rewrite !length_app, header_bytes_length. lia.
Qed.

Lemma compressed_reply_decoded_witness :
  parseRequest 4
    (full (header_bytes (set_counts sample_header 1 1) ++
           question_bytes sample_question ++
           pointer_answer_bytes 12 sample_answer)) =
  Ret ({| MHeader := set_counts sample_header 1 1;
          MQuestion := [sample_question]; MAnswer := [sample_answer];
          Authority := 0; Additional := 0 |}, None).
Proof.
  apply (compressed_reply_decoded 4 (set_counts sample_header 1 1)
           sample_question sample_answer).
  - unfold wf_Header, is_uint16. simpl. lia.
  - unfold wf_Question, is_uint16. simpl. split; [solve_wf_name | lia].
  - unfold wf_Answer, is_uint16, is_uint32. simpl.
    split; [solve_wf_name | lia].
  - reflexivity.
  - reflexivity.
  - reflexivity.
  - simpl. lia.
Defined.
